(** * cc-fastapi: the request-admission and process-streaming pipeline

    A shallow embedding of the TypeScript services of the proxy server:

    - [Permission]: services/permission.service (pure string functions);
    - [Stream]:     services/stream.service (the line transcoder, an async
                    generator, modelled as the state machine of its
                    suspension points);
    - [Limiter]:    services/concurrent.service (the ConcurrencyLimiter
                    class, modelled as a step function over the callbacks the
                    event loop delivers);
    - [Chat]:       services/claude.service and routes/chat (process launch
                    and the request handler, modelled as effect traces);
    - [Git], [Env]: utils/git.util and utils/env.util (the directory and
                    the environment the handler gives the child);
    - [Fibonacci], [Count]: utils/fibonacci.util and utils/count.util.

    [LimiterOrder], [StreamRules] and [ChatRules] hold the vocabulary of the
    further properties of the limiter, the transcoder and the handler.

    [Js] holds what the services take from the JavaScript platform: string
    primitives, JSON values and JSON.parse. *)

From Stdlib Require Import String Ascii List ZArith Lia Bool Sorted.
Import ListNotations.

#[local] Set Warnings "-register-all".

Local Open Scope string_scope.
Local Open Scope list_scope.
Local Open Scope Z_scope.

(* ================================================================== *)
(** * Platform: strings and JSON *)
(* ================================================================== *)

Module Js.

(** JavaScript strings are modelled by their UTF-8 bytes.  Every separator
    and keyword the services look for is ASCII, and an ASCII byte never
    occurs inside a multi-byte sequence, so splitting and matching on bytes
    agree with splitting and matching on characters. *)

Definition dq : string := String (ascii_of_nat 34) EmptyString.

Definition byte (c : ascii) : nat := nat_of_ascii c.

(** [s.length > 0], which is also the truthiness of a string. *)
Definition nonempty (s : string) : bool :=
  match s with EmptyString => false | String _ _ => true end.

(** [s.split(sep)] for a one-character separator: never returns the empty
    list, and a trailing separator yields a trailing empty piece. *)
Fixpoint split (sep : ascii) (s : string) : list string :=
  match s with
  | EmptyString => [EmptyString]
  | String c s' =>
      if Ascii.eqb c sep then EmptyString :: split sep s'
      else match split sep s' with
           | [] => [String c EmptyString]
           | w :: ws => String c w :: ws
           end
  end.

(** The code points String.prototype.trim removes (WhiteSpace and
    LineTerminator of ECMA-262), each as its UTF-8 byte sequence:
    TAB LF VT FF CR SP, U+00A0, U+1680, U+2000..U+200A, U+2028, U+2029,
    U+202F, U+205F, U+3000, U+FEFF. *)
Definition whitespace : list (list nat) :=
  [ [9]; [10]; [11]; [12]; [13]; [32];
    [194; 160]; [225; 154; 128];
    [226; 128; 128]; [226; 128; 129]; [226; 128; 130]; [226; 128; 131];
    [226; 128; 132]; [226; 128; 133]; [226; 128; 134]; [226; 128; 135];
    [226; 128; 136]; [226; 128; 137]; [226; 128; 138];
    [226; 128; 168]; [226; 128; 169]; [226; 128; 175];
    [226; 129; 159]; [227; 128; 128]; [239; 187; 191] ]%nat.

(** [strip_prefix p l] is the rest of [l] after the bytes [p], if [l] starts
    with them. *)
Fixpoint strip_prefix (p : list nat) (l : list ascii) : option (list ascii) :=
  match p, l with
  | [], _ => Some l
  | b :: p', c :: l' => if Nat.eqb b (byte c) then strip_prefix p' l' else None
  | _ :: _, [] => None
  end.

Fixpoint strip_any (ps : list (list nat)) (l : list ascii) : option (list ascii) :=
  match ps with
  | [] => None
  | p :: ps' =>
      match strip_prefix p l with
      | Some r => Some r
      | None => strip_any ps' l
      end
  end.

(** Removes leading white space; [fuel] bounds the number of code points
    removed and is taken as the length of the input. *)
Fixpoint trim_start (ps : list (list nat)) (fuel : nat) (l : list ascii) : list ascii :=
  match fuel with
  | O => l
  | S fuel' =>
      match strip_any ps l with
      | Some r => trim_start ps fuel' r
      | None => l
      end
  end.

(** [s.trim()]: the end is trimmed on the reversed bytes with the reversed
    sequences (each sequence starts with a lead byte, so a match at the end
    of well-formed UTF-8 is a whole code point). *)
Definition trim (s : string) : string :=
  let l := list_ascii_of_string s in
  let l1 := trim_start whitespace (length l) l in
  let r := trim_start (map (@rev nat) whitespace) (length l1) (rev l1) in
  string_of_list_ascii (rev r).

(** ** JSON values

    The values JSON.parse returns, plus [JUndefined] for the result of
    reading a property that is not there.  A finite number is kept as the
    exact decimal [mantissa * 10 ^ exponent] of its literal, [JInfinity] is
    the Number a literal too large for a double denotes; an object holds
    its properties in the order of its own property keys. *)
Inductive JValue : Type :=
| JUndefined
| JNull
| JBool (b : bool)
| JNumber (mantissa exponent : Z)
| JInfinity (negative : bool)
| JString (s : string)
| JArray (items : list JValue)
| JObject (props : list (string * JValue)).

(** The Number a decimal literal denotes is the double nearest to it (ties
    to even); that double is zero when the literal is zero or lies within
    [2 ^ -1075] of it. *)
Definition number_is_zero (m e : Z) : bool :=
  (m =? 0) || ((e <? 0) && (Z.abs m * 2 ^ 1075 <=? 10 ^ (- e))).

(** It is an infinity when the literal reaches [2 ^ 1024 - 2 ^ 970], half
    way from the largest double, [2 ^ 1024 - 2 ^ 971], to [2 ^ 1024]. *)
Definition number_is_infinite (m e : Z) : bool :=
  if e <? 0 then (2 ^ 1024 - 2 ^ 970) * 10 ^ (- e) <=? Z.abs m
  else 2 ^ 1024 - 2 ^ 970 <=? Z.abs m * 10 ^ e.

(** The value of the number literal [m * 10 ^ e]. *)
Definition number (m e : Z) : JValue :=
  if number_is_infinite m e then JInfinity (m <? 0) else JNumber m e.

(** ToBoolean. *)
Definition truthy (v : JValue) : bool :=
  match v with
  | JUndefined | JNull => false
  | JBool b => b
  | JNumber m e => negb (number_is_zero m e)
  | JInfinity _ => true
  | JString s => nonempty s
  | JArray _ | JObject _ => true
  end.

Fixpoint lookup (k : string) (props : list (string * JValue)) : option JValue :=
  match props with
  | [] => None
  | (k', v) :: rest => if String.eqb k k' then Some v else lookup k rest
  end.

(** [delete o[k]]. *)
Definition obj_delete (k : string) (props : list (string * JValue))
  : list (string * JValue) :=
  filter (fun kv => negb (String.eqb k (fst kv))) props.

(** The outcome of an expression that may throw. *)
Inductive Result (A : Type) : Type :=
| Ok (a : A)
| Throw (message : string).
Arguments Ok {A} a.
Arguments Throw {A} message.

Definition bind {A B : Type} (r : Result A) (f : A -> Result B) : Result B :=
  match r with
  | Ok a => f a
  | Throw m => Throw m
  end.

Notation "'let?' x ':=' r 'in' k" := (bind r (fun x => k))
  (at level 10, x name, r at level 100, k at level 200).

(** [v.k] for the property names the services read ([type], [event],
    [delta], [text], [message], [content], [result]): a TypeError on null
    and undefined, the own property of an object, and undefined on every
    other value, whose prototypes define none of these names. *)
Definition get (v : JValue) (k : string) : Result JValue :=
  match v with
  | JUndefined | JNull => Throw "TypeError"
  | JObject props =>
      match lookup k props with
      | Some x => Ok x
      | None => Ok JUndefined
      end
  | _ => Ok JUndefined
  end.

(** [v === 'lit'] *)
Definition is_string (v : JValue) (lit : string) : bool :=
  match v with
  | JString s => String.eqb s lit
  | _ => false
  end.

(** ** JSON.parse

    A recursive-descent reader of the JSON grammar (ECMA-404), [None] where
    JSON.parse throws a SyntaxError.  [fuel] bounds the nesting and the
    number of members read; [JSON_parse] supplies more than any text of its
    length can use. *)

Definition is_json_ws (c : ascii) : bool :=
  Ascii.eqb c " " || Nat.eqb (byte c) 9 || Nat.eqb (byte c) 10 || Nat.eqb (byte c) 13.

Fixpoint skip_ws (s : string) : string :=
  match s with
  | String c r => if is_json_ws c then skip_ws r else s
  | EmptyString => s
  end.

Definition digit (c : ascii) : option Z :=
  let n := byte c in
  if Nat.leb 48 n && Nat.leb n 57 then Some (Z.of_nat (n - 48)) else None.

Definition hex (c : ascii) : option Z :=
  let n := byte c in
  if Nat.leb 48 n && Nat.leb n 57 then Some (Z.of_nat (n - 48))
  else if Nat.leb 65 n && Nat.leb n 70 then Some (Z.of_nat (n - 55))
  else if Nat.leb 97 n && Nat.leb n 102 then Some (Z.of_nat (n - 87))
  else None.

Definition hex4 (a b c d : ascii) : option Z :=
  match hex a, hex b, hex c, hex d with
  | Some x, Some y, Some z, Some w => Some (((x * 16 + y) * 16 + z) * 16 + w)
  | _, _, _, _ => None
  end.

Definition chr (n : Z) : ascii := ascii_of_nat (Z.to_nat n).

(** UTF-8 of a code point (a lone surrogate is encoded like any other
    three-byte code point). *)
Definition utf8_encode (cp : Z) : list ascii :=
  if cp <? 128 then [chr cp]
  else if cp <? 2048 then [chr (192 + cp / 64); chr (128 + cp mod 64)]
  else if cp <? 65536 then
    [chr (224 + cp / 4096); chr (128 + (cp / 64) mod 64); chr (128 + cp mod 64)]
  else
    [chr (240 + cp / 262144); chr (128 + (cp / 4096) mod 64);
     chr (128 + (cp / 64) mod 64); chr (128 + cp mod 64)].

(** A run of decimal digits: its value on top of [acc], how many there
    were, and the rest of the text. *)
Fixpoint digits (s : string) (acc : Z) (count : Z) : Z * Z * string :=
  match s with
  | String c r =>
      match digit c with
      | Some d => digits r (acc * 10 + d) (count + 1)
      | None => (acc, count, s)
      end
  | EmptyString => (acc, count, s)
  end.

(** An array index: the canonical decimal text of an integer from 0 to
    [2 ^ 32 - 2]. *)
Definition array_index (k : string) : option Z :=
  match k with
  | EmptyString => None
  | String c _ =>
      match digits k 0 0 with
      | (v, n, EmptyString) =>
          if Ascii.eqb c "0" && negb (n =? 1) then None
          else if v <=? 2 ^ 32 - 2 then Some v
          else None
      | (_, _, String _ _) => None
      end
  end.

(** Whether the new key [k] comes before the key [k'] among the own
    property keys of an object: the array indices come first, in ascending
    order, and the other keys follow in the order of their creation. *)
Definition precedes (k k' : string) : bool :=
  match array_index k, array_index k' with
  | Some i, Some j => i <? j
  | Some _, None => true
  | None, _ => false
  end.

Fixpoint obj_replace (k : string) (v : JValue) (props : list (string * JValue))
  : list (string * JValue) :=
  match props with
  | [] => []
  | (k', v') :: rest =>
      if String.eqb k k' then (k, v) :: rest else (k', v') :: obj_replace k v rest
  end.

Fixpoint obj_insert (k : string) (v : JValue) (props : list (string * JValue))
  : list (string * JValue) :=
  match props with
  | [] => [(k, v)]
  | (k', v') :: rest =>
      if precedes k k' then (k, v) :: props else (k', v') :: obj_insert k v rest
  end.

(** [o[k] = v] on an own-property list: an existing key keeps its place,
    and a new one takes its place among the own property keys. *)
Definition obj_set (k : string) (v : JValue) (props : list (string * JValue))
  : list (string * JValue) :=
  match lookup k props with
  | Some _ => obj_replace k v props
  | None => obj_insert k v props
  end.

(** The text of a string literal after its opening quote; [acc] holds the
    bytes read so far, last first. *)
Fixpoint parse_string (s : string) (acc : list ascii) : option (string * string) :=
  match s with
  | EmptyString => None
  | String c r =>
      if Nat.eqb (byte c) 34 then Some (string_of_list_ascii (rev acc), r)
      else if Nat.eqb (byte c) 92 then
        match r with
        | String e r1 =>
            if Nat.eqb (byte e) 34 || Nat.eqb (byte e) 92 || Ascii.eqb e "/"
            then parse_string r1 (e :: acc)
            else if Ascii.eqb e "b" then parse_string r1 (chr 8 :: acc)
            else if Ascii.eqb e "f" then parse_string r1 (chr 12 :: acc)
            else if Ascii.eqb e "n" then parse_string r1 (chr 10 :: acc)
            else if Ascii.eqb e "r" then parse_string r1 (chr 13 :: acc)
            else if Ascii.eqb e "t" then parse_string r1 (chr 9 :: acc)
            else if Ascii.eqb e "u" then
              match r1 with
              | String h1 (String h2 (String h3 (String h4 r2))) =>
                  match hex4 h1 h2 h3 h4 with
                  | Some hi =>
                      let alone := parse_string r2 (rev (utf8_encode hi) ++ acc) in
                      if (55296 <=? hi) && (hi <=? 56319) then
                        match r2 with
                        | String b1 (String u1
                            (String l1 (String l2 (String l3 (String l4 r3))))) =>
                            if Nat.eqb (byte b1) 92 && Ascii.eqb u1 "u" then
                              match hex4 l1 l2 l3 l4 with
                              | Some lo =>
                                  if (56320 <=? lo) && (lo <=? 57343) then
                                    parse_string r3
                                      (rev (utf8_encode
                                              (65536 + (hi - 55296) * 1024 + (lo - 56320)))
                                       ++ acc)
                                  else alone
                              | None => alone
                              end
                            else alone
                        | _ => alone
                        end
                      else alone
                  | None => None
                  end
              | _ => None
              end
            else None
        | EmptyString => None
        end
      else if Nat.ltb (byte c) 32 then None
      else parse_string r (c :: acc)
  end.

(** A number literal: [-]? int frac? exp?, read as mantissa and decimal
    exponent. *)
Definition parse_number (s : string) : option (JValue * string) :=
  let '(sign, s1) :=
    match s with
    | String c r => if Ascii.eqb c "-" then (-1, r) else (1, s)
    | EmptyString => (1, s)
    end in
  let int :=
    match s1 with
    | String c r =>
        if Ascii.eqb c "0" then Some (0, r)
        else match digit c with
             | Some _ => let '(v, _, r') := digits s1 0 0 in Some (v, r')
             | None => None
             end
    | EmptyString => None
    end in
  match int with
  | None => None
  | Some (ipart, s2) =>
      let frac :=
        match s2 with
        | String c r =>
            if Ascii.eqb c "." then
              let '(v, n, r') := digits r ipart 0 in
              if n =? 0 then None else Some (v, n, r')
            else Some (ipart, 0, s2)
        | EmptyString => Some (ipart, 0, s2)
        end in
      match frac with
      | None => None
      | Some (m, fl, s3) =>
          let exp :=
            match s3 with
            | String c r =>
                if Ascii.eqb c "e" || Ascii.eqb c "E" then
                  let '(esign, r1) :=
                    match r with
                    | String d r' =>
                        if Ascii.eqb d "-" then (-1, r')
                        else if Ascii.eqb d "+" then (1, r')
                        else (1, r)
                    | EmptyString => (1, r)
                    end in
                  let '(v, n, r2) := digits r1 0 0 in
                  if n =? 0 then None else Some (esign * v, r2)
                else Some (0, s3)
            | EmptyString => Some (0, s3)
            end in
          match exp with
          | None => None
          | Some (e, s4) => Some (number (sign * m) (e - fl), s4)
          end
      end
  end.

Fixpoint literal (lit s : string) : option string :=
  match lit, s with
  | EmptyString, _ => Some s
  | String a lit', String b s' => if Ascii.eqb a b then literal lit' s' else None
  | String _ _, EmptyString => None
  end.

Fixpoint parse_value (fuel : nat) (s : string) : option (JValue * string) :=
  match fuel with
  | O => None
  | S fuel' =>
      match skip_ws s with
      | EmptyString => None
      | String c r =>
          if Ascii.eqb c "{" then
            match skip_ws r with
            | String c2 r2 =>
                if Ascii.eqb c2 "}" then Some (JObject [], r2)
                else parse_members fuel' r []
            | EmptyString => None
            end
          else if Ascii.eqb c "[" then
            match skip_ws r with
            | String c2 r2 =>
                if Ascii.eqb c2 "]" then Some (JArray [], r2)
                else parse_elements fuel' r []
            | EmptyString => None
            end
          else if Nat.eqb (byte c) 34 then
            match parse_string r [] with
            | Some (str, r') => Some (JString str, r')
            | None => None
            end
          else if Ascii.eqb c "t" then
            option_map (fun r' => (JBool true, r')) (literal "rue" r)
          else if Ascii.eqb c "f" then
            option_map (fun r' => (JBool false, r')) (literal "alse" r)
          else if Ascii.eqb c "n" then
            option_map (fun r' => (JNull, r')) (literal "ull" r)
          else parse_number (String c r)
      end
  end
with parse_elements (fuel : nat) (s : string) (acc : list JValue)
  : option (JValue * string) :=
  match fuel with
  | O => None
  | S fuel' =>
      match parse_value fuel' s with
      | None => None
      | Some (v, r) =>
          match skip_ws r with
          | String c r' =>
              if Ascii.eqb c "," then parse_elements fuel' r' (v :: acc)
              else if Ascii.eqb c "]" then Some (JArray (rev (v :: acc)), r')
              else None
          | EmptyString => None
          end
      end
  end
with parse_members (fuel : nat) (s : string) (acc : list (string * JValue))
  : option (JValue * string) :=
  match fuel with
  | O => None
  | S fuel' =>
      match skip_ws s with
      | String q r =>
          if Nat.eqb (byte q) 34 then
            match parse_string r [] with
            | Some (k, r1) =>
                match skip_ws r1 with
                | String colon r2 =>
                    if Ascii.eqb colon ":" then
                      match parse_value fuel' r2 with
                      | Some (v, r3) =>
                          match skip_ws r3 with
                          | String c r4 =>
                              if Ascii.eqb c "," then parse_members fuel' r4 (obj_set k v acc)
                              else if Ascii.eqb c "}" then Some (JObject (obj_set k v acc), r4)
                              else None
                          | EmptyString => None
                          end
                      | None => None
                      end
                    else None
                | EmptyString => None
                end
            | None => None
            end
          else None
      | EmptyString => None
      end
  end.

(** [JSON.parse(text)], [None] for a SyntaxError. *)
Definition JSON_parse (text : string) : option JValue :=
  match parse_value (2 * String.length text + 2) text with
  | Some (v, rest) =>
      match skip_ws rest with
      | EmptyString => Some v
      | String _ _ => None
      end
  | None => None
  end.

End Js.

(* ================================================================== *)
(** * services/permission.service *)
(* ================================================================== *)

Module Permission.
Import Js.

(** PermissionConfig of types/index: every field is optional. *)
Record PermissionConfig : Type := {
  allowedTools : option string;
  noIndexing : option bool;
  addDirs : option (list string)
}.

(** [mode] is the string of the request (the switch has a default arm);
    [workspace] is absent ([None]) or a string, tested for truthiness. *)
Definition buildAllowedToolsArg (mode : string) (workspace : option string) : string :=
  if String.eqb mode "pure" then dq ++ dq
  else if String.eqb mode "simple" then "WebSearch,WebFetch"
  else if String.eqb mode "readonly" then "Read,LS,Glob,Grep"
  else if String.eqb mode "projectwrite" then
    match workspace with
    | Some w =>
        if nonempty w
        then dq ++ "Edit(" ++ w ++ "/**" ++ ")" ++ dq ++ "," ++ dq ++ "Read" ++ dq
        else "Read,Write,Edit,LS,Glob,Grep"
    | None => "Read,Write,Edit,LS,Glob,Grep"
    end
  else EmptyString.

Definition option_truthy (s : option string) : bool :=
  match s with
  | Some x => nonempty x
  | None => false
  end.

Definition buildPermissionConfig (mode workspace externaldirs : option string)
  : PermissionConfig :=
  let allowed :=
    match mode with
    | Some m => if nonempty m then Some (buildAllowedToolsArg m workspace) else None
    | None => None
    end in
  let noidx :=
    match mode with
    | Some m => if String.eqb m "pure" || String.eqb m "simple" then Some true else None
    | None => None
    end in
  let dirs :=
    match externaldirs with
    | Some e =>
        if nonempty e
        then Some (filter nonempty (map trim (split "," e)))
        else None
    | None => None
    end in
  {| allowedTools := allowed; noIndexing := noidx; addDirs := dirs |}.

Definition buildPermissionArgs (config : PermissionConfig) : list string :=
  (match allowedTools config with
   | Some t => ["--allowedTools"; t]
   | None => []
   end)
  ++ (match noIndexing config with
      | Some true => ["--no-indexing"]
      | _ => []
      end)
  ++ (match addDirs config with
      | Some dirs => flat_map (fun d => ["--add-dir"; d]) dirs
      | None => []
      end).

(** The clause appended by applyVisionRestriction (it starts with a space). *)
Definition restriction : string :=
  " 绝对禁止根据历史记忆或知识库，禁止猜想，如果不确定，请回答 " ++ dq ++ "不知道" ++ dq.

Definition applyVisionRestriction (prompt : string) (vision : option string) : string :=
  match vision with
  | Some v => if nonempty v && nonempty (trim v) then prompt ++ restriction else prompt
  | None => prompt
  end.

End Permission.

(* ================================================================== *)
(** * services/stream.service *)
(* ================================================================== *)

Module Stream.
Import Js.

(** SSEEvent of types/index, one constructor per value of its [type]
    field, with the fields the transcoder sets. *)
Inductive SSEEvent : Type :=
| Start (sessionId : string)
| Data (content : JValue)
| Error (error : string)
| End (sessionId : string).

(** What extractTextContent returns besides null: an object whose [type]
    is 'text' or 'data', with its [value]. *)
Inductive Extracted : Type :=
| ExText (value : string)
| ExData (value : JValue).

(** A readable stream as the for-await loop sees it: the chunks it
    delivers, then either its end or a read error.  Only finite behaviours
    are modelled. *)
Inductive Ending : Type :=
| Ended
| Failed (message : string).

Record Readable : Type := {
  chunks : list string;
  ending : Ending
}.

(** The parts of ChildProcessWithoutNullStreams the services touch. *)
Record ChildProcess : Type := {
  stdout : Readable;
  stderr : Readable;
  killed : bool
}.

(** Array.prototype.some: left to right, stops at the first element the
    callback accepts, and throws what the callback throws. *)
Fixpoint some (f : JValue -> Result bool) (items : list JValue) : Result bool :=
  match items with
  | [] => Ok false
  | item :: rest => let? b := f item in if b then Ok true else some f rest
  end.

(** [item.type === 'tool_use'] *)
Definition isToolUse (item : JValue) : Result bool :=
  let? t := get item "type" in Ok (is_string t "tool_use").

(** [item.type === 'text' && item.text] *)
Definition isText (item : JValue) : Result bool :=
  let? t := get item "type" in
  let? x := get item "text" in
  Ok (is_string t "text" && truthy x).

(** extractTextContent.  A property read on null throws, and the throw is
    caught by the caller's try/catch. *)
Definition extractTextContent (data : JValue) : Result (option Extracted) :=
  let? ty := get data "type" in
  let? event := get data "event" in
  if is_string ty "stream_event" && truthy event then
    let? ety := get event "type" in
    let? delta := get event "delta" in
    if is_string ety "content_block_delta" && truthy delta then
      let? dty := get delta "type" in
      let? dtext := get delta "text" in
      match dtext with
      | JString text =>
          if is_string dty "text_delta" then Ok (Some (ExText text))
          else Ok (Some (ExData data))
      | _ => Ok (Some (ExData data))
      end
    else Ok (Some (ExData data))
  else
    let? message := get data "message" in
    if is_string ty "assistant" && truthy message then
      let? content := get message "content" in
      match content with
      | JArray items =>
          let? hasToolUse := some isToolUse items in
          let? hasText := some isText items in
          if negb hasToolUse && hasText then Ok None
          else Ok (Some (ExData data))
      | _ => Ok (Some (ExData data))
      end
    else if is_string ty "result" then
      match data with
      | JObject props => Ok (Some (ExData (JObject (obj_delete "result" props))))
      | _ => Ok (Some (ExData data))
      end
    else Ok (Some (ExData data)).

Section Transcoder.

(** JSON.parse is the platform's: the transcoder is defined, and its
    general properties proved, for any function from texts to parsed values
    ([None] when it throws).  [Js.JSON_parse] is the instance the concrete
    inputs are evaluated with. *)
Variable JSON_parse : string -> option JValue.

(** parseLine: null (skip), a string, or a parsed value. *)
Definition parseLine (line : string) : JValue :=
  let trimmedLine := trim line in
  if negb (nonempty trimmedLine) then JNull
  else
    match JSON_parse trimmedLine with
    | None => JString trimmedLine
    | Some data =>
        match extractTextContent data with
        | Throw _ => JString trimmedLine
        | Ok None => JNull
        | Ok (Some (ExText value)) => JString value
        | Ok (Some (ExData value)) => value
        end
    end.

(** ** The async generator streamClaudeOutput

    A generator object is its closure (session id) and the point at which
    its body is suspended.  Every [yield toSSEFormat(ev)] is modelled as
    yielding [ev]; the framing is applied afterwards by [frames]. *)
Inductive Point : Type :=
| Fresh (source : Readable)            (* created, body not entered *)
| AtStart (source : Readable)          (* at the yield of start, before the try *)
| InLoop (lines : list string) (rest : Readable)
                                       (* at a yield of data: the lines left
                                          of the current chunk, the stream left *)
| AtError                              (* at the yield inside catch *)
| AtEnd                                (* at the yield inside finally *)
| Done.

Record Generator : Type := {
  sessionId : string;
  point : Point
}.

Definition streamClaudeOutput (child : ChildProcess) (sessionId : string) : Generator :=
  {| sessionId := sessionId; point := Fresh (stdout child) |}.

(** The inner [for (const line of lines)] up to its next yield: the
    content yielded and the lines left, or [None] when the lines run out. *)
Fixpoint next_line (lines : list string) : option (JValue * list string) :=
  match lines with
  | [] => None
  | line :: rest =>
      match parseLine line with
      | JNull => next_line rest
      | data => Some (data, rest)
      end
  end.

(** The outer [for await (const chunk of child.stdout)] up to the next
    yield: a data event, or, when the stream is over, the event of the
    catch block (read error) or of the finally block (normal end). *)
Fixpoint next_chunk (sid : string) (cs : list string) (e : Ending) : SSEEvent * Point :=
  match cs with
  | [] =>
      match e with
      | Ended => (End sid, AtEnd)
      | Failed message => (Error message, AtError)
      end
  | chunk :: cs' =>
      match next_line (split "010" chunk) with
      | Some (data, rest) => (Data data, InLoop rest {| chunks := cs'; ending := e |})
      | None => next_chunk sid cs' e
      end
  end.

Definition resume_loop (sid : string) (lines : list string) (rest : Readable)
  : SSEEvent * Point :=
  match next_line lines with
  | Some (data, lines') => (Data data, InLoop lines' rest)
  | None => next_chunk sid (chunks rest) (ending rest)
  end.

Definition yielding (g : Generator) (r : SSEEvent * Point) : option SSEEvent * Generator :=
  (Some (fst r), {| sessionId := sessionId g; point := snd r |}).

Definition exhausted (g : Generator) : option SSEEvent * Generator :=
  (None, {| sessionId := sessionId g; point := Done |}).

(** [gen.next()]: the value of the IteratorResult ([None] when done) and
    the generator afterwards. *)
Definition next (g : Generator) : option SSEEvent * Generator :=
  match point g with
  | Fresh source => yielding g (Start (sessionId g), AtStart source)
  | AtStart source => yielding g (resume_loop (sessionId g) [] source)
  | InLoop lines rest => yielding g (resume_loop (sessionId g) lines rest)
  | AtError => yielding g (End (sessionId g), AtEnd)
  | AtEnd => exhausted g
  | Done => exhausted g
  end.

(** [gen.return()], which a for-await loop calls when its body breaks or
    throws: the generator resumes with a return completion at its
    suspension point, so only the finally blocks enclosing that point run.
    The first yield is outside the try statement; the yields of data and of
    the error event are inside it, and the finally block yields the end
    event. *)
Definition return_ (g : Generator) : option SSEEvent * Generator :=
  match point g with
  | Fresh _ => exhausted g
  | AtStart _ => exhausted g
  | InLoop _ _ => yielding g (End (sessionId g), AtEnd)
  | AtError => yielding g (End (sessionId g), AtEnd)
  | AtEnd => exhausted g
  | Done => exhausted g
  end.

(** At most [n] calls of next(), stopping when the generator is done. *)
Fixpoint pull (n : nat) (g : Generator) : list SSEEvent * Generator :=
  match n with
  | O => ([], g)
  | S n' =>
      match next g with
      | (Some ev, g') => let (evs, g'') := pull n' g' in (ev :: evs, g'')
      | (None, g') => ([], g')
      end
  end.

(** All the pieces the chunks of a stream are split into. *)
Definition lines_of (r : Readable) : list string :=
  flat_map (split "010") (chunks r).

(** A number of next() calls that exhausts the generator: one per piece
    of every chunk, and one each for start, error, end and the final done. *)
Definition calls_bound (p : Point) : nat :=
  match p with
  | Fresh source => 4 + length (lines_of source)
  | AtStart source => 3 + length (lines_of source)
  | InLoop lines rest => 3 + length lines + length (lines_of rest)
  | AtError => 2
  | AtEnd => 1
  | Done => 0
  end.

(** Everything the generator yields to a consumer that never stops early. *)
Definition drain (g : Generator) : list SSEEvent :=
  fst (pull (calls_bound (point g)) g).

(** What the generator yields to a consumer whose loop body breaks on
    receiving its [k]-th event: the [k] events pulled and, if the generator
    was not done by then, what the return() call of the loop exit makes it
    yield (a value the for-await loop itself discards). *)
Definition stopped_after (k : nat) (g : Generator) : list SSEEvent :=
  let (evs, g') := pull k g in
  if Nat.ltb (length evs) k then evs
  else match fst (return_ g') with
       | Some ev => evs ++ [ev]
       | None => evs
       end.

(** ** The emitted sequence in closed form *)

(** The contents the transcoder emits for a list of lines. *)
Definition contents (lines : list string) : list JValue :=
  filter (fun d => match d with JNull => false | _ => true end) (map parseLine lines).

Definition closing (sid : string) (e : Ending) : list SSEEvent :=
  match e with
  | Ended => [End sid]
  | Failed message => [Error message; End sid]
  end.

(** What is still to be yielded from a suspension point. *)
Definition remaining (sid : string) (p : Point) : list SSEEvent :=
  match p with
  | Fresh source =>
      Start sid :: map Data (contents (lines_of source)) ++ closing sid (ending source)
  | AtStart source =>
      map Data (contents (lines_of source)) ++ closing sid (ending source)
  | InLoop lines rest =>
      map Data (contents lines ++ contents (lines_of rest)) ++ closing sid (ending rest)
  | AtError => [End sid]
  | AtEnd => []
  | Done => []
  end.

(** toSSEFormat, over the platform's JSON.stringify. *)
Variable JSON_stringify : SSEEvent -> string.

Definition toSSEFormat (event : SSEEvent) : string :=
  ("data: " ++ JSON_stringify event ++ String "010" (String "010" EmptyString))%string.

Definition frames (events : list SSEEvent) : list string := map toSSEFormat events.

End Transcoder.

(** ** Vocabulary of the properties of the transcoder *)

(** The content blocks of a parsed line that is an assistant message: an
    object whose [type] is 'assistant' and whose [message] is an object
    with an array as [content]. *)
Definition assistantBlocks (data : JValue) : option (list JValue) :=
  match data with
  | JObject props =>
      match lookup "type" props, lookup "message" props with
      | Some ty, Some (JObject mprops) =>
          if is_string ty "assistant" then
            match lookup "content" mprops with
            | Some (JArray items) => Some items
            | _ => None
            end
          else None
      | _, _ => None
      end
  | _ => None
  end.

(** A plain-text block: an object whose [type] is 'text'. *)
Definition isTextBlock (item : JValue) : bool :=
  match item with
  | JObject props =>
      match lookup "type" props with
      | Some ty => is_string ty "text"
      | None => false
      end
  | _ => false
  end.

(** A plain-text block that carries text (its [text] is truthy: for a
    string, not empty). *)
Definition carriesText (item : JValue) : bool :=
  match item with
  | JObject props =>
      isTextBlock item
      && match lookup "text" props with
         | Some x => truthy x
         | None => false
         end
  | _ => false
  end.

(** What may follow the data events already yielded when the generator is
    at the point [p] inside or after its try statement: nothing yet, the
    error event, or the closing events. *)
Definition tail_at (sid : string) (p : Point) (tail : list SSEEvent) : Prop :=
  match p with
  | InLoop _ _ => tail = []
  | AtError => exists message, tail = [Error message]
  | AtEnd | Done => tail = [End sid] \/ exists message, tail = [Error message; End sid]
  | Fresh _ | AtStart _ => False
  end.

(** A well-formed stream of one request: start, data events, then end,
    or the error event immediately followed by end. *)
Definition well_ordered (sid : string) (events : list SSEEvent) : Prop :=
  exists (contents : list JValue) (tail : list SSEEvent),
    events = Start sid :: map Data contents ++ tail
    /\ (tail = [End sid] \/ exists message, tail = [Error message; End sid]).

End Stream.

(* ================================================================== *)
(** * services/concurrent.service *)
(* ================================================================== *)

Module Limiter.

Section Limiter.

(** [Job] stands for the closures passed to run() as [execute], [T] for
    the type their promises resolve with. *)
Variables Job T : Type.

(** The errors a promise returned by run() is rejected with. *)
Inductive Failure : Type :=
| TimeoutError (timeout : Z)      (* Error of the timer callback; its message
                                     carries timeout / 1000 *)
| ShutdownError                   (* Error of clear() *)
| JobError (message : string).    (* whatever the job body threw *)

Inductive Outcome : Type :=
| Fulfilled (value : T)
| Rejected (reason : Failure).

(** How a job body finishes. *)
Inductive Completion : Type :=
| Returned (value : T)
| Threw (message : string).

Definition outcome_of (c : Completion) : Outcome :=
  match c with
  | Returned v => Fulfilled v
  | Threw m => Rejected (JobError m)
  end.

(** A timer made by setTimeout in enqueue: its callback closes over the
    resolve and reject functions of the promise it belongs to and over the
    timeout value. *)
Record Timer : Type := {
  owner : nat;
  delay : Z
}.

(** QueuedTask.  [resolve] is the identity of the promise whose resolve
    and reject functions the task holds (findIndex compares tasks by it). *)
Record QueuedTask : Type := {
  execute : Job;
  resolve : nat;
  timeout : Timer;
  timestamp : Z
}.

Record ConcurrencyStatus : Type := {
  status_active : Z;
  status_max : Z;
  status_available : Z;
  status_queued : Z
}.

(** The fields of the ConcurrencyLimiter object; the counter, the
    capacity and the times in milliseconds are integers. *)
Record ConcurrencyLimiter : Type := {
  active : Z;
  maxConcurrent : Z;
  queue : list QueuedTask;
  defaultTimeout : Z
}.

(** The limiter together with what the event loop holds for it, and the
    history of job bodies started and finished. *)
Record World : Type := {
  limiter : ConcurrencyLimiter;
  timers : list Timer;                (* armed timers *)
  microtasks : list QueuedTask;       (* then-callbacks of promoted tasks
                                         that have not run yet, oldest first *)
  running : list nat;                 (* promises whose job body is executing *)
  finishing : list (nat * Completion);
                                      (* job bodies that have finished, with how,
                                         and whose awaiting code (the rest of the
                                         try statement and its finally block) has
                                         not resumed yet, oldest first *)
  settled : list (nat * Outcome);     (* promises resolved or rejected *)
  fresh : nat;                        (* identity of the next promise *)
  invoked : list (nat * Job);         (* every call of execute(), latest first *)
  completed : list nat                (* every job body that finished *)
}.

Definition constructor (maxConcurrent defaultTimeout : Z) : World :=
  {| limiter := {| active := 0; maxConcurrent := maxConcurrent;
                   queue := []; defaultTimeout := defaultTimeout |};
     timers := []; microtasks := []; running := []; finishing := [];
     settled := []; fresh := 0; invoked := []; completed := [] |}.

(** ** Promises and timers *)

Fixpoint promise_state (id : nat) (s : list (nat * Outcome)) : option Outcome :=
  match s with
  | [] => None
  | (id', o) :: rest => if Nat.eqb id id' then Some o else promise_state id rest
  end.

(** resolve(v) or reject(e): only the first settlement of a promise counts. *)
Definition settle (id : nat) (o : Outcome) (s : list (nat * Outcome))
  : list (nat * Outcome) :=
  match promise_state id s with
  | Some _ => s
  | None => (id, o) :: s
  end.

Definition clearTimeout (t : Timer) (ts : list Timer) : list Timer :=
  filter (fun x => negb (Nat.eqb (owner x) (owner t))) ts.

Fixpoint armed (id : nat) (ts : list Timer) : option Timer :=
  match ts with
  | [] => None
  | t :: rest => if Nat.eqb (owner t) id then Some t else armed id rest
  end.

(** [index = queue.findIndex(t => t.resolve === resolve)] followed by
    [queue.splice(index, 1)] when the index is not -1. *)
Fixpoint splice_found (id : nat) (q : list QueuedTask) : list QueuedTask :=
  match q with
  | [] => []
  | t :: rest => if Nat.eqb (resolve t) id then rest else t :: splice_found id rest
  end.

Fixpoint remove_one (id : nat) (l : list nat) : list nat :=
  match l with
  | [] => []
  | x :: rest => if Nat.eqb x id then rest else x :: remove_one id rest
  end.

Definition is_running (id : nat) (w : World) : bool :=
  existsb (Nat.eqb id) (running w).

(** ** The methods *)

Definition set_limiter (l : ConcurrencyLimiter) (w : World) : World :=
  {| limiter := l; timers := timers w; microtasks := microtasks w;
     running := running w; finishing := finishing w;
     settled := settled w; fresh := fresh w;
     invoked := invoked w; completed := completed w |}.

(** executeDirect up to its await: the counter is incremented and the job
    body starts. *)
Definition executeDirect (job : Job) (w : World) : World :=
  let l := limiter w in
  {| limiter := {| active := active l + 1; maxConcurrent := maxConcurrent l;
                   queue := queue l; defaultTimeout := defaultTimeout l |};
     timers := timers w; microtasks := microtasks w;
     running := fresh w :: running w; finishing := finishing w;
     settled := settled w;
     fresh := S (fresh w);
     invoked := (fresh w, job) :: invoked w; completed := completed w |}.

(** enqueue: a timer is armed and the task pushed at the tail. *)
Definition enqueue (job : Job) (timeout : Z) (now : Z) (w : World) : World :=
  let l := limiter w in
  let taskTimeout := {| owner := fresh w; delay := timeout |} in
  let queuedTask := {| execute := job; resolve := fresh w;
                       timeout := taskTimeout; timestamp := now |} in
  {| limiter := {| active := active l; maxConcurrent := maxConcurrent l;
                   queue := queue l ++ [queuedTask];
                   defaultTimeout := defaultTimeout l |};
     timers := timers w ++ [taskTimeout]; microtasks := microtasks w;
     running := running w; finishing := finishing w; settled := settled w;
     fresh := S (fresh w);
     invoked := invoked w; completed := completed w |}.

(** run(execute, timeout) at time [now]; the promise it returns is the one
    numbered [fresh w]. *)
Definition run (job : Job) (timeout : option Z) (now : Z) (w : World) : World :=
  let l := limiter w in
  if active l <? maxConcurrent l then executeDirect job w
  else enqueue job
         (match timeout with Some t => t | None => defaultTimeout l end) now w.

(** One turn of the while loop of processNext: the head is shifted, its
    timer cleared, the counter incremented and the callback that will call
    execute() handed to the microtask queue. *)
Definition promote (task : QueuedTask) (rest : list QueuedTask) (w : World) : World :=
  let l := limiter w in
  {| limiter := {| active := active l + 1; maxConcurrent := maxConcurrent l;
                   queue := rest; defaultTimeout := defaultTimeout l |};
     timers := clearTimeout (timeout task) (timers w);
     microtasks := microtasks w ++ [task];
     running := running w; finishing := finishing w;
     settled := settled w; fresh := fresh w;
     invoked := invoked w; completed := completed w |}.

(** The loop of processNext over the queue [q] of [w]. *)
Fixpoint processNext_loop (q : list QueuedTask) (w : World) : World :=
  match q with
  | [] => w
  | task :: rest =>
      if active (limiter w) <? maxConcurrent (limiter w)
      then processNext_loop rest (promote task rest w)
      else w
  end.

Definition processNext (w : World) : World :=
  processNext_loop (queue (limiter w)) w.

Definition getStatus (w : World) : ConcurrencyStatus :=
  let l := limiter w in
  {| status_active := active l;
     status_max := maxConcurrent l;
     status_available := Z.max 0 (maxConcurrent l - active l);
     status_queued := Z.of_nat (length (queue l)) |}.

(** getQueueInfo() at time [now]: timestamp and waitingMs of each task. *)
Definition getQueueInfo (now : Z) (w : World) : list (Z * Z) :=
  map (fun task => (timestamp task, now - timestamp task)) (queue (limiter w)).

Definition setMaxConcurrent (max : Z) (w : World) : World :=
  let l := limiter w in
  processNext
    (set_limiter {| active := active l; maxConcurrent := max;
                    queue := queue l; defaultTimeout := defaultTimeout l |} w).

Definition setDefaultTimeout (timeout : Z) (w : World) : World :=
  let l := limiter w in
  set_limiter {| active := active l; maxConcurrent := maxConcurrent l;
                 queue := queue l; defaultTimeout := timeout |} w.

(** The loop of clear(): each queued task has its timer cleared and its
    promise rejected. *)
Fixpoint clear_loop (q : list QueuedTask) (ts : list Timer) (s : list (nat * Outcome))
  : list Timer * list (nat * Outcome) :=
  match q with
  | [] => (ts, s)
  | task :: rest =>
      clear_loop rest (clearTimeout (timeout task) ts)
        (settle (resolve task) (Rejected ShutdownError) s)
  end.

Definition clear (w : World) : World :=
  let l := limiter w in
  let (ts, s) := clear_loop (queue l) (timers w) (settled w) in
  {| limiter := {| active := active l; maxConcurrent := maxConcurrent l;
                   queue := []; defaultTimeout := defaultTimeout l |};
     timers := ts; microtasks := microtasks w;
     running := running w; finishing := finishing w;
     settled := s; fresh := fresh w;
     invoked := invoked w; completed := completed w |}.

(** ** The callbacks the event loop runs *)

(** The callback of the timer [t]: the task of its promise is spliced out
    of the queue if it is there, and the promise rejected. *)
Definition timerCallback (t : Timer) (w : World) : World :=
  let l := limiter w in
  {| limiter := {| active := active l; maxConcurrent := maxConcurrent l;
                   queue := splice_found (owner t) (queue l);
                   defaultTimeout := defaultTimeout l |};
     timers := clearTimeout t (timers w); microtasks := microtasks w;
     running := running w; finishing := finishing w;
     settled := settle (owner t) (Rejected (TimeoutError (delay t))) (settled w);
     fresh := fresh w;
     invoked := invoked w; completed := completed w |}.

(** The then-callback of a promoted task up to its await: execute() is
    called and the job body starts. *)
Definition startPromoted (task : QueuedTask) (rest : list QueuedTask) (w : World) : World :=
  {| limiter := limiter w; timers := timers w; microtasks := rest;
     running := resolve task :: running w; finishing := finishing w;
     settled := settled w;
     fresh := fresh w;
     invoked := (resolve task, execute task) :: invoked w;
     completed := completed w |}.

(** The job body of promise [id] finishes: the promise that execute()
    returned settles.  Nothing of the limiter changes yet: the code that
    awaits that promise ([return await execute()] in executeDirect,
    [await task.execute()] in the callback of processNext) resumes in a later
    microtask. *)
Definition bodyEnded (id : nat) (c : Completion) (w : World) : World :=
  {| limiter := limiter w; timers := timers w; microtasks := microtasks w;
     running := remove_one id (running w);
     finishing := finishing w ++ [(id, c)];
     settled := settled w; fresh := fresh w;
     invoked := invoked w; completed := id :: completed w |}.

(** How the job body of promise [id] finished, when its awaiting code has
    not resumed yet. *)
Fixpoint awaited (id : nat) (l : list (nat * Completion)) : option Completion :=
  match l with
  | [] => None
  | (id', c) :: rest => if Nat.eqb id' id then Some c else awaited id rest
  end.

Fixpoint resumed (id : nat) (l : list (nat * Completion)) : list (nat * Completion) :=
  match l with
  | [] => []
  | (id', c) :: rest => if Nat.eqb id' id then rest else (id', c) :: resumed id rest
  end.

(** The code that awaited the job body of promise [id] resumes, in one
    microtask: the promise is settled with the outcome of the job (by the
    async function for a direct job, by task.resolve or task.reject for a
    promoted one) and the finally block decrements the counter and calls
    processNext. *)
Definition afterAwait (id : nat) (c : Completion) (w : World) : World :=
  let l := limiter w in
  processNext
    {| limiter := {| active := active l - 1; maxConcurrent := maxConcurrent l;
                     queue := queue l; defaultTimeout := defaultTimeout l |};
       timers := timers w; microtasks := microtasks w;
       running := running w;
       finishing := resumed id (finishing w);
       settled := settle id (outcome_of c) (settled w);
       fresh := fresh w;
       invoked := invoked w; completed := completed w |}.

(** ** The limiter under the event loop *)

Inductive Event : Type :=
| Run (job : Job) (timeout : option Z) (now : Z)   (* a caller calls run() *)
| Microtask                                        (* the oldest pending then-callback runs *)
| BodyEnds (id : nat) (c : Completion)             (* a running job body ends *)
| Resumes (id : nat)                               (* the code awaiting an ended
                                                      body resumes *)
| TimerFires (id : nat)                            (* an armed timer expires *)
| SetMaxConcurrent (max : Z)
| SetDefaultTimeout (timeout : Z)
| Clear.

(** [None] when the event cannot happen in [w]: no pending callback, a job
    that is not running, no ended body awaited, a timer that is not armed. *)
Definition step (w : World) (e : Event) : option World :=
  match e with
  | Run job timeout now => Some (run job timeout now w)
  | Microtask =>
      match microtasks w with
      | [] => None
      | task :: rest => Some (startPromoted task rest w)
      end
  | BodyEnds id c => if is_running id w then Some (bodyEnded id c w) else None
  | Resumes id =>
      match awaited id (finishing w) with
      | Some c => Some (afterAwait id c w)
      | None => None
      end
  | TimerFires id =>
      match armed id (timers w) with
      | Some t => Some (timerCallback t w)
      | None => None
      end
  | SetMaxConcurrent max => Some (setMaxConcurrent max w)
  | SetDefaultTimeout timeout => Some (setDefaultTimeout timeout w)
  | Clear => Some (clear w)
  end.

Fixpoint exec (w : World) (es : list Event) : option World :=
  match es with
  | [] => Some w
  | e :: rest =>
      match step w e with
      | Some w' => exec w' rest
      | None => None
      end
  end.

(** ** Vocabulary of the properties of the limiter *)

(** Number of job bodies started, finished, and of promoted tasks whose
    body is scheduled but has not started. *)
Definition started (w : World) : Z := Z.of_nat (length (invoked w)).
Definition finished (w : World) : Z := Z.of_nat (length (completed w)).
Definition scheduled (w : World) : Z := Z.of_nat (length (microtasks w)).

(** Number of job bodies that have finished and whose finally block has
    not run yet. *)
Definition unreleased (w : World) : Z := Z.of_nat (length (finishing w)).

(** The largest capacity configured up to the end of a run. *)
Fixpoint peak (max : Z) (es : list Event) : Z :=
  match es with
  | [] => max
  | SetMaxConcurrent m :: rest => Z.max max (peak m rest)
  | _ :: rest => peak max rest
  end.

(** No setMaxConcurrent of the run lowers the capacity. *)
Fixpoint never_lowered (max : Z) (es : list Event) : bool :=
  match es with
  | [] => true
  | SetMaxConcurrent m :: rest => (max <=? m) && never_lowered m rest
  | _ :: rest => never_lowered max rest
  end.

Definition was_invoked (id : nat) (w : World) : Prop :=
  In id (map fst (invoked w)).

Definition is_queued (id : nat) (w : World) : Prop :=
  In id (map resolve (queue (limiter w))).

(** ** Invariants of the limiter under the event loop *)

(** The counter accounts for the running bodies, for the ended bodies
    whose finally block has not run and for the promoted tasks whose body
    has not started; the history accounts for the running bodies. *)
Definition balanced (w : World) : Prop :=
  active (limiter w)
  = Z.of_nat (length (running w)) + Z.of_nat (length (finishing w))
    + Z.of_nat (length (microtasks w))
  /\ length (invoked w) = (length (completed w) + length (running w))%nat
  /\ (length (finishing w) <= length (completed w))%nat.

(** A promise that left the queue without being promoted: it is in no
    queue and its job was never called. *)
Definition gone (id : nat) (w : World) : Prop :=
  (id < fresh w)%nat
  /\ ~ is_queued id w
  /\ ~ In id (map resolve (microtasks w))
  /\ ~ was_invoked id w.

(** The capacity after the event [e]. *)
Definition capacity_after (w : World) (e : Event) : Z :=
  match e with
  | SetMaxConcurrent m => m
  | _ => maxConcurrent (limiter w)
  end.

(** Every task of [q] holds the timer of its own promise. *)
Definition owners_match (q : list QueuedTask) : Prop :=
  forall task, In task q -> owner (timeout task) = resolve task.

(** The event loop and the limiter agree: the armed timers are those of
    the queued tasks, every queued promise is pending and its job not yet
    called, and promise identities are handed out in increasing order. *)
Record well_formed (w : World) : Prop := {
  wf_timers : timers w = map timeout (queue (limiter w));
  wf_owner : forall task,
      In task (queue (limiter w)) -> owner (timeout task) = resolve task;
  wf_nodup : NoDup (map resolve (queue (limiter w)));
  wf_queued : forall id,
      is_queued id w ->
      (id < fresh w)%nat
      /\ promise_state id (settled w) = None
      /\ ~ In id (map resolve (microtasks w))
      /\ ~ was_invoked id w;
  wf_fresh : forall id,
      promise_state id (settled w) <> None
      \/ In id (map resolve (microtasks w))
      \/ was_invoked id w ->
      (id < fresh w)%nat;
  wf_running : forall id, In id (running w) -> was_invoked id w;
  wf_finishing : forall id, In id (map fst (finishing w)) -> was_invoked id w
}.

(** A promise rejected by its timer is gone. *)
Definition exclusive (w : World) : Prop :=
  forall id t,
    promise_state id (settled w) = Some (Rejected (TimeoutError t)) ->
    gone id w.

End Limiter.

Arguments outcome_of {T}.
Arguments Rejected {T}.
Arguments promise_state {T}.
Arguments settle {T}.
Arguments Fulfilled {T}.
Arguments Returned {T}.
Arguments Threw {T}.
Arguments splice_found {Job}.
Arguments execute {Job}.
Arguments resolve {Job}.
Arguments timeout {Job}.
Arguments timestamp {Job}.
Arguments active {Job}.
Arguments maxConcurrent {Job}.
Arguments queue {Job}.
Arguments defaultTimeout {Job}.
Arguments is_running {Job T}.
Arguments set_limiter {Job T}.
Arguments executeDirect {Job T}.
Arguments enqueue {Job T}.
Arguments run {Job T}.
Arguments promote {Job T}.
Arguments processNext_loop {Job T}.
Arguments processNext {Job T}.
Arguments getStatus {Job T}.
Arguments getQueueInfo {Job T}.
Arguments setMaxConcurrent {Job T}.
Arguments setDefaultTimeout {Job T}.
Arguments clear_loop {Job T}.
Arguments clear {Job T}.
Arguments timerCallback {Job T}.
Arguments startPromoted {Job T}.
Arguments bodyEnded {Job T}.
Arguments awaited {T}.
Arguments resumed {T}.
Arguments afterAwait {Job T}.
Arguments unreleased {Job T}.
Arguments step {Job T}.
Arguments exec {Job T}.
Arguments started {Job T}.
Arguments finished {Job T}.
Arguments scheduled {Job T}.
Arguments peak {Job T}.
Arguments balanced {Job T}.
Arguments capacity_after {Job T}.
Arguments owners_match {Job}.
Arguments gone {Job T}.
Arguments well_formed {Job T}.
Arguments exclusive {Job T}.
Arguments never_lowered {Job T}.
Arguments was_invoked {Job T}.
Arguments is_queued {Job T}.
Arguments limiter {Job T}.
Arguments timers {Job T}.
Arguments microtasks {Job T}.
Arguments running {Job T}.
Arguments finishing {Job T}.
Arguments settled {Job T}.
Arguments fresh {Job T}.
Arguments invoked {Job T}.
Arguments completed {Job T}.
Arguments Run {Job T}.
Arguments Microtask {Job T}.
Arguments BodyEnds {Job T}.
Arguments Resumes {Job T}.
Arguments TimerFires {Job T}.
Arguments SetMaxConcurrent {Job T}.
Arguments SetDefaultTimeout {Job T}.
Arguments Clear {Job T}.

End Limiter.

(* ================================================================== *)
(** * services/claude.service and routes/chat *)
(* ================================================================== *)

Module Chat.
Import Js Permission Stream.

(** ClaudePrompt of types/index: the request body once the route schema
    has accepted it (a string prompt, the other fields strings or absent). *)
Record ClaudePrompt : Type := {
  prompt : string;
  sessionId : option string;
  workspace : option string;
  externaldirs : option string;
  allowedmode : option string;
  vision : option string
}.

(** The issues chatRequestSchema.safeParse can report on such a body. *)
Inductive Issue : Type :=
| PromptEmpty                       (* min(1): 'prompt 不能为空' *)
| InvalidMode (received : string).  (* allowedmode outside the enum *)

Inductive ReplyBody : Type :=
| ValidationFailed (details : list Issue)  (* error: '请求参数验证失败' *)
| InternalError (message : string).        (* error: '服务器内部错误' *)

(** What the handler and the launcher do to the outside world. *)
Inductive Effect : Type :=
| Send (code : Z) (body : ReplyBody)        (* reply.code(code).send(body) *)
| Log (message : string)                    (* console.log *)
| LogError (message : string)               (* console.error, request.log.error *)
| Spawn (command : string) (args : list string) (cwd : string)
| StdinWrite (data : string)                (* child.stdin.write(data) *)
| StdinEnd                                  (* child.stdin.end() *)
| Kill (signal : option string)             (* child.kill(signal) *)
| SetHeader (name value : string)           (* res.setHeader(name, value) *)
| Write (frame : SSEEvent)                  (* reply.raw.write(toSSEFormat(frame)) *)
| EndResponse.                              (* reply.raw.end() *)

(** What one request finds outside the handler. *)
Record Environment : Type := {
  workingDir : string;                (* getWorkingDir() *)
  mcpConfigPath : option string;      (* getMcpConfigPath() *)
  spawnError : option string;         (* message of the 'error' event of the
                                         child, emitted when the process
                                         could not be spawned *)
  errorEventAfter : nat;              (* the event loop delivers that event
                                         after this many of the effects that
                                         follow the setting of the headers *)
  stdinError : option string;         (* message of what child.stdin.write
                                         throws, when it throws *)
  childStdout : Readable;
  childStderr : Readable;
  headersAlreadySent : bool;          (* reply.raw.headersSent when the job starts *)
  endedFrom : option nat;             (* reply.raw.writableEnded reads true from
                                         the event of this index on *)
  writeError : option (nat * string); (* reply.raw.write throws this at the
                                         event of this index *)
  closedFrom : option nat             (* the client closes the connection when
                                         the event of this index arrives: the
                                         response emits 'close', for which the
                                         handler registers no listener;
                                         writableEnded stays false and write
                                         does not throw *)
}.

(** The closure handleStreamChat passes to the limiter: it captures the
    request and the reply. *)
Record Request : Type := {
  body : ClaudePrompt;
  environment : Environment
}.

(** ** services/claude.service *)

Definition getClaudeCommand : string := "claude".

Definition getClaudeArgs (args : list string) : list string := args.

Definition buildClaudeArgs (session : option string) (isStream : bool)
    (mcpConfigPath : option string) (permissionArgs : option (list string))
  : list string :=
  ["-p"; "--dangerously-skip-permissions";
   "--permission-mode"; "bypassPermissions";
   "--output-format"; "stream-json";
   "--verbose"]
  ++ (if isStream then ["--include-partial-messages"] else [])
  ++ (match mcpConfigPath with
      | Some path => if nonempty path then ["--mcp-config"; path] else []
      | None => []
      end)
  ++ (match permissionArgs with
      | Some args => args
      | None => []
      end)
  ++ (match session with
      | Some id => if nonempty id then ["--resume"; id] else []
      | None => []
      end).

(** The listener spawnClaudeProcess registers for the 'error' event. *)
Definition onChildError (message : string) : list Effect :=
  [LogError ("Claude CLI 子进程错误: " ++ message)%string].

(** spawnClaudeProcess: the effects, and the child returned or the error
    thrown.  The listeners are registered on the child and run when the
    event loop delivers their events. *)
Definition spawnClaudeProcess (env : Environment) (cwd : string) (prompt : string)
    (session : option string) (permissionArgs : option (list string))
  : list Effect * Result ChildProcess :=
  let command := getClaudeCommand in
  let rawArgs := buildClaudeArgs session true (mcpConfigPath env) permissionArgs in
  let args := getClaudeArgs rawArgs in
  let launch :=
    [Log ("启动 Claude CLI: " ++ command ++ " " ++ String.concat " " args)%string;
     Log ("工作目录: " ++ cwd)%string;
     Spawn command args cwd] in
  match stdinError env with
  | Some message =>
      (launch ++ [LogError ("写入 stdin 失败: " ++ message)%string; Kill None],
       Throw ("无法写入 Claude CLI stdin: " ++ message)%string)
  | None =>
      (launch ++ [StdinWrite (prompt ++ String "010" EmptyString)%string; StdinEnd],
       Ok {| stdout := childStdout env; stderr := childStderr env; killed := false |})
  end.

Definition killClaudeProcess (child : ChildProcess) : list Effect :=
  if killed child then []
  else [Log "终止 Claude CLI 子进程"; Kill (Some "SIGTERM")].

(** The headers of an SSE response. *)
Definition sseHeaders : list Effect :=
  [SetHeader "Content-Type" "text/event-stream";
   SetHeader "Cache-Control" "no-cache";
   SetHeader "Connection" "keep-alive";
   SetHeader "X-Accel-Buffering" "no"].

(** The message of ERR_HTTP_HEADERS_SENT. *)
Definition headersSentError : string :=
  "Cannot set headers after they are sent to the client".

(** setSSEResponseHeaders(res), [headersSent] being res.headersSent:
    res.setHeader throws once the headers of the response are sent, so the
    first call throws and no header is set. *)
Definition setSSEResponseHeaders (headersSent : bool) : list Effect * Result unit :=
  if headersSent then ([], Throw headersSentError) else (sseHeaders, Ok tt).

(** ** routes/chat *)

Definition isPermissionMode (m : string) : bool :=
  String.eqb m "pure" || String.eqb m "simple"
  || String.eqb m "readonly" || String.eqb m "projectwrite".

(** chatRequestSchema.safeParse(request.body): its issues; it succeeds
    when there is none. *)
Definition chatRequestSchema (b : ClaudePrompt) : list Issue :=
  (if nonempty (prompt b) then [] else [PromptEmpty])
  ++ (match allowedmode b with
      | Some m => if isPermissionMode m then [] else [InvalidMode m]
      | None => []
      end).

(** [reply.raw.writableEnded] when the event of index [i] arrives. *)
Definition writableEnded (env : Environment) (i : nat) : bool :=
  match endedFrom env with
  | Some n => Nat.leb n i
  | None => false
  end.

Definition writeThrows (env : Environment) (i : nat) : option string :=
  match writeError env with
  | Some (n, message) => if Nat.eqb n i then Some message else None
  | None => None
  end.

(** How the for-await loop of the handler ends. *)
Inductive LoopEnd : Type :=
| Completed           (* the generator is done *)
| Broke               (* the body executed break *)
| Thrown (message : string)
| Unfinished.         (* the model ran out of fuel *)

Section Handler.

Variable JSON_parse : string -> option JValue.

(** [for await (const event of generator) { if (writableEnded) break;
    write(event) }] from the event of index [i] on: the writes, how the
    loop ends, and the number of events received.  On break and on throw
    the loop calls return() on the generator and drops what it yields. *)
Fixpoint forAwait (env : Environment) (fuel : nat) (g : Generator) (i : nat)
  : list Effect * LoopEnd * nat :=
  match fuel with
  | O => ([], Unfinished, i)
  | S fuel' =>
      match next JSON_parse g with
      | (None, _) => ([], Completed, i)
      | (Some event, g') =>
          if writableEnded env i then ([], Broke, i)
          else
            match writeThrows env i with
            | Some message => ([], Thrown message, i)
            | None =>
                let '(effects, e, n) := forAwait env fuel' g' (S i) in
                (Write event :: effects, e, n)
            end
      end
  end.

(** The catch block of the job. *)
Definition onCatch (headersSent : bool) (message : string) : list Effect :=
  LogError message
  :: (if headersSent then [Write (Error message); EndResponse]
      else [Send 500 (InternalError message)]).

(** The effects [rest] with the effects [log] of a listener that the
    event loop runs after the first [k] of them, or after all of them when
    there are fewer. *)
Definition deliver (k : nat) (log rest : list Effect) : list Effect :=
  firstn k rest ++ log ++ skipn k rest.

(** The async function handleStreamChat passes to globalLimiter.run.  The
    launch of the child and the setting of the headers run in one turn of
    the event loop; the 'error' event of a child that could not be spawned
    is delivered in a later turn, between two effects of the rest of the job
    or after the last one. *)
Definition chatJob (request : Request) : list Effect :=
  let b := body request in
  let env := environment request in
  let session :=
    match sessionId b with
    | Some id => if nonempty id && nonempty (trim id) then Some id else None
    | None => None
    end in
  let workspace := option_map trim (workspace b) in
  let externaldirs := option_map trim (externaldirs b) in
  let allowedmode := option_map trim (allowedmode b) in
  let vision := option_map trim (vision b) in
  match chatRequestSchema b with
  | issue :: issues =>
      if headersAlreadySent env then []
      else [Send 400 (ValidationFailed (issue :: issues))]
  | [] =>
      let prompt := applyVisionRestriction (prompt b) vision in
      let workingDir := if option_truthy workspace
                        then match workspace with Some w => w | None => workingDir env end
                        else workingDir env in
      (* getTargetDirectory(session, undefined, workingDir) returns workingDir *)
      let targetDir := workingDir in
      let permissionConfig := buildPermissionConfig allowedmode workspace externaldirs in
      let permissionArgs := buildPermissionArgs permissionConfig in
      match spawnClaudeProcess env targetDir prompt session (Some permissionArgs) with
      | (launch, Throw message) =>
          launch ++ onCatch (headersAlreadySent env) message
      | (launch, Ok child) =>
          let errorEvent :=
            match spawnError env with
            | Some message => onChildError message
            | None => []
            end in
          match setSSEResponseHeaders (headersAlreadySent env) with
          | (headers, Throw message) =>
              (* thrown between the launch and the try statement whose
                 finally block kills the child: the child is not killed *)
              launch ++ headers
              ++ onCatch (headersAlreadySent env) message ++ errorEvent
          | (headers, Ok _) =>
              let generator :=
                streamClaudeOutput child
                  (match session with Some id => id | None => "new" end) in
              let '(writes, e, n) :=
                forAwait env (S (calls_bound (point generator))) generator 0 in
              let rest :=
                match e with
                | Completed | Broke =>
                    writes
                    ++ (if writableEnded env n then [] else [EndResponse])
                    ++ killClaudeProcess child
                | Thrown message =>
                    writes
                    ++ killClaudeProcess child
                    ++ onCatch (headersAlreadySent env || negb (Nat.eqb n 0)) message
                | Unfinished => writes
                end in
              launch ++ headers ++ deliver (errorEventAfter env) errorEvent rest
          end
      end
  end.

End Handler.

(** handleStreamChat: the request's job is handed to the limiter, which
    calls it at once or queues it. *)
Definition handleStreamChat (request : Request) (now : Z)
    (w : Limiter.World Request unit) : Limiter.World Request unit :=
  Limiter.run request None now w.

(** The job the limiter has called for the promise [id], if any. *)
Fixpoint called (id : nat) (calls : list (nat * Request)) : option Request :=
  match calls with
  | [] => None
  | (id', request) :: rest => if Nat.eqb id id' then Some request else called id rest
  end.

(** What the request whose promise is [id] has caused so far: the effects
    of its job once the limiter has called it, nothing before. *)
Definition effects_of (parse : string -> option JValue) (id : nat)
    (w : Limiter.World Request unit) : list Effect :=
  match called id (Limiter.invoked w) with
  | Some request => chatJob parse request
  | None => []
  end.

(** ** Vocabulary of the properties of the handler *)


Definition isSpawn (e : Effect) : bool :=
  match e with Spawn _ _ _ => true | _ => false end.


Definition isWrite (e : Effect) : bool :=
  match e with Write _ => true | _ => false end.






End Chat.

(* ================================================================== *)
(** * utils/git.util and utils/env.util *)
(* ================================================================== *)

Module Text.

(** A text in which the character [sep] does not occur. *)
Fixpoint free_of (sep : ascii) (s : string) : bool :=
  match s with
  | EmptyString => true
  | String c s' => negb (Ascii.eqb c sep) && free_of sep s'
  end.

End Text.

Module Git.
Import Js.

(** [repo.replace(/\.git$/, '')]: the text without its ending '.git',
    when it ends so. *)
Fixpoint withoutGit (repo : string) : string :=
  match repo with
  | EmptyString => EmptyString
  | String c rest =>
      if String.eqb repo ".git" then EmptyString else String c (withoutGit rest)
  end.

Definition extractRepoName (repo : string) : string :=
  let parts := split "/" (withoutGit repo) in
  let name := last parts EmptyString in
  if nonempty name then name else "cloned_repo".

(** What getTargetDirectory does to the outside world. *)
Inductive GitEffect : Type :=
| Exists (path : string)                 (* fs.existsSync(path) *)
| Clone (repo : string) (cwd : string)   (* spawnSync('git', ['clone', repo], {cwd}) *)
| GitLog (message : string).             (* console.log *)

(** What the function finds outside: path.join, the directories that
    exist, and for a clone its exit status ([None] when the process was
    killed by a signal or could not be started) and its standard error. *)
Record Disk : Type := {
  join : string -> string -> string;
  existsSync : string -> bool;
  cloneStatus : string -> option Z;
  cloneStderr : string -> option string
}.

(** The GitError thrown by cloneRepo: its message and its stderr. *)
Inductive GitError : Type :=
| CloneFailed (message : string) (stderr : string).

(** cloneRepo: the effects, and whether it returns or throws. *)
Definition cloneRepo (disk : Disk) (repo targetDir : string)
  : list GitEffect * option GitError :=
  let before := [GitLog ("正在克隆仓库: " ++ repo ++ "...")%string; Clone repo targetDir] in
  match cloneStatus disk repo with
  | Some 0 => (before ++ [GitLog ("仓库克隆成功: " ++ repo)%string], None)
  | _ =>
      (before,
       Some (CloneFailed ("克隆仓库失败: " ++ repo)%string
               (match cloneStderr disk repo with
                | Some text => text
                | None => EmptyString
                end)))
  end.

(** getTargetDirectory: the effects, and the directory returned or the
    error thrown.  [session] and [repo] are tested for truthiness. *)
Definition getTargetDirectory (disk : Disk) (session repo : option string)
    (workingDir : string) : list GitEffect * (string + GitError) :=
  let truthy_text := fun o : option string =>
                       match o with Some x => nonempty x | None => false end in
  if truthy_text session then ([], inl workingDir)
  else
    match repo with
    | None => ([], inl workingDir)
    | Some url =>
        if negb (nonempty url) then ([], inl workingDir)
        else
          let repoName := extractRepoName url in
          let repoPath := join disk workingDir repoName in
          if negb (existsSync disk repoPath) then
            match cloneRepo disk url workingDir with
            | (effects, Some error) => (Exists repoPath :: effects, inr error)
            | (effects, None) => (Exists repoPath :: effects, inl repoPath)
            end
          else
            ([Exists repoPath;
              GitLog ("仓库已存在，跳过克隆: " ++ repoPath)%string],
             inl repoPath)
    end.

Definition isClone (e : GitEffect) : bool :=
  match e with Clone _ _ => true | _ => false end.

End Git.

Module Env.
Import Js.



End Env.

(* ================================================================== *)
(** * utils/fibonacci.util and utils/count.util *)
(* ================================================================== *)

(** The arguments are the integers the functions are documented for; a
    BigInt is an exact integer, and a Number that holds an integer below
    2 ^ 53 in absolute value is that integer.  The loops of count.util count
    with a Number, whose increment is rounded to the nearest Number
    ([Count.toNumber]). *)

Module Fibonacci.
Import Js.

Definition negative : string := "输入必须是非负整数".

(** The loop [for (let i = 2; i <= n; i++)] of fibonacciIterative, with
    the number of turns left. *)
Fixpoint iterate (turns : nat) (prev curr : Z) : Z :=
  match turns with
  | O => curr
  | S turns' => let next := prev + curr in iterate turns' curr next
  end.

Definition fibonacciIterative (n : Z) : Result Z :=
  if n <? 0 then Throw negative
  else if n =? 0 then Ok 0
  else if n =? 1 then Ok 1
  else Ok (iterate (Z.to_nat (n - 1)) 0 1).

(** The recursion of fibonacciRecursive on a non-negative index. *)
Fixpoint recursive (n : nat) : Z :=
  match n with
  | O => 0
  | S m =>
      match m with
      | O => 1
      | S k => recursive m + recursive k
      end
  end.

Definition fibonacciRecursive (n : Z) : Result Z :=
  if n <? 0 then Throw negative else Ok (recursive (Z.to_nat n)).

(** The module-level Map memoCache: has and get read the latest entry of
    a key, set adds one. *)
Definition Cache : Type := list (Z * Z).

Fixpoint cache_get (k : Z) (memoCache : Cache) : option Z :=
  match memoCache with
  | [] => None
  | (k', v) :: rest => if k =? k' then Some v else cache_get k rest
  end.

Definition cache_set (k v : Z) (memoCache : Cache) : Cache := (k, v) :: memoCache.

(** The recursion of fibonacciMemoized on a non-negative index: the value
    and the cache afterwards; the left operand of the sum is evaluated
    first. *)
Fixpoint memoized (n : nat) (memoCache : Cache) : Z * Cache :=
  match n with
  | O => (0, memoCache)
  | S m =>
      match m with
      | O => (1, memoCache)
      | S k =>
          match cache_get (Z.of_nat n) memoCache with
          | Some v => (v, memoCache)
          | None =>
              let (a, cache1) := memoized m memoCache in
              let (b, cache2) := memoized k cache1 in
              let result := a + b in
              (result, cache_set (Z.of_nat n) result cache2)
          end
      end
  end.

Definition fibonacciMemoized (n : Z) (memoCache : Cache) : Result Z * Cache :=
  if n <? 0 then (Throw negative, memoCache)
  else let (v, memoCache') := memoized (Z.to_nat n) memoCache in (Ok v, memoCache').

Definition clearMemoCache (memoCache : Cache) : Cache := [].

(** A 2 x 2 matrix as the array of its four entries, row by row. *)
Definition Matrix : Type := (Z * Z * Z * Z)%type.

Definition multiplyMatrix (a b : Matrix) : Matrix :=
  let '(a0, a1, a2, a3) := a in
  let '(b0, b1, b2, b3) := b in
  (a0 * b0 + a1 * b2, a0 * b1 + a1 * b3, a2 * b0 + a3 * b2, a2 * b1 + a3 * b3).

(** matrixPower on a positive power, by its binary digits: the power 1,
    an even power ([power / 2]), an odd power ([power - 1], which is even). *)
Fixpoint matrixPower (mat : Matrix) (power : positive) : Matrix :=
  match power with
  | xH => mat
  | xO p => let half := matrixPower mat p in multiplyMatrix half half
  | xI p =>
      multiplyMatrix mat
        (let half := matrixPower mat p in multiplyMatrix half half)
  end.

Definition baseMatrix : Matrix := (1, 1, 1, 0).

Definition fibonacciMatrix (n : Z) : Result Z :=
  match n with
  | Zneg _ => Throw negative
  | Z0 => Ok 0
  | Zpos p => let '(_, r1, _, _) := matrixPower baseMatrix p in Ok r1
  end.

Inductive FibonacciMethod : Type :=
| iterative
| recursive_
| memoized_
| matrix.

(** [calculators[method](n)], with the cache it reads and leaves. *)
Definition calculator (method : FibonacciMethod) (n : Z) (memoCache : Cache)
  : Result Z * Cache :=
  match method with
  | iterative => (fibonacciIterative n, memoCache)
  | recursive_ => (fibonacciRecursive n, memoCache)
  | memoized_ => fibonacciMemoized n memoCache
  | matrix => (fibonacciMatrix n, memoCache)
  end.

Definition fibonacci (n : Z) (method : option FibonacciMethod) (memoCache : Cache)
  : Result Z * Cache :=
  calculator (match method with Some m => m | None => iterative end) n memoCache.

(** The loop [for (let i = 0; i <= n; i++)] of fibonacciSequence from
    the index [i], with the number of turns left. *)
Fixpoint sequence_loop (method : FibonacciMethod) (turns : nat) (i : Z)
    (memoCache : Cache) : Result (list Z) * Cache :=
  match turns with
  | O => (Ok [], memoCache)
  | S turns' =>
      match calculator method i memoCache with
      | (Throw message, memoCache') => (Throw message, memoCache')
      | (Ok v, memoCache') =>
          match sequence_loop method turns' (i + 1) memoCache' with
          | (Ok vs, memoCache'') => (Ok (v :: vs), memoCache'')
          | (Throw message, memoCache'') => (Throw message, memoCache'')
          end
      end
  end.

Definition fibonacciSequence (n : Z) (method : option FibonacciMethod)
    (memoCache : Cache) : Result (list Z) * Cache :=
  if n <? 0 then (Throw negative, memoCache)
  else sequence_loop (match method with Some m => m | None => iterative end)
         (Z.to_nat (n + 1)) 0 memoCache.

(** Every entry of the cache holds the value of the recursive definition
    at its key. *)
Definition consistent (memoCache : Cache) : Prop :=
  forall k v, cache_get k memoCache = Some v -> 0 <= k /\ v = recursive (Z.to_nat k).

End Fibonacci.

Module Count.


(** The Number nearest to the integer [z], ties to the even significand:
    what an addition of Numbers whose exact result is [z] returns. *)
Definition toNumber (z : Z) : Z :=
  let a := Z.abs z in
  if a <=? 2 ^ 53 then z
  else
    let e := Z.log2 a - 52 in
    let q := Z.shiftr a e in
    let r := Z.land a (Z.ones e) in
    let half := Z.shiftl 1 (e - 1) in
    let q' := if r <? half then q
              else if half <? r then q + 1
              else if Z.even q then q else q + 1 in
    Z.sgn z * Z.shiftl q' e.

(** [i++] and [i--] on a Number that holds an integer. *)
Definition increment (i : Z) : Z := toNumber (i + 1).


(** [for (let i = ...; i <= end; i++) result.push(i)] from the test of
    [i] on, and its descending counterpart: the array when the loop ends,
    nothing when it is still running after [fuel] tests. *)
Fixpoint ascending (fuel : nat) (i end_ : Z) (result : list Z) : option (list Z) :=
  match fuel with
  | O => None
  | S fuel' =>
      if i <=? end_ then ascending fuel' (increment i) end_ (result ++ [i])
      else Some result
  end.


(** count(max), [max] defaulting to 10. *)
Definition count (fuel : nat) (max : option Z) : option (list Z) :=
  let max := match max with Some m => m | None => 10 end in
  ascending fuel 1 max [].


End Count.

(* ================================================================== *)
(** * Further vocabulary: admission order of the limiter *)
(* ================================================================== *)

Module LimiterOrder.
Import Limiter.

Section LimiterOrder.

Variables Job T : Type.

(** No task waits while a slot is free. *)
Definition saturated (w : World Job T) : Prop :=
  queue (limiter w) = [] \/ maxConcurrent (limiter w) <= active (limiter w).

(** Promise identities are handed out in the order of the run() calls.
    The queue and the promoted tasks are in that order, and everything
    started or promoted was submitted before everything that waits. *)
Definition fifo (w : World Job T) : Prop :=
  StronglySorted lt (map resolve (queue (limiter w)))
  /\ StronglySorted lt (map resolve (microtasks w))
  /\ (forall a b,
        is_queued a w ->
        In b (map resolve (microtasks w)) \/ was_invoked b w ->
        (b < a)%nat).

(** One call of run() without timeout argument for each job, at time [now]. *)
Definition runs (jobs : list Job) (now : Z) : list (Event Job T) :=
  map (fun job => Run job None now) jobs.

(** The clock read by the run() calls of [es] never goes back, starting
    from the time [t]. *)
Fixpoint clock_monotone (t : Z) (es : list (Event Job T)) : bool :=
  match es with
  | [] => true
  | Run _ _ now :: rest => (t <=? now) && clock_monotone now rest
  | _ :: rest => clock_monotone t rest
  end.

(** The time of the last run() call of [es], [t] when there is none. *)
Fixpoint last_clock (t : Z) (es : list (Event Job T)) : Z :=
  match es with
  | [] => t
  | Run _ _ now :: rest => last_clock now rest
  | _ :: rest => last_clock t rest
  end.

(** The queued tasks carry the times of their enqueueing in order, none
    later than [t]. *)
Definition timed (t : Z) (w : World Job T) : Prop :=
  StronglySorted Z.le (map timestamp (queue (limiter w)))
  /\ Forall (fun ts => ts <= t) (map timestamp (queue (limiter w))).

End LimiterOrder.

Arguments clock_monotone {Job T}.
Arguments last_clock {Job T}.
Arguments timed {Job T}.
Arguments saturated {Job T}.
Arguments fifo {Job T}.
Arguments runs {Job T}.

End LimiterOrder.

(* ================================================================== *)
(** * Further vocabulary: the rules of the transcoder *)
(* ================================================================== *)

Module StreamRules.
Import Js Stream.

(** null or undefined: the values a property read throws on. *)
Definition nullish (v : JValue) : bool :=
  match v with
  | JUndefined | JNull => true
  | _ => false
  end.

(** A content block that invokes a tool: an object whose [type] is
    'tool_use'. *)
Definition isToolUseBlock (item : JValue) : bool :=
  match item with
  | JObject props =>
      match lookup "type" props with
      | Some ty => is_string ty "tool_use"
      | None => false
      end
  | _ => false
  end.

(** The text of a parsed line that is a text delta: an object whose
    [event] is an object of [type] 'content_block_delta' whose [delta] is an
    object of [type] 'text_delta' with a string as [text]. *)
Definition textDelta (data : JValue) : option string :=
  match data with
  | JObject props =>
      match lookup "event" props with
      | Some (JObject eprops) =>
          match lookup "type" eprops, lookup "delta" eprops with
          | Some ety, Some (JObject dprops) =>
              if is_string ety "content_block_delta" then
                match lookup "type" dprops, lookup "text" dprops with
                | Some dty, Some (JString text) =>
                    if is_string dty "text_delta" then Some text else None
                | _, _ => None
                end
              else None
          | _, _ => None
          end
      | _ => None
      end
  | _ => None
  end.

(** A text without a line feed. *)
Fixpoint single_line (s : string) : bool :=
  match s with
  | EmptyString => true
  | String c s' => negb (Ascii.eqb c "010") && single_line s'
  end.

(** The lines a client reads off one frame: the data line and the empty
    line that closes the frame. *)
Definition frame_lines (JSON_stringify : SSEEvent -> string) (event : SSEEvent)
  : list string :=
  [("data: " ++ JSON_stringify event)%string; EmptyString].

End StreamRules.

(* ================================================================== *)
(** * Further vocabulary: the trace of a chat job *)
(* ================================================================== *)

Module ChatRules.
Import Js Permission Stream Chat.

(** What the job of a request computes before it starts the child: the
    session to resume, the prompt written to the child, the directory the
    child runs in and its command line. *)
Definition jobSession (b : ClaudePrompt) : option string :=
  match sessionId b with
  | Some id => if nonempty id && nonempty (trim id) then Some id else None
  | None => None
  end.

Definition jobPrompt (b : ClaudePrompt) : string :=
  applyVisionRestriction (prompt b) (option_map trim (vision b)).

Definition jobDirectory (b : ClaudePrompt) (env : Environment) : string :=
  match option_map trim (workspace b) with
  | Some w => if nonempty w then w else workingDir env
  | None => workingDir env
  end.

Definition jobArgs (b : ClaudePrompt) (env : Environment) : list string :=
  buildClaudeArgs (jobSession b) true (mcpConfigPath env)
    (Some (buildPermissionArgs
             (buildPermissionConfig (option_map trim (allowedmode b))
                (option_map trim (workspace b))
                (option_map trim (externaldirs b))))).

(** The launch of the child up to the closing of its standard input. *)
Definition jobLaunch (b : ClaudePrompt) (env : Environment) : list Effect :=
  [Log ("启动 Claude CLI: claude " ++ String.concat " " (jobArgs b env))%string;
   Log ("工作目录: " ++ jobDirectory b env)%string;
   Spawn "claude" (jobArgs b env) (jobDirectory b env);
   StdinWrite (jobPrompt b ++ String "010" EmptyString)%string;
   StdinEnd].

(** Everything the transcoder of the job yields when it is never stopped. *)
Definition jobEvents (parse : string -> option JValue) (b : ClaudePrompt)
    (env : Environment) : list SSEEvent :=
  drain parse
    (streamClaudeOutput
       {| stdout := childStdout env; stderr := childStderr env; killed := false |}
       (match jobSession b with Some id => id | None => "new" end)).

(** The log line of the 'error' event of the child, when it is emitted. *)
Definition jobErrorEvent (env : Environment) : list Effect :=
  match spawnError env with
  | Some message => onChildError message
  | None => []
  end.

(** The finally block of the job. *)
Definition jobKill : list Effect :=
  [Log "终止 Claude CLI 子进程"; Kill (Some "SIGTERM")].

(** The loop of the handler over the events still to come, the next one
    having index [i]. *)
Fixpoint forward (env : Environment) (events : list SSEEvent) (i : nat)
  : list Effect * LoopEnd * nat :=
  match events with
  | [] => ([], Completed, i)
  | event :: rest =>
      if writableEnded env i then ([], Broke, i)
      else
        match writeThrows env i with
        | Some message => ([], Thrown message, i)
        | None =>
            let '(effects, e, n) := forward env rest (S i) in
            (Write event :: effects, e, n)
        end
  end.

(** What the job does once the headers are set: the loop, and what
    follows it. *)
Definition jobRest (parse : string -> option JValue) (b : ClaudePrompt)
    (env : Environment) : list Effect :=
  let '(writes, e, n) := forward env (jobEvents parse b env) 0 in
  writes
  ++ match e with
     | Completed | Broke =>
         (if writableEnded env n then [] else [EndResponse]) ++ jobKill
     | Thrown message =>
         jobKill ++ onCatch (headersAlreadySent env || negb (Nat.eqb n 0)) message
     | Unfinished => []
     end.

Definition isStdinWrite (e : Effect) : bool :=
  match e with StdinWrite _ => true | _ => false end.

End ChatRules.

(* ================================================================== *)
(** * Sample inputs *)
(* ================================================================== *)

Module Samples.
Import Js Stream Chat.

Definition child_of (cs : list string) (e : Ending) : ChildProcess :=
  {| stdout := {| chunks := cs; ending := e |};
     stderr := {| chunks := []; ending := Ended |};
     killed := false |}.

Definition nl : string := String "010" EmptyString.

Definition unknown_line : string :=
  ("{" ++ dq ++ "type" ++ dq ++ ":" ++ dq ++ "unknown" ++ dq ++ ","
   ++ dq ++ "x" ++ dq ++ ":1}")%string.

Definition assistant_line (text : string) : string :=
  ("{" ++ dq ++ "type" ++ dq ++ ":" ++ dq ++ "assistant" ++ dq ++ ","
   ++ dq ++ "message" ++ dq ++ ":{" ++ dq ++ "content" ++ dq ++ ":[{"
   ++ dq ++ "type" ++ dq ++ ":" ++ dq ++ "text" ++ dq ++ ","
   ++ dq ++ "text" ++ dq ++ ":" ++ dq ++ text ++ dq ++ "}]}}")%string.

Definition assistant_value (text : string) : JValue :=
  JObject [("type", JString "assistant");
           ("message",
            JObject [("content",
                      JArray [JObject [("type", JString "text");
                                       ("text", JString text)]])])].

Definition quiet : Environment :=
  {| workingDir := "/srv/work"; mcpConfigPath := None;
     spawnError := None; errorEventAfter := 0; stdinError := None;
     childStdout := {| chunks := []; ending := Ended |};
     childStderr := {| chunks := []; ending := Ended |};
     headersAlreadySent := false; endedFrom := None; writeError := None;
     closedFrom := None |}.



Definition hello : ClaudePrompt :=
  {| prompt := "hello"; sessionId := None; workspace := None;
     externaldirs := None; allowedmode := None; vision := None |}.

Definition empty_prompt : ClaudePrompt :=
  {| prompt := EmptyString; sessionId := None; workspace := None;
     externaldirs := None; allowedmode := None; vision := None |}.



End Samples.

(* ================================================================== *)
(** * Properties *)
(* ================================================================== *)

Module PermissionFacts.
Import Js Permission.

Example split_trailing : split "," "a,,b," = ["a"; ""; "b"; ""].
Proof. reflexivity. Qed.

Example trim_unicode :
  trim (String (ascii_of_nat 239) (String (ascii_of_nat 187) (String (ascii_of_nat 191)
        "  a b" ++ String (ascii_of_nat 194) (String (ascii_of_nat 160) "
"))))%string = "a b".
Proof. vm_compute. reflexivity. Qed.

Example externaldirs_order :
  addDirs (buildPermissionConfig None None (Some " D:\Ext , ,C:\Logs,"))
  = Some ["D:\Ext"; "C:\Logs"].
Proof. vm_compute. reflexivity. Qed.

(** C5. buildPermissionConfig('projectwrite', 'D:/Proj', undefined) has as
    allowedTools the string made of: quote, Edit(D:/Proj/ followed by two
    stars and a closing parenthesis, quote, comma, quote, Read, quote; and
    buildPermissionConfig('pure', undefined, undefined) has as allowedTools
    the string of two quote characters and noIndexing true. *)
Theorem C5_buildPermissionConfig_examples :
  allowedTools (buildPermissionConfig (Some "projectwrite") (Some "D:/Proj") None)
    = Some (dq ++ "Edit(D:/Proj/**" ++ ")" ++ dq ++ "," ++ dq ++ "Read" ++ dq)%string
  /\ allowedTools (buildPermissionConfig (Some "pure") None None)
    = Some (String (ascii_of_nat 34) (String (ascii_of_nat 34) EmptyString))
  /\ noIndexing (buildPermissionConfig (Some "pure") None None) = Some true.
Proof. repeat split. Qed.

End PermissionFacts.

Module JsFacts.
Import Js.

Example parse_object :
  JSON_parse (" {" ++ dq ++ "type" ++ dq ++ " : " ++ dq ++ "unknown" ++ dq ++ ", "
              ++ dq ++ "x" ++ dq ++ ":[1, -2.50e3, true, null, {}]} ")%string
  = Some (JObject [("type", JString "unknown");
                   ("x", JArray [JNumber 1 0; JNumber (-250) 1; JBool true; JNull; JObject []])]).
Proof. vm_compute. reflexivity. Qed.

Example parse_escapes :
  JSON_parse (dq ++ "a\n\u00e9\ud83d\ude00\/é" ++ dq)%string
  = Some (JString ("a" ++ String (chr 10) "é😀/é")%string).
Proof. vm_compute. reflexivity. Qed.

Example parse_rejects :
  map JSON_parse ["plain text"; "{"; "01"; "[1,]"; "1 2"; "tru"; "-"; "1."; "" ]
  = [None; None; None; None; None; None; None; None; None].
Proof. vm_compute. reflexivity. Qed.

Example parse_duplicate_key :
  JSON_parse ("{" ++ dq ++ "a" ++ dq ++ ":1," ++ dq ++ "b" ++ dq ++ ":2,"
              ++ dq ++ "a" ++ dq ++ ":3}")%string
  = Some (JObject [("a", JNumber 3 0); ("b", JNumber 2 0)]).
Proof. vm_compute. reflexivity. Qed.

(** Array indices come first among the keys of the object, in ascending
    order; a key that is no canonical index ("01", "-1", "4294967295") keeps
    the place of its creation. *)
Example parse_index_keys :
  JSON_parse ("{" ++ dq ++ "b" ++ dq ++ ":1," ++ dq ++ "10" ++ dq ++ ":2,"
              ++ dq ++ "01" ++ dq ++ ":3," ++ dq ++ "2" ++ dq ++ ":4,"
              ++ dq ++ "4294967295" ++ dq ++ ":5," ++ dq ++ "0" ++ dq ++ ":6,"
              ++ dq ++ "2" ++ dq ++ ":7}")%string
  = Some (JObject [("0", JNumber 6 0); ("2", JNumber 7 0); ("10", JNumber 2 0);
                   ("b", JNumber 1 0); ("01", JNumber 3 0);
                   ("4294967295", JNumber 5 0)]).
Proof. vm_compute. reflexivity. Qed.

(** A literal beyond the doubles is an infinity; the largest double is not. *)
Example parse_out_of_range :
  map JSON_parse ["1e400"; "-1e400"; "1.7976931348623157e308";
                  "1.7976931348623159e308"; "1e-400"]
  = [Some (JInfinity false); Some (JInfinity true);
     Some (JNumber 17976931348623157 292); Some (JInfinity false);
     Some (JNumber 1 (-400))].
Proof. vm_compute. reflexivity. Qed.

Example truthy_numbers :
  map truthy [JNumber 0 5; JNumber 1 (-400); JNumber 5 (-324); JInfinity true;
              JString ""; JString "0"; JArray []]
  = [false; false; true; true; false; true; true].
Proof. vm_compute. reflexivity. Qed.

End JsFacts.

Module StreamFacts.
Import Js Stream Samples.

Example drain_whole :
  drain JSON_parse
    (streamClaudeOutput (child_of [(unknown_line ++ nl ++ nl ++ "plain text" ++ nl)%string] Ended) "new")
  = [Start "new";
     Data (JObject [("type", JString "unknown"); ("x", JNumber 1 0)]);
     Data (JString "plain text");
     End "new"].
Proof. vm_compute. reflexivity. Qed.

Section TranscoderFacts.

Variable JSON_parse : string -> option JValue.

Lemma next_line_contents (lines : list string) :
  match next_line JSON_parse lines with
  | None => contents JSON_parse lines = []
  | Some (d, rest) =>
      contents JSON_parse lines = d :: contents JSON_parse rest
      /\ (length rest < length lines)%nat
  end.
Proof.
  induction lines as [|line rest IH]; simpl; [reflexivity|].
  unfold contents in *; simpl.
  destruct (parseLine JSON_parse line) eqn:E; simpl;
    try (split; [reflexivity|lia]).
  destruct (next_line JSON_parse rest) as [[d r]|]; [|exact IH].
  destruct IH as [IH1 IH2]; split; [exact IH1|lia].
Qed.

Lemma contents_app (a b : list string) :
  contents JSON_parse (a ++ b) = contents JSON_parse a ++ contents JSON_parse b.
Proof. unfold contents. rewrite map_app, filter_app. reflexivity. Qed.

Lemma next_chunk_remaining (sid : string) (e : Ending) (cs : list string) :
  let r := next_chunk JSON_parse sid cs e in
  map Data (contents JSON_parse (flat_map (split "010") cs)) ++ closing sid e
  = fst r :: remaining JSON_parse sid (snd r)
  /\ (calls_bound (snd r) < 3 + length (flat_map (split "010") cs))%nat.
Proof.
  induction cs as [|c cs IH]; cbn [next_chunk flat_map].
  - destruct e; simpl; split; try reflexivity; lia.
  - pose proof (next_line_contents (split "010" c)) as H.
    rewrite contents_app, map_app, length_app.
    destruct (next_line JSON_parse (split "010" c)) as [[d rest]|].
    + destruct H as [H1 H2]. rewrite H1.
      simpl; unfold lines_of; simpl. rewrite !map_app, <- !app_assoc.
      split; [reflexivity|lia].
    + rewrite H. cbn [map app]. destruct IH as [IH1 IH2]. split; [exact IH1|lia].
Qed.

Lemma resume_loop_remaining (sid : string) (lines : list string) (rest : Readable) :
  let r := resume_loop JSON_parse sid lines rest in
  remaining JSON_parse sid (InLoop lines rest)
  = fst r :: remaining JSON_parse sid (snd r)
  /\ (calls_bound (snd r) < calls_bound (InLoop lines rest))%nat.
Proof.
  unfold resume_loop. pose proof (next_line_contents lines) as H.
  destruct (next_line JSON_parse lines) as [[d ls]|]; simpl.
  - destruct H as [H1 H2]. rewrite H1. simpl. split; [reflexivity|lia].
  - rewrite H. simpl.
    destruct (next_chunk_remaining sid (ending rest) (chunks rest)) as [A B].
    unfold lines_of. split; [exact A|]. simpl in B. lia.
Qed.

(** One call of next(): either it yields the head of what remains and the
    bound decreases, or nothing remains and the generator is done. *)
Lemma next_remaining (g : Generator) :
  match next JSON_parse g with
  | (Some ev, g') =>
      remaining JSON_parse (sessionId g) (point g)
      = ev :: remaining JSON_parse (sessionId g) (point g')
      /\ sessionId g' = sessionId g
      /\ (calls_bound (point g') < calls_bound (point g))%nat
  | (None, g') =>
      remaining JSON_parse (sessionId g) (point g) = []
      /\ g' = {| sessionId := sessionId g; point := Done |}
  end.
Proof.
  destruct g as [sid p]; unfold next; simpl.
  destruct p as [src|src|lines rest| | |]; simpl;
    try (split; [reflexivity|split; [reflexivity|lia]]);
    try (split; reflexivity).
  - pose proof (resume_loop_remaining sid [] src) as [A B].
    simpl in A. split; [exact A|]. split; [reflexivity|]. simpl in B. lia.
  - pose proof (resume_loop_remaining sid lines rest) as [A B].
    split; [exact A|]. split; [reflexivity|exact B].
Qed.

(** Enough calls of next() yield everything that remains and leave the
    generator done. *)
Lemma pull_enough (n : nat) :
  forall g, (calls_bound (point g) <= n)%nat ->
  pull JSON_parse n g
  = (remaining JSON_parse (sessionId g) (point g),
     {| sessionId := sessionId g; point := Done |}).
Proof.
  induction n as [|n IH]; intros g Hn.
  - destruct g as [sid p]; destruct p; simpl in *; try lia. reflexivity.
  - simpl. pose proof (next_remaining g) as H.
    destruct (next JSON_parse g) as [[ev|] g'].
    + destruct H as [H1 [H2 H3]]. rewrite (IH g') by lia.
      rewrite H1, H2. reflexivity.
    + destruct H as [H1 H2]. rewrite H1, H2. reflexivity.
Qed.

(** The whole output of the transcoder: start, one data event per line
    that is not skipped, the error event if the stream failed, end. *)
Lemma drain_closed_form (child : ChildProcess) (sid : string) :
  drain JSON_parse (streamClaudeOutput child sid)
  = Start sid
    :: map Data (contents JSON_parse (lines_of (stdout child)))
    ++ closing sid (ending (stdout child)).
Proof.
  unfold drain. rewrite pull_enough by (simpl; lia). reflexivity.
Qed.

(** *** Chunk boundaries that fall on line boundaries *)

Lemma append_assoc (a b c : string) : ((a ++ b) ++ c = a ++ b ++ c)%string.
Proof. induction a as [|x a IH]; simpl; [reflexivity|]. rewrite IH. reflexivity. Qed.

(** The pieces of a text that continues after a newline are the pieces
    before that newline followed by the pieces of the continuation. *)
Lemma split_after_newline (a b : string) :
  exists front : list string,
    front <> []
    /\ split "010" (a ++ nl ++ b) = front ++ split "010" b
    /\ split "010" (a ++ nl) = front ++ [EmptyString].
Proof.
  induction a as [|c a (front & Hne & H1 & H2)].
  - exists [EmptyString]. repeat split. discriminate.
  - cbn [append split]. destruct (Ascii.eqb c "010").
    + exists (EmptyString :: front). rewrite H1, H2. repeat split. discriminate.
    + rewrite H1, H2. destruct front as [|w ws]; [contradiction|].
      exists (String c w :: ws). repeat split. discriminate.
Qed.

Lemma contents_after_newline (a b : string) :
  contents JSON_parse (split "010" (a ++ nl ++ b))
  = contents JSON_parse (split "010" (a ++ nl))
    ++ contents JSON_parse (split "010" b).
Proof.
  destruct (split_after_newline a b) as (front & _ & H1 & H2).
  rewrite H1, H2, !contents_app, <- app_assoc. reflexivity.
Qed.

(** When every chunk but the last ends with a newline, the transcoder
    emits what it emits for the concatenation of the chunks delivered as a
    single chunk. *)
Lemma aligned_chunks_agree (bodies : list string) (last : string) (e : Ending) (sid : string) :
  let cs := map (fun a => (a ++ nl)%string) bodies ++ [last] in
  drain JSON_parse (streamClaudeOutput (child_of cs e) sid)
  = drain JSON_parse
      (streamClaudeOutput (child_of [String.concat EmptyString cs] e) sid).
Proof.
  intros cs. rewrite !drain_closed_form. unfold lines_of.
  cbn [child_of stdout chunks ending].
  f_equal. f_equal. f_equal. subst cs.
  induction bodies as [|a bodies IH]; [reflexivity|].
  cbn [map app flat_map]. rewrite contents_app, IH. cbn [flat_map].
  rewrite !app_nil_r.
  assert (E : String.concat EmptyString
                ((a ++ nl)%string :: map (fun a0 => (a0 ++ nl)%string) bodies ++ [last])
              = (a ++ nl
                 ++ String.concat EmptyString
                      (map (fun a0 => (a0 ++ nl)%string) bodies ++ [last]))%string).
  { destruct bodies; cbn [map app String.concat]; rewrite append_assoc; reflexivity. }
  rewrite E, contents_after_newline. reflexivity.
Qed.

(** *** The order of the events, also when the consumer stops early *)

Lemma next_chunk_cases (sid : string) (e : Ending) (cs : list string) :
  (exists d l r, next_chunk JSON_parse sid cs e = (Data d, InLoop l r))
  \/ next_chunk JSON_parse sid cs e = (End sid, AtEnd)
  \/ (exists m, next_chunk JSON_parse sid cs e = (Error m, AtError)).
Proof.
  induction cs as [|c cs IH]; simpl.
  - destruct e as [|m]; [right; left; reflexivity|right; right; exists m; reflexivity].
  - destruct (next_line JSON_parse (split "010" c)) as [[d rest]|]; [|exact IH].
    left. eexists _, _, _. reflexivity.
Qed.

Lemma resume_loop_cases (sid : string) (lines : list string) (rest : Readable) :
  (exists d l r, resume_loop JSON_parse sid lines rest = (Data d, InLoop l r))
  \/ resume_loop JSON_parse sid lines rest = (End sid, AtEnd)
  \/ (exists m, resume_loop JSON_parse sid lines rest = (Error m, AtError)).
Proof.
  unfold resume_loop. destruct (next_line JSON_parse lines) as [[d ls]|].
  - left. eexists _, _, _. reflexivity.
  - apply next_chunk_cases.
Qed.

Lemma pull_short_done (n : nat) :
  forall g, (length (fst (pull JSON_parse n g)) < n)%nat ->
            point (snd (pull JSON_parse n g)) = Done.
Proof.
  induction n as [|n IH]; intros g H; simpl in *; [lia|].
  destruct (next JSON_parse g) as [[ev|] g'] eqn:E.
  - specialize (IH g'). destruct (pull JSON_parse n g') as [evs g''].
    simpl in *. apply IH. lia.
  - pose proof (next_remaining g) as Hn. rewrite E in Hn.
    destruct Hn as [_ ->]. reflexivity.
Qed.

Lemma pull_at_end (sid : string) (n : nat) :
  fst (pull JSON_parse n {| sessionId := sid; point := AtEnd |}) = []
  /\ (point (snd (pull JSON_parse n {| sessionId := sid; point := AtEnd |})) = AtEnd
      \/ point (snd (pull JSON_parse n {| sessionId := sid; point := AtEnd |})) = Done).
Proof. destruct n; simpl; split; auto. Qed.

(** From a point of the loop, any number of next() calls yields data
    events followed by what the point reached allows. *)
Lemma pull_in_loop (sid : string) (n : nat) :
  forall (lines : list string) (rest : Readable),
    let r := pull JSON_parse n {| sessionId := sid; point := InLoop lines rest |} in
    exists ds tail,
      fst r = map Data ds ++ tail /\ tail_at sid (point (snd r)) tail.
Proof.
  induction n as [|n IH]; intros lines rest; simpl.
  - exists [], []. split; reflexivity.
  - unfold next, yielding; simpl.
    destruct (resume_loop_cases sid lines rest) as [(d & l & r & E)|[E|(m & E)]];
      rewrite E; simpl.
    + destruct (IH l r) as (ds & tail & H1 & H2). simpl in H1, H2.
      destruct (pull JSON_parse n {| sessionId := sid; point := InLoop l r |}) as [evs g'].
      simpl in *. exists (d :: ds), tail. rewrite H1. split; [reflexivity|exact H2].
    + destruct (pull_at_end sid n) as [H1 H2].
      destruct (pull JSON_parse n {| sessionId := sid; point := AtEnd |}) as [evs g'].
      simpl in *. subst evs. exists [], [End sid]. split; [reflexivity|].
      destruct H2 as [-> | ->]; left; reflexivity.
    + destruct n as [|n']; simpl.
      * exists [], [Error m]. split; [reflexivity|]. exists m. reflexivity.
      * unfold next, yielding; simpl.
        destruct (pull_at_end sid n') as [H1 H2].
        destruct (pull JSON_parse n' {| sessionId := sid; point := AtEnd |}) as [evs g'].
        simpl in *. subst evs. exists [], [Error m; End sid]. split; [reflexivity|].
        destruct H2 as [-> | ->]; right; exists m; reflexivity.
Qed.

(** A consumer that receives at least two events before it stops, or
    never stops, gets a well-ordered stream: the end event yielded by the
    finally block closes it. *)
Lemma pull_sessionId (n : nat) :
  forall g, sessionId (snd (pull JSON_parse n g)) = sessionId g.
Proof.
  induction n as [|n IH]; intros g; simpl; [reflexivity|].
  pose proof (next_remaining g) as H.
  destruct (next JSON_parse g) as [[ev|] g'].
  - destruct H as (_ & H & _). specialize (IH g').
    destruct (pull JSON_parse n g'). simpl in *. congruence.
  - destruct H as [_ ->]. reflexivity.
Qed.

Lemma pull_fresh (sid : string) (src : Readable) (n : nat) :
  pull JSON_parse (S (S n)) {| sessionId := sid; point := Fresh src |}
  = (Start sid
       :: fst (pull JSON_parse (S n) {| sessionId := sid; point := InLoop [] src |}),
     snd (pull JSON_parse (S n) {| sessionId := sid; point := InLoop [] src |})).
Proof.
  assert (E : pull JSON_parse (S n) {| sessionId := sid; point := AtStart src |}
              = pull JSON_parse (S n) {| sessionId := sid; point := InLoop [] src |})
    by reflexivity.
  change (pull JSON_parse (S (S n)) {| sessionId := sid; point := Fresh src |})
    with (let (evs, g'') :=
            pull JSON_parse (S n) {| sessionId := sid; point := AtStart src |} in
          (Start sid :: evs, g'')).
  rewrite E.
  destruct (pull JSON_parse (S n) {| sessionId := sid; point := InLoop [] src |}).
  reflexivity.
Qed.

Lemma stopped_after_well_ordered (child : ChildProcess) (sid : string) (k : nat) :
  (2 <= k)%nat ->
  well_ordered sid (stopped_after JSON_parse k (streamClaudeOutput child sid)).
Proof.
  intros Hk. destruct k as [|[|k]]; try lia. clear Hk.
  unfold stopped_after, streamClaudeOutput. rewrite pull_fresh.
  pose proof (pull_short_done (S k) {| sessionId := sid; point := InLoop [] (stdout child) |})
    as Hshort.
  destruct (pull_in_loop sid (S k) [] (stdout child)) as (ds & tail & H1 & H2).
  cbv zeta in H1, H2.
  pose proof (pull_sessionId (S k) {| sessionId := sid; point := InLoop [] (stdout child) |})
    as Hsid.
  destruct (pull JSON_parse (S k) {| sessionId := sid; point := InLoop [] (stdout child) |})
    as [evs g'].
  cbn [fst snd] in *. subst evs. exists ds.
  destruct g' as [sid' p]. cbn [point sessionId] in *. subst sid'.
  destruct (Nat.ltb_spec (length (Start sid :: map Data ds ++ tail)) (S (S k)))
    as [Hlt|Hge].
  - cbn [length] in Hlt. rewrite (Hshort ltac:(lia)) in H2. cbn [tail_at] in H2.
    exists tail. split; [reflexivity|exact H2].
  - destruct p as [src|src|l r| | |]; cbn [tail_at] in H2; try contradiction.
    + subst tail. exists [End sid]. unfold return_, yielding. cbn.
      rewrite app_nil_r. split; [reflexivity|left; reflexivity].
    + destruct H2 as [m ->]. exists [Error m; End sid]. unfold return_, yielding. cbn.
      rewrite <- app_assoc. split; [reflexivity|right; exists m; reflexivity].
    + exists tail. unfold return_, exhausted. cbn. split; [reflexivity|exact H2].
    + exists tail. unfold return_, exhausted. cbn. split; [reflexivity|exact H2].
Qed.

(** A consumer that never stops gets a well-ordered stream. *)
Lemma drain_well_ordered (child : ChildProcess) (sid : string) :
  well_ordered sid (drain JSON_parse (streamClaudeOutput child sid)).
Proof.
  rewrite drain_closed_form. eexists _, _. split; [reflexivity|].
  destruct (ending (stdout child)) as [|m]; [left; reflexivity|right; exists m; reflexivity].
Qed.

End TranscoderFacts.

(** C1 (evaluation at the failing input).  The line with the JSON object
    of type unknown, delivered whole, yields one data event with the parsed
    object; delivered in two chunks that split it after its first comma, it
    yields two data events with the two fragments as plain text. *)
Theorem C1_chunk_boundary_changes_output :
  let first := ("{" ++ dq ++ "type" ++ dq ++ ":" ++ dq ++ "unknown" ++ dq ++ ",")%string in
  let second := (dq ++ "x" ++ dq ++ ":1}" ++ nl)%string in
  drain JSON_parse (streamClaudeOutput (child_of [(first ++ second)%string] Ended) "new")
    = [Start "new";
       Data (JObject [("type", JString "unknown"); ("x", JNumber 1 0)]);
       End "new"]
  /\ drain JSON_parse (streamClaudeOutput (child_of [first; second] Ended) "new")
    = [Start "new";
       Data (JString first);
       Data (JString (dq ++ "x" ++ dq ++ ":1}")%string);
       End "new"].
Proof. split; vm_compute; reflexivity. Qed.

(** C10.  The transcoder reads only child.stdout: its output is the same
    whatever the child writes to standard error, and a child that writes
    nothing to standard output and exits yields exactly start then end. *)
Theorem C10_stderr_is_ignored :
  forall (parse : string -> option JValue) (out err err' : Readable)
         (k k' : bool) (sid : string),
    drain parse (streamClaudeOutput {| stdout := out; stderr := err; killed := k |} sid)
    = drain parse (streamClaudeOutput {| stdout := out; stderr := err'; killed := k' |} sid)
    /\ drain parse
         (streamClaudeOutput
            {| stdout := {| chunks := []; ending := Ended |}; stderr := err; killed := k |} sid)
       = [Start sid; End sid].
Proof.
  intros. split.
  - rewrite !drain_closed_form. reflexivity.
  - rewrite drain_closed_form. reflexivity.
Qed.

(** C4 (evaluation at the failing input).  A consumer that stops on
    receiving the first event closes the generator while it is suspended at
    the yield of start, which no try statement encloses: the finally block
    does not run and the emitted sequence is start alone, which is not a
    stream that ends with end. *)
Theorem C4_stop_after_start_emits_no_end :
  forall (parse : string -> option JValue) (child : ChildProcess) (sid : string),
    stopped_after parse 1 (streamClaudeOutput child sid) = [Start sid]
    /\ ~ well_ordered sid (stopped_after parse 1 (streamClaudeOutput child sid)).
Proof.
  intros parse child sid. split; [reflexivity|].
  intros (ds & tail & E & H). cbn in E. injection E as E.
  destruct ds as [|d ds]; [|discriminate].
  simpl in E. subst tail. destruct H as [H|[m H]]; discriminate.
Qed.

(** C6 (counterexample).  An assistant line whose only content block is a
    text block with the empty string as text has all its blocks plain text
    and no tool invocation, and the transcoder emits a data event carrying
    the whole parsed object for it. *)
Lemma C6_empty_text_block_is_emitted :
  let line := assistant_line "" in
  let data := assistant_value "" in
  let blocks := [JObject [("type", JString "text"); ("text", JString "")]] in
  nonempty (trim line) = true
  /\ JSON_parse (trim line) = Some data
  /\ assistantBlocks data = Some blocks
  /\ forallb isTextBlock blocks = true
  /\ parseLine JSON_parse line = data
  /\ parseLine JSON_parse line <> JNull
  /\ drain JSON_parse (streamClaudeOutput (child_of [(line ++ nl)%string] Ended) "new")
     = [Start "new"; Data data; End "new"].
Proof.
  repeat split; try (vm_compute; reflexivity).
  vm_compute. discriminate.
Qed.

Lemma isTextBlock_get (item : JValue) :
  isTextBlock item = true ->
  exists props x,
    item = JObject props /\ get item "type" = Ok (JString "text")
    /\ get item "text" = Ok x
    /\ carriesText item = truthy x.
Proof.
  destruct item as [| | | | | |items|props]; simpl; try discriminate.
  destruct (lookup "type" props) as [ty|] eqn:Ety; [|discriminate].
  destruct ty; simpl; try discriminate.
  intros H. apply String.eqb_eq in H. subst s.
  destruct (lookup "text" props) as [x|] eqn:Etx.
  - exists props, x. repeat split.
  - exists props, JUndefined. repeat split.
Qed.

Lemma some_isToolUse_text_blocks (items : list JValue) :
  forallb isTextBlock items = true -> some isToolUse items = Ok false.
Proof.
  induction items as [|item rest IH]; simpl; [reflexivity|].
  intros H. apply andb_true_iff in H as [H1 H2].
  destruct (isTextBlock_get item H1) as (props & x & _ & Hty & _ & _).
  unfold isToolUse. rewrite Hty. simpl. exact (IH H2).
Qed.

Lemma some_isText_text_blocks (items : list JValue) :
  forallb isTextBlock items = true ->
  some isText items = Ok (existsb carriesText items).
Proof.
  induction items as [|item rest IH]; simpl; [reflexivity|].
  intros H. apply andb_true_iff in H as [H1 H2].
  destruct (isTextBlock_get item H1) as (props & x & _ & Hty & Htx & Hc).
  unfold isText. rewrite Hty, Htx, Hc. simpl.
  destruct (truthy x); [reflexivity|exact (IH H2)].
Qed.

Lemma extract_plain_text_assistant (data : JValue) (items : list JValue) :
  assistantBlocks data = Some items ->
  forallb isTextBlock items = true ->
  extractTextContent data
  = Ok (if existsb carriesText items then None else Some (ExData data)).
Proof.
  intros Hb Hall. destruct data as [| | | | | | |props]; try discriminate.
  unfold assistantBlocks in Hb.
  destruct (lookup "type" props) as [ty|] eqn:Ety; [|discriminate].
  destruct (lookup "message" props) as [m|] eqn:Em; [|discriminate].
  destruct m as [| | | | | | |mprops]; try discriminate.
  destruct (is_string ty "assistant") eqn:Eas; [|discriminate].
  destruct (lookup "content" mprops) as [c|] eqn:Ec; [|discriminate].
  destruct c as [| | | | | |its|]; try discriminate.
  injection Hb as ->.
  assert (Hse : is_string ty "stream_event" = false).
  { destruct ty; simpl in *; try discriminate.
    apply String.eqb_eq in Eas. subst s. reflexivity. }
  unfold extractTextContent. simpl. rewrite Ety. simpl.
  destruct (lookup "event" props); simpl; rewrite Hse; simpl;
    rewrite Em; simpl; rewrite Eas; simpl; rewrite Ec; simpl;
    rewrite (some_isToolUse_text_blocks _ Hall); simpl;
    rewrite (some_isText_text_blocks _ Hall); simpl;
    destruct (existsb carriesText items); reflexivity.
Qed.

(** C6 (amended).  For every line that parses to an assistant message
    whose content blocks are all plain text and at least one of which
    carries text, parseLine returns null: the line yields no data event,
    whatever lines came before it. *)
Theorem C6_plain_text_assistant_suppressed :
  forall (parse : string -> option JValue) (line : string) (data : JValue)
         (blocks : list JValue) (others : list string),
    nonempty (trim line) = true ->
    parse (trim line) = Some data ->
    assistantBlocks data = Some blocks ->
    forallb isTextBlock blocks = true ->
    existsb carriesText blocks = true ->
    parseLine parse line = JNull
    /\ next_line parse (line :: others) = next_line parse others
    /\ contents parse (line :: others) = contents parse others.
Proof.
  intros parse line data blocks others Hne Hp Hb Hall Hex.
  assert (E : parseLine parse line = JNull).
  { unfold parseLine. rewrite Hne, Hp. simpl.
    rewrite (extract_plain_text_assistant data blocks Hb Hall), Hex. reflexivity. }
  split; [exact E|]. split.
  - simpl. rewrite E. reflexivity.
  - unfold contents. simpl. rewrite E. reflexivity.
Qed.

Lemma C6_plain_text_assistant_suppressed_witness :
  parseLine JSON_parse (assistant_line "hi") = JNull
  /\ next_line JSON_parse [assistant_line "hi"; "plain text"]
     = next_line JSON_parse ["plain text"]
  /\ contents JSON_parse [assistant_line "hi"; "plain text"]
     = contents JSON_parse ["plain text"].
Proof.
  apply (C6_plain_text_assistant_suppressed JSON_parse (assistant_line "hi")
           (assistant_value "hi")
           [JObject [("type", JString "text"); ("text", JString "hi")]]
           ["plain text"]);
    vm_compute; reflexivity.
Defined.

End StreamFacts.

Module LimiterFacts.
Import Limiter.

Section Accounting.

Variables Job T : Type.

Implicit Types (w : World Job T) (e : Event Job T) (es : list (Event Job T)).

Lemma processNext_loop_balanced (q : list (QueuedTask Job)) :
  forall w, balanced w -> balanced (processNext_loop q w).
Proof.
  induction q as [|task rest IH]; intros w Hw; simpl; [exact Hw|].
  destruct (active (limiter w) <? maxConcurrent (limiter w)); [|exact Hw].
  apply IH. destruct Hw as [H1 H2]. unfold balanced; cbn -[Z.of_nat Z.add Z.sub].
  rewrite length_app; cbn -[Z.of_nat Z.add Z.sub]. split; [lia|exact H2].
Qed.

Lemma remove_one_length (id : nat) (l : list nat) :
  existsb (Nat.eqb id) l = true -> length l = S (length (remove_one id l)).
Proof.
  induction l as [|x l IH]; simpl; [discriminate|].
  rewrite (Nat.eqb_sym id x). destruct (Nat.eqb x id); simpl; [reflexivity|].
  intros H. rewrite (IH H). reflexivity.
Qed.

Lemma resumed_length (id : nat) (l : list (nat * Completion T)) (c : Completion T) :
  awaited id l = Some c -> length l = S (length (resumed id l)).
Proof.
  induction l as [|[id' c'] l IH]; simpl; [discriminate|].
  destruct (Nat.eqb id' id); simpl; [reflexivity|].
  intros H. rewrite (IH H). reflexivity.
Qed.

Lemma step_balanced w e w' :
  balanced w -> step w e = Some w' -> balanced w'.
Proof.
  intros (H1 & H2 & H3) Hs. destruct e as [job to now| |id c|id|id|m|to|]; simpl in Hs.
  - injection Hs as <-. unfold run.
    destruct (active (limiter w) <? maxConcurrent (limiter w));
      unfold balanced; cbn -[Z.of_nat Z.add Z.sub]; repeat split; lia.
  - destruct (microtasks w) as [|task rest] eqn:E; [discriminate|].
    injection Hs as <-. unfold balanced; cbn -[Z.of_nat Z.add Z.sub] in *.
    repeat split; lia.
  - destruct (is_running id w) eqn:E; [|discriminate]. injection Hs as <-.
    unfold is_running in E. apply remove_one_length in E.
    unfold balanced; cbn -[Z.of_nat Z.add Z.sub].
    rewrite length_app; cbn -[Z.of_nat Z.add Z.sub]. repeat split; lia.
  - destruct (awaited id (finishing w)) as [c|] eqn:E; [|discriminate].
    injection Hs as <-. unfold afterAwait. apply processNext_loop_balanced.
    apply resumed_length in E.
    unfold balanced; cbn -[Z.of_nat Z.add Z.sub]. repeat split; lia.
  - destruct (armed id (timers w)); [|discriminate]. injection Hs as <-.
    unfold balanced; cbn -[Z.of_nat Z.add Z.sub]. repeat split; assumption.
  - injection Hs as <-. unfold setMaxConcurrent.
    apply processNext_loop_balanced. unfold balanced; cbn -[Z.of_nat Z.add Z.sub].
    repeat split; assumption.
  - injection Hs as <-. unfold balanced; cbn -[Z.of_nat Z.add Z.sub].
    repeat split; assumption.
  - injection Hs as <-. unfold clear.
    destruct (clear_loop (queue (limiter w)) (timers w) (settled w)).
    unfold balanced; cbn -[Z.of_nat Z.add Z.sub]. repeat split; assumption.
Qed.

Lemma exec_balanced es :
  forall w w', balanced w -> exec w es = Some w' -> balanced w'.
Proof.
  induction es as [|e es IH]; intros w w' Hw He; simpl in He.
  - injection He as <-. exact Hw.
  - destruct (step w e) as [w1|] eqn:Hs; [|discriminate].
    exact (IH w1 w' (step_balanced w e w1 Hw Hs) He).
Qed.

(** processNext keeps the capacity, never lowers the counter, and raises
    it only while it is below the capacity. *)
Lemma processNext_loop_capacity (q : list (QueuedTask Job)) :
  forall w,
    maxConcurrent (limiter (processNext_loop q w)) = maxConcurrent (limiter w)
    /\ active (limiter (processNext_loop q w))
       <= Z.max (active (limiter w)) (maxConcurrent (limiter w)).
Proof.
  induction q as [|task rest IH]; intros w; simpl; [split; lia|].
  destruct (Z.ltb_spec (active (limiter w)) (maxConcurrent (limiter w))) as [Hlt|Hge];
    [|split; lia].
  destruct (IH (promote task rest w)) as [A B]. simpl in A, B.
  split; [exact A|lia].
Qed.

Lemma step_capacity w e w' :
  step w e = Some w' ->
  maxConcurrent (limiter w') = capacity_after w e
  /\ active (limiter w') <= Z.max (active (limiter w)) (capacity_after w e).
Proof.
  intros Hs. destruct e as [job to now| |id c|id|id|m|to|]; simpl in Hs; simpl.
  - injection Hs as <-. unfold run.
    destruct (Z.ltb_spec (active (limiter w)) (maxConcurrent (limiter w)));
      simpl; split; lia.
  - destruct (microtasks w); [discriminate|]. injection Hs as <-. simpl. split; lia.
  - destruct (is_running id w); [|discriminate]. injection Hs as <-.
    simpl. split; lia.
  - destruct (awaited id (finishing w)) as [c|]; [|discriminate].
    injection Hs as <-. unfold afterAwait.
    match goal with |- context [processNext ?x] =>
      destruct (processNext_loop_capacity (queue (limiter x)) x) as [A B] end.
    unfold processNext. simpl in *. split; [exact A|lia].
  - destruct (armed id (timers w)); [|discriminate]. injection Hs as <-.
    simpl. split; lia.
  - injection Hs as <-. unfold setMaxConcurrent.
    match goal with |- context [processNext ?x] =>
      destruct (processNext_loop_capacity (queue (limiter x)) x) as [A B] end.
    unfold processNext. simpl in *. split; [exact A|lia].
  - injection Hs as <-. simpl. split; lia.
  - injection Hs as <-. unfold clear.
    destruct (clear_loop (queue (limiter w)) (timers w) (settled w)).
    simpl. split; lia.
Qed.

Lemma peak_ge (es : list (Event Job T)) : forall m, m <= peak m es.
Proof.
  induction es as [|e es IH]; intros m; simpl; [lia|].
  destruct e; try apply IH. lia.
Qed.

Lemma exec_peak es :
  forall w w' bound,
    exec w es = Some w' ->
    active (limiter w) <= bound ->
    active (limiter w') <= Z.max bound (peak (maxConcurrent (limiter w)) es).
Proof.
  induction es as [|e es IH]; intros w w' bound He Hb; simpl in He.
  - injection He as <-. simpl. lia.
  - destruct (step w e) as [w1|] eqn:Hs; [|discriminate].
    destruct (step_capacity w e w1 Hs) as [A B].
    pose proof (IH w1 w' (Z.max bound (capacity_after w e)) He ltac:(lia)) as H.
    rewrite A in H.
    pose proof (peak_ge es (capacity_after w e)) as P.
    destruct e; simpl in *; lia.
Qed.

Lemma exec_never_lowered es :
  forall w w',
    exec w es = Some w' ->
    active (limiter w) <= maxConcurrent (limiter w) ->
    never_lowered (maxConcurrent (limiter w)) es = true ->
    active (limiter w') <= maxConcurrent (limiter w').
Proof.
  induction es as [|e es IH]; intros w w' He Hb Hn; simpl in He.
  - injection He as <-. exact Hb.
  - destruct (step w e) as [w1|] eqn:Hs; [|discriminate].
    destruct (step_capacity w e w1 Hs) as [A B].
    apply (IH w1 w' He).
    + rewrite A. destruct e; simpl in *; lia.
    + rewrite A. destruct e; simpl in *; try exact Hn.
      apply andb_true_iff in Hn as [_ Hn]. exact Hn.
Qed.

End Accounting.

Section Exclusion.

Variables Job T : Type.

Implicit Types (w : World Job T) (e : Event Job T) (q : list (QueuedTask Job)).

Lemma owners_match_tail task q : owners_match (task :: q) -> owners_match q.
Proof. intros H t Ht. apply H. right. exact Ht. Qed.

Lemma promise_state_settle (id id' : nat) (o : Outcome T) (s : list (nat * Outcome T)) :
  promise_state id (settle id' o s)
  = match promise_state id s with
    | Some x => Some x
    | None => if Nat.eqb id id' then Some o else None
    end.
Proof.
  unfold settle. destruct (promise_state id' s) eqn:E.
  - destruct (promise_state id s) eqn:E2; [reflexivity|].
    destruct (Nat.eqb_spec id id'); [subst; congruence|reflexivity].
  - simpl. destruct (Nat.eqb_spec id id') as [->|N].
    + rewrite E. reflexivity.
    + destruct (promise_state id s); reflexivity.
Qed.

Lemma clearTimeout_absent q (t : Timer) :
  owners_match q -> ~ In (owner t) (map resolve q) ->
  clearTimeout t (map timeout q) = map timeout q.
Proof.
  unfold clearTimeout. induction q as [|a q IH]; simpl; intros Ho Hn; [reflexivity|].
  rewrite (Ho a (or_introl eq_refl)).
  destruct (Nat.eqb_spec (resolve a) (owner t)) as [E|E]; simpl.
  - exfalso. apply Hn. left. exact E.
  - f_equal. apply IH; [exact (owners_match_tail a q Ho)|].
    intros H. apply Hn. right. exact H.
Qed.

Lemma clearTimeout_splice q (t : Timer) :
  owners_match q -> NoDup (map resolve q) ->
  clearTimeout t (map timeout q) = map timeout (splice_found (owner t) q).
Proof.
  induction q as [|a q IH]; intros Ho Hn; [reflexivity|].
  simpl in Hn. inversion Hn as [|x l Hx Hl]; subst.
  pose proof (clearTimeout_absent q t (owners_match_tail a q Ho)) as Habs.
  specialize (IH (owners_match_tail a q Ho) Hl).
  unfold clearTimeout in *. simpl.
  rewrite (Ho a (or_introl eq_refl)).
  destruct (Nat.eqb_spec (resolve a) (owner t)) as [E|E]; simpl.
  - apply Habs. rewrite <- E. exact Hx.
  - f_equal. exact IH.
Qed.

Lemma splice_found_subset (id : nat) q task :
  In task (splice_found id q) -> In task q.
Proof.
  induction q as [|a q IH]; simpl; [tauto|].
  destruct (Nat.eqb (resolve a) id); simpl; [tauto|].
  intros [H|H]; [left; exact H|right; exact (IH H)].
Qed.

Lemma splice_found_ids (id x : nat) q :
  In x (map resolve (splice_found id q)) -> In x (map resolve q).
Proof.
  intros H. apply in_map_iff in H as (task & E & Ht).
  apply in_map_iff. exists task. split; [exact E|exact (splice_found_subset id q task Ht)].
Qed.

Lemma splice_found_nodup (id : nat) q :
  NoDup (map resolve q) -> NoDup (map resolve (splice_found id q)).
Proof.
  induction q as [|a q IH]; simpl; intros Hn; [exact Hn|].
  inversion Hn as [|x l Hx Hl]; subst.
  destruct (Nat.eqb (resolve a) id); simpl; [exact Hl|].
  constructor; [|exact (IH Hl)].
  intros H. apply Hx. exact (splice_found_ids id _ q H).
Qed.

Lemma splice_found_removed (id : nat) q :
  NoDup (map resolve q) -> ~ In id (map resolve (splice_found id q)).
Proof.
  induction q as [|a q IH]; simpl; intros Hn; [tauto|].
  inversion Hn as [|x l Hx Hl]; subst.
  destruct (Nat.eqb_spec (resolve a) id) as [E|E]; simpl.
  - rewrite <- E. exact Hx.
  - intros [H|H]; [exact (E H)|exact (IH Hl H)].
Qed.

Lemma splice_found_length (id : nat) q :
  In id (map resolve q) -> length q = S (length (splice_found id q)).
Proof.
  induction q as [|a q IH]; simpl; [tauto|].
  destruct (Nat.eqb_spec (resolve a) id) as [E|E]; simpl; [reflexivity|].
  intros [H|H]; [contradiction|]. rewrite (IH H). reflexivity.
Qed.

Lemma armed_owner (id : nat) (ts : list Timer) (t : Timer) :
  armed id ts = Some t -> In t ts /\ owner t = id.
Proof.
  induction ts as [|a ts IH]; simpl; [discriminate|].
  destruct (Nat.eqb_spec (owner a) id) as [E|E].
  - intros H. injection H as <-. split; [left; reflexivity|exact E].
  - intros H. destruct (IH H) as [H1 H2]. split; [right; exact H1|exact H2].
Qed.

Lemma armed_queued q task :
  owners_match q -> NoDup (map resolve q) -> In task q ->
  armed (resolve task) (map timeout q) = Some (timeout task).
Proof.
  induction q as [|a q IH]; simpl; intros Ho Hn Hin; [contradiction|].
  inversion Hn as [|x l Hx Hl]; subst.
  rewrite (Ho a (or_introl eq_refl)).
  destruct (Nat.eqb_spec (resolve a) (resolve task)) as [E|E].
  - destruct Hin as [->|Hin]; [reflexivity|].
    exfalso. apply Hx. rewrite E. apply in_map. exact Hin.
  - destruct Hin as [->|Hin]; [contradiction|].
    exact (IH (owners_match_tail a q Ho) Hl Hin).
Qed.

Lemma clear_loop_timers q :
  forall (ts : list Timer) (s : list (nat * Outcome T)),
    owners_match q ->
    (forall t, In t ts -> In (owner t) (map resolve q)) ->
    fst (clear_loop q ts s) = [].
Proof.
  induction q as [|a q IH]; intros ts s Ho Hts; simpl.
  - destruct ts as [|t ts]; [reflexivity|]. destruct (Hts t (or_introl eq_refl)).
  - apply IH; [exact (owners_match_tail a q Ho)|].
    intros t Ht. unfold clearTimeout in Ht. apply filter_In in Ht as [Ht Hne].
    destruct (Hts t Ht) as [E|H]; [|exact H].
    rewrite (Ho a (or_introl eq_refl)), E, Nat.eqb_refl in Hne. discriminate.
Qed.

Lemma clear_loop_settled q :
  forall (ts : list Timer) (s : list (nat * Outcome T)) (id : nat),
    promise_state id (snd (clear_loop q ts s))
    = match promise_state id s with
      | Some o => Some o
      | None =>
          if existsb (Nat.eqb id) (map resolve q)
          then Some (Rejected ShutdownError) else None
      end.
Proof.
  induction q as [|a q IH]; intros ts s id; simpl.
  - destruct (promise_state id s); reflexivity.
  - rewrite IH, promise_state_settle.
    destruct (promise_state id s); [reflexivity|].
    destruct (Nat.eqb id (resolve a)); simpl; [reflexivity|].
    destruct (existsb (Nat.eqb id) (map resolve q)); reflexivity.
Qed.

Lemma processNext_loop_settled q :
  forall w,
    settled (processNext_loop q w) = settled w
    /\ fresh (processNext_loop q w) = fresh w
    /\ invoked (processNext_loop q w) = invoked w
    /\ running (processNext_loop q w) = running w.
Proof.
  induction q as [|task rest IH]; intros w; simpl; [repeat split|].
  destruct (active (limiter w) <? maxConcurrent (limiter w)); [|repeat split].
  destruct (IH (promote task rest w)) as (A & B & C & D). simpl in *.
  repeat split; assumption.
Qed.

(** *** well_formed is an invariant *)

Lemma constructor_well_formed (max0 timeout0 : Z) :
  well_formed (constructor Job T max0 timeout0).
Proof.
  constructor; unfold is_queued, was_invoked; simpl.
  - reflexivity.
  - intros task [].
  - constructor.
  - intros i [].
  - intros i [H|[H|H]]; [congruence|contradiction|contradiction].
  - intros i [].
  - intros i [].
Qed.

Lemma promote_well_formed w task rest :
  well_formed w -> queue (limiter w) = task :: rest ->
  well_formed (promote task rest w).
Proof.
  intros [W1 W2 W3 W4 W5 W6 W7] Hq. rewrite Hq in *.
  simpl in W3. inversion W3 as [|x l Hx Hl]; subst.
  assert (Hhead : is_queued (resolve task) w).
  { unfold is_queued. rewrite Hq. left. reflexivity. }
  assert (Htail : forall id, In id (map resolve rest) -> is_queued id w /\ id <> resolve task).
  { intros id H. split; [unfold is_queued; rewrite Hq; right; exact H|].
    intros ->. exact (Hx H). }
  constructor; unfold is_queued, was_invoked in *; simpl.
  - rewrite W1. simpl. unfold clearTimeout; simpl.
    rewrite Nat.eqb_refl; simpl.
    apply (clearTimeout_absent rest (timeout task) (owners_match_tail task rest W2)).
    rewrite (W2 task (or_introl eq_refl)). exact Hx.
  - intros t Ht. apply W2. right. exact Ht.
  - exact Hl.
  - intros id H. destruct (Htail id H) as [Hqd Hne].
    destruct (W4 id Hqd) as (A & B & C & D). repeat split; try assumption.
    rewrite map_app, in_app_iff. simpl. intros [H1|[H1|[]]]; [exact (C H1)|].
    apply Hne. symmetry. exact H1.
  - intros id [H|[H|H]]; [apply W5; left; exact H| |apply W5; right; right; exact H].
    rewrite map_app, in_app_iff in H. simpl in H.
    destruct H as [H|[<-|[]]]; [apply W5; right; left; exact H|].
    exact (proj1 (W4 _ Hhead)).
  - exact W6.
  - exact W7.
Qed.

Lemma processNext_loop_well_formed q :
  forall w, queue (limiter w) = q -> well_formed w ->
            well_formed (processNext_loop q w).
Proof.
  induction q as [|task rest IH]; intros w Hq Hw; simpl; [exact Hw|].
  destruct (active (limiter w) <? maxConcurrent (limiter w)); [|exact Hw].
  apply IH; [reflexivity|]. exact (promote_well_formed w task rest Hw Hq).
Qed.

Lemma processNext_well_formed w : well_formed w -> well_formed (processNext w).
Proof. intros Hw. exact (processNext_loop_well_formed _ w eq_refl Hw). Qed.

Lemma NoDup_snoc (l : list nat) (x : nat) :
  NoDup l -> ~ In x l -> NoDup (l ++ [x]).
Proof.
  induction l as [|a l IH]; simpl; intros Hn Hx.
  - constructor; [tauto|constructor].
  - inversion Hn as [|y l' Hy Hl]; subst. constructor.
    + rewrite in_app_iff. simpl. intros [H|[H|[]]]; [exact (Hy H)|].
      apply Hx. left. symmetry. exact H.
    + apply IH; [exact Hl|]. intros H. apply Hx. right. exact H.
Qed.

Lemma in_running (id : nat) (l : list nat) :
  existsb (Nat.eqb id) l = true -> In id l.
Proof.
  intros H. apply existsb_exists in H as (x & Hx & E).
  apply Nat.eqb_eq in E. subst. exact Hx.
Qed.

Lemma remove_one_subset (id x : nat) (l : list nat) :
  In x (remove_one id l) -> In x l.
Proof.
  induction l as [|a l IH]; simpl; [tauto|].
  destruct (Nat.eqb a id); simpl; [tauto|].
  intros [H|H]; [left; exact H|right; exact (IH H)].
Qed.

Lemma awaited_in (id : nat) (l : list (nat * Completion T)) (c : Completion T) :
  awaited id l = Some c -> In id (map fst l).
Proof.
  induction l as [|[id' c'] l IH]; simpl; [discriminate|].
  destruct (Nat.eqb_spec id' id) as [->|N]; [left; reflexivity|].
  intros H. right. exact (IH H).
Qed.

Lemma resumed_subset (id x : nat) (l : list (nat * Completion T)) :
  In x (map fst (resumed id l)) -> In x (map fst l).
Proof.
  induction l as [|[id' c'] l IH]; simpl; [tauto|].
  destruct (Nat.eqb id' id); simpl; [tauto|].
  intros [H|H]; [left; exact H|right; exact (IH H)].
Qed.

Lemma step_well_formed w e w' :
  well_formed w -> step w e = Some w' -> well_formed w'.
Proof.
  intros Hw Hs. destruct e as [job to now| |id c|id|id|m|to|]; simpl in Hs.
  - (* run *)
    injection Hs as <-. destruct Hw as [W1 W2 W3 W4 W5 W6 W7]. unfold run.
    destruct (active (limiter w) <? maxConcurrent (limiter w)).
    + constructor; unfold is_queued, was_invoked in *; simpl; try assumption.
      * intros id H. destruct (W4 id H) as (A & B & C & D).
        repeat split; try assumption; [lia|]. intros [E|E]; [lia|exact (D E)].
      * intros id [H|[H|[H|H]]];
          [pose proof (W5 id (or_introl H))
          |pose proof (W5 id (or_intror (or_introl H)))
          |
          |pose proof (W5 id (or_intror (or_intror H)))]; lia.
      * intros id [H|H]; [left; exact H|right; exact (W6 id H)].
      * intros id H. right. exact (W7 id H).
    + assert (Hnew : ~ In (fresh w) (map resolve (queue (limiter w)))).
      { intros H. pose proof (proj1 (W4 _ H)). lia. }
      constructor; unfold is_queued, was_invoked in *; simpl.
      * rewrite W1, map_app. reflexivity.
      * intros t Ht. apply in_app_iff in Ht as [Ht|[<-|[]]]; [exact (W2 t Ht)|reflexivity].
      * rewrite map_app. simpl. exact (NoDup_snoc _ _ W3 Hnew).
      * intros id H. rewrite map_app, in_app_iff in H. simpl in H.
        destruct H as [H|[<-|[]]].
        -- destruct (W4 id H) as (A & B & C & D). repeat split; try assumption. lia.
        -- repeat split; [lia| | |].
           ++ destruct (promise_state (fresh w) (settled w)) eqn:E; [|reflexivity].
              assert (fresh w < fresh w)%nat; [|lia].
              apply W5. left. congruence.
           ++ intros H. assert (fresh w < fresh w)%nat; [|lia].
              apply W5. right. left. exact H.
           ++ intros H. assert (fresh w < fresh w)%nat; [|lia].
              apply W5. right. right. exact H.
      * intros id H. pose proof (W5 id H). lia.
      * exact W6.
      * exact W7.
  - (* the then-callback of a promoted task *)
    destruct (microtasks w) as [|task rest] eqn:E; [discriminate|].
    injection Hs as <-. destruct Hw as [W1 W2 W3 W4 W5 W6 W7].
    rewrite E in *.
    constructor; unfold is_queued, was_invoked in *; simpl in *; try assumption.
    + intros id H. destruct (W4 id H) as (A & B & C & D).
      repeat split; try assumption; [tauto|]. intros [F|F]; [|exact (D F)].
      apply C. left. exact F.
    + intros id [H|[H|[H|H]]]; apply W5; tauto.
    + intros id [H|H]; [left; exact H|right; exact (W6 id H)].
    + intros id H. right. exact (W7 id H).
  - (* a job body ends *)
    destruct (is_running id w) eqn:E; [|discriminate]. injection Hs as <-.
    destruct Hw as [W1 W2 W3 W4 W5 W6 W7]. unfold is_running in E.
    apply in_running in E. pose proof (W6 id E) as Hinv.
    constructor; unfold is_queued, was_invoked in *; simpl; try assumption.
    + intros id' H. apply W6. exact (remove_one_subset id id' _ H).
    + intros id' H. rewrite map_app, in_app_iff in H. simpl in H.
      destruct H as [H|[<-|[]]]; [exact (W7 id' H)|exact Hinv].
  - (* the code awaiting an ended body resumes *)
    destruct (awaited id (finishing w)) as [c|] eqn:E; [|discriminate].
    injection Hs as <-.
    unfold afterAwait. apply processNext_well_formed.
    destruct Hw as [W1 W2 W3 W4 W5 W6 W7].
    pose proof (W7 id (awaited_in id _ c E)) as Hinv.
    constructor; unfold is_queued, was_invoked in *; simpl; try assumption.
    + intros id' H. destruct (W4 id' H) as (A & B & C & D).
      repeat split; try assumption.
      rewrite promise_state_settle, B.
      destruct (Nat.eqb_spec id' id) as [->|N]; [contradiction|reflexivity].
    + intros id' [H|[H|H]]; [|apply W5; tauto|apply W5; tauto].
      rewrite promise_state_settle in H.
      destruct (promise_state id' (settled w)) eqn:F; [apply W5; left; congruence|].
      destruct (Nat.eqb_spec id' id) as [->|N]; [|congruence].
      apply W5. right. right. exact Hinv.
    + intros id' H. apply W7. exact (resumed_subset id id' _ H).
  - (* a timer fires *)
    destruct (armed id (timers w)) as [t|] eqn:E; [|discriminate].
    injection Hs as <-. destruct Hw as [W1 W2 W3 W4 W5 W6 W7].
    apply armed_owner in E as [Hin Hown]. rewrite W1 in Hin.
    apply in_map_iff in Hin as (task & Et & Hin).
    assert (Hq : is_queued (owner t) w).
    { unfold is_queued. rewrite <- Et, (W2 task Hin). apply in_map. exact Hin. }
    constructor; unfold is_queued, was_invoked in *; simpl; try assumption.
    + rewrite W1. apply clearTimeout_splice; assumption.
    + intros t' Ht'. apply W2. exact (splice_found_subset _ _ _ Ht').
    + apply splice_found_nodup. exact W3.
    + intros id' H. pose proof (splice_found_removed (owner t) _ W3) as Hrm.
      destruct (W4 id' (splice_found_ids _ _ _ H)) as (A & B & C & D).
      repeat split; try assumption.
      rewrite promise_state_settle, B.
      destruct (Nat.eqb_spec id' (owner t)) as [->|N]; [contradiction|reflexivity].
    + intros id' [H|[H|H]]; [|apply W5; tauto|apply W5; tauto].
      rewrite promise_state_settle in H.
      destruct (promise_state id' (settled w)) eqn:F; [apply W5; left; congruence|].
      destruct (Nat.eqb_spec id' (owner t)) as [->|N]; [|congruence].
      exact (proj1 (W4 _ Hq)).
  - (* setMaxConcurrent *)
    injection Hs as <-. unfold setMaxConcurrent. apply processNext_well_formed.
    destruct Hw as [W1 W2 W3 W4 W5 W6 W7]. constructor; assumption.
  - (* setDefaultTimeout *)
    injection Hs as <-. destruct Hw as [W1 W2 W3 W4 W5 W6 W7]. constructor; assumption.
  - (* clear *)
    injection Hs as <-. destruct Hw as [W1 W2 W3 W4 W5 W6 W7]. unfold clear.
    pose proof (clear_loop_timers (queue (limiter w)) (timers w) (settled w) W2) as Ht.
    pose proof (clear_loop_settled (queue (limiter w)) (timers w) (settled w)) as Hst.
    destruct (clear_loop (queue (limiter w)) (timers w) (settled w)) as [ts s'].
    simpl in Ht, Hst.
    constructor; unfold is_queued, was_invoked in *; simpl; try assumption.
    + apply Ht. intros t H. rewrite W1 in H.
      apply in_map_iff in H as (task & Et & Hin).
      rewrite <- Et, (W2 task Hin). apply in_map. exact Hin.
    + tauto.
    + constructor.
    + tauto.
    + intros id [H|[H|H]]; [|apply W5; tauto|apply W5; tauto].
      rewrite Hst in H.
      destruct (promise_state id (settled w)) eqn:F; [apply W5; left; congruence|].
      destruct (existsb (Nat.eqb id) (map resolve (queue (limiter w)))) eqn:G;
        [|congruence].
      apply in_running in G. exact (proj1 (W4 id G)).
Qed.

Lemma exec_well_formed (es : list (Event Job T)) :
  forall w w', well_formed w -> exec w es = Some w' -> well_formed w'.
Proof.
  induction es as [|e es IH]; intros w w' Hw He; simpl in He.
  - injection He as <-. exact Hw.
  - destruct (step w e) as [w1|] eqn:Hs; [|discriminate].
    exact (IH w1 w' (step_well_formed w e w1 Hw Hs) He).
Qed.

(** *** A promise that is gone stays gone *)

Lemma processNext_loop_gone (id : nat) q :
  forall w, queue (limiter w) = q -> gone id w -> gone id (processNext_loop q w).
Proof.
  induction q as [|task rest IH]; intros w Hq Hg; simpl; [exact Hg|].
  destruct (active (limiter w) <? maxConcurrent (limiter w)); [|exact Hg].
  apply IH; [reflexivity|].
  destruct Hg as (A & B & C & D). unfold gone, is_queued, was_invoked in *.
  rewrite Hq in B. simpl in *. repeat split; try assumption.
  - intros H. apply B. right. exact H.
  - rewrite map_app, in_app_iff. simpl. intros [H|[H|[]]]; [exact (C H)|].
    apply B. left. exact H.
Qed.

Lemma step_gone (id : nat) w e w' :
  gone id w -> step w e = Some w' -> gone id w'.
Proof.
  intros Hg Hs. destruct e as [job to now| |id' c|id'|id'|m|to|]; simpl in Hs.
  - injection Hs as <-. destruct Hg as (A & B & C & D). unfold run.
    destruct (active (limiter w) <? maxConcurrent (limiter w));
      unfold gone, is_queued, was_invoked in *; simpl; repeat split;
      try assumption; try lia.
    + intros [H|H]; [lia|exact (D H)].
    + rewrite map_app, in_app_iff. simpl. intros [H|[H|[]]]; [exact (B H)|lia].
  - destruct (microtasks w) as [|task rest] eqn:E; [discriminate|].
    injection Hs as <-. destruct Hg as (A & B & C & D).
    unfold gone, is_queued, was_invoked in *; rewrite E in C; simpl in *.
    repeat split; try assumption; [tauto|]. intros [H|H]; [|exact (D H)].
    apply C. left. exact H.
  - destruct (is_running id' w); [|discriminate]. injection Hs as <-.
    destruct Hg as (A & B & C & D). unfold gone, is_queued, was_invoked in *.
    simpl. repeat split; assumption.
  - destruct (awaited id' (finishing w)) as [c|]; [|discriminate].
    injection Hs as <-.
    unfold afterAwait. apply processNext_loop_gone; [reflexivity|].
    destruct Hg as (A & B & C & D). unfold gone, is_queued, was_invoked in *.
    simpl. repeat split; assumption.
  - destruct (armed id' (timers w)) as [t|]; [|discriminate]. injection Hs as <-.
    destruct Hg as (A & B & C & D). unfold gone, is_queued, was_invoked in *.
    simpl. repeat split; try assumption.
    intros H. apply B. exact (splice_found_ids _ _ _ H).
  - injection Hs as <-. unfold setMaxConcurrent.
    apply processNext_loop_gone; [reflexivity|].
    destruct Hg as (A & B & C & D). unfold gone, is_queued, was_invoked in *.
    simpl. repeat split; assumption.
  - injection Hs as <-. destruct Hg as (A & B & C & D).
    unfold gone, is_queued, was_invoked in *. simpl. repeat split; assumption.
  - injection Hs as <-. destruct Hg as (A & B & C & D). unfold clear.
    destruct (clear_loop (queue (limiter w)) (timers w) (settled w)).
    unfold gone, is_queued, was_invoked in *. simpl. repeat split; try assumption.
    tauto.
Qed.

Lemma exec_gone (id : nat) (es : list (Event Job T)) :
  forall w w', gone id w -> exec w es = Some w' -> gone id w'.
Proof.
  induction es as [|e es IH]; intros w w' Hg He; simpl in He.
  - injection He as <-. exact Hg.
  - destruct (step w e) as [w1|] eqn:Hs; [|discriminate].
    exact (IH w1 w' (step_gone id w e w1 Hg Hs) He).
Qed.

(** *** A settled promise keeps its outcome *)

Lemma step_settled_kept (id : nat) (o : Outcome T) w e w' :
  promise_state id (settled w) = Some o -> step w e = Some w' ->
  promise_state id (settled w') = Some o.
Proof.
  intros Hp Hs. destruct e as [job to now| |id' c|id'|id'|m|to|]; simpl in Hs.
  - injection Hs as <-. unfold run.
    destruct (active (limiter w) <? maxConcurrent (limiter w)); exact Hp.
  - destruct (microtasks w); [discriminate|]. injection Hs as <-. exact Hp.
  - destruct (is_running id' w); [|discriminate]. injection Hs as <-. exact Hp.
  - destruct (awaited id' (finishing w)) as [c|]; [|discriminate].
    injection Hs as <-.
    unfold afterAwait, processNext.
    rewrite (proj1 (processNext_loop_settled _ _)). simpl.
    rewrite promise_state_settle, Hp. reflexivity.
  - destruct (armed id' (timers w)); [|discriminate]. injection Hs as <-.
    simpl. rewrite promise_state_settle, Hp. reflexivity.
  - injection Hs as <-. unfold setMaxConcurrent, processNext.
    rewrite (proj1 (processNext_loop_settled _ _)). exact Hp.
  - injection Hs as <-. exact Hp.
  - injection Hs as <-. unfold clear.
    pose proof (clear_loop_settled (queue (limiter w)) (timers w) (settled w) id) as H.
    destruct (clear_loop (queue (limiter w)) (timers w) (settled w)).
    simpl in *. rewrite H, Hp. reflexivity.
Qed.

Lemma exec_settled_kept (id : nat) (o : Outcome T) (es : list (Event Job T)) :
  forall w w', promise_state id (settled w) = Some o -> exec w es = Some w' ->
               promise_state id (settled w') = Some o.
Proof.
  induction es as [|e es IH]; intros w w' Hp He; simpl in He.
  - injection He as <-. exact Hp.
  - destruct (step w e) as [w1|] eqn:Hs; [|discriminate].
    exact (IH w1 w' (step_settled_kept id o w e w1 Hp Hs) He).
Qed.

(** *** The timer of a queued task *)

(** What a timer callback does to a well-formed world in which its task
    is queued. *)
Lemma timerCallback_queued w task :
  well_formed w -> In task (queue (limiter w)) ->
  let w' := timerCallback (timeout task) w in
  step w (TimerFires (resolve task)) = Some w'
  /\ promise_state (resolve task) (settled w')
     = Some (Rejected (TimeoutError (delay (timeout task))))
  /\ gone (resolve task) w'
  /\ length (queue (limiter w)) = S (length (queue (limiter w'))).
Proof.
  intros [W1 W2 W3 W4 W5 W6 W7] Hin.
  assert (Hq : is_queued (resolve task) w) by (apply in_map; exact Hin).
  destruct (W4 _ Hq) as (A & B & C & D).
  pose proof (W2 task Hin) as Ho. simpl.
  split; [|split; [|split]].
  - rewrite W1, (armed_queued _ task W2 W3 Hin). reflexivity.
  - simpl. rewrite Ho, promise_state_settle, B, Nat.eqb_refl. reflexivity.
  - unfold gone, is_queued, was_invoked in *. simpl. rewrite Ho.
    repeat split; try assumption. exact (splice_found_removed _ _ W3).
  - simpl. rewrite Ho. exact (splice_found_length _ _ Hq).
Qed.




(** *** Rejection by the timer excludes execution *)

Lemma step_exclusive w e w' :
  well_formed w -> exclusive w -> step w e = Some w' -> exclusive w'.
Proof.
  intros Hw Hx Hs id t Hp.
  assert (Hold : promise_state id (settled w) = Some (Rejected (TimeoutError t))
                 -> gone id w').
  { intros H. exact (step_gone id w e w' (Hx id t H) Hs). }
  destruct e as [job to now| |id' c|id'|id'|m|to|]; simpl in Hs.
  - injection Hs as <-. apply Hold. unfold run in Hp.
    destruct (active (limiter w) <? maxConcurrent (limiter w)); exact Hp.
  - destruct (microtasks w); [discriminate|]. injection Hs as <-. exact (Hold Hp).
  - destruct (is_running id' w) eqn:E; [|discriminate]. injection Hs as <-.
    exact (Hold Hp).
  - destruct (awaited id' (finishing w)) as [c|] eqn:E; [|discriminate].
    injection Hs as <-.
    apply Hold. unfold afterAwait, processNext in Hp.
    rewrite (proj1 (processNext_loop_settled _ _)) in Hp. simpl in Hp.
    rewrite promise_state_settle in Hp.
    destruct (promise_state id (settled w)); [exact Hp|].
    destruct (Nat.eqb id id'); [|discriminate].
    destruct c; discriminate.
  - destruct (armed id' (timers w)) as [tm|] eqn:E; [|discriminate].
    pose proof Hs as Hs'. injection Hs as <-. simpl in Hp.
    rewrite promise_state_settle in Hp.
    destruct (promise_state id (settled w)) eqn:F; [apply Hold; exact Hp|].
    destruct (Nat.eqb_spec id (owner tm)) as [->|N]; [|discriminate].
    apply armed_owner in E as [Hin Hown].
    pose proof Hw as [W1 W2 _ _ _ _ _].
    rewrite W1 in Hin. apply in_map_iff in Hin as (task & Et & Hin).
    destruct (timerCallback_queued w task Hw Hin) as (_ & _ & G & _).
    simpl in G. rewrite <- (W2 task Hin), Et in G. exact G.
  - injection Hs as <-. apply Hold. unfold setMaxConcurrent, processNext in Hp.
    rewrite (proj1 (processNext_loop_settled _ _)) in Hp. exact Hp.
  - injection Hs as <-. exact (Hold Hp).
  - injection Hs as <-. apply Hold. unfold clear in Hp.
    pose proof (clear_loop_settled (queue (limiter w)) (timers w) (settled w) id) as H.
    destruct (clear_loop (queue (limiter w)) (timers w) (settled w)).
    simpl in *. rewrite H in Hp.
    destruct (promise_state id (settled w)); [exact Hp|].
    destruct (existsb (Nat.eqb id) (map resolve (queue (limiter w)))); discriminate.
Qed.

Lemma exec_exclusive (es : list (Event Job T)) :
  forall w w', well_formed w -> exclusive w -> exec w es = Some w' -> exclusive w'.
Proof.
  induction es as [|e es IH]; intros w w' Hw Hx He; simpl in He.
  - injection He as <-. exact Hx.
  - destruct (step w e) as [w1|] eqn:Hs; [|discriminate].
    exact (IH w1 w' (step_well_formed w e w1 Hw Hs) (step_exclusive w e w1 Hw Hx Hs) He).
Qed.

(** In every state the limiter reaches, a promise rejected by its timer
    belongs to a job that was never called. *)
Lemma timeout_excludes_execution (max0 timeout0 : Z) (es : list (Event Job T)) w :
  exec (constructor Job T max0 timeout0) es = Some w ->
  forall id t,
    promise_state id (settled w) = Some (Rejected (TimeoutError t)) ->
    ~ was_invoked id w.
Proof.
  intros He id t Hp.
  assert (Hx : exclusive w).
  { apply (exec_exclusive es (constructor Job T max0 timeout0) w);
      [apply constructor_well_formed| |exact He].
    intros i t' H. simpl in H. discriminate. }
  exact (proj2 (proj2 (proj2 (Hx id t Hp)))).
Qed.

End Exclusion.

(** C2 (counterexample).  The counter is not the number of bodies
    started minus the number finished, and it can exceed the capacity.
    With capacity 1, two calls of run() leave one job running and one
    queued; setMaxConcurrent(2) promotes the queued task, whose body is only
    scheduled, and setMaxConcurrent(1) lowers the capacity under the two
    occupied slots: the counter is then 2, while one body has started and
    none has finished, and the capacity is 1.  And when the body of a job
    has ended, the finally block that decrements the counter runs in a
    later microtask: until then the counter is 1 while one body has started
    and one has finished. *)
Lemma C2_active_differs_from_started_minus_finished :
  (exists w : World unit unit,
      exec (constructor unit unit 1 120000)
        [Run tt None 0; Run tt None 5; SetMaxConcurrent 2; SetMaxConcurrent 1] = Some w
      /\ active (limiter w) = 2
      /\ started w - finished w = 1
      /\ maxConcurrent (limiter w) = 1
      /\ active (limiter w) <> started w - finished w
      /\ ~ active (limiter w) <= maxConcurrent (limiter w))
  /\ (exists w : World unit unit,
        exec (constructor unit unit 1 120000)
          [Run tt None 0; BodyEnds 0 (Returned tt)] = Some w
        /\ active (limiter w) = 1
        /\ started w = 1
        /\ finished w = 1
        /\ scheduled w = 0
        /\ active (limiter w) <> started w - finished w).
Proof.
  split.
  - eexists. split; [reflexivity|]. vm_compute.
    repeat split; try discriminate. intros H; apply H; reflexivity.
  - eexists. split; [reflexivity|]. vm_compute.
    repeat split; discriminate.
Qed.

(** C2 (amended).  At every state the limiter reaches from its
    construction with a non-negative capacity, the active counter equals
    the number of job bodies started, plus the number of promoted tasks
    whose body is scheduled and has not started, minus the number of
    finally blocks that have run, which is the number of job bodies
    finished (by resolution or rejection) minus the number of those whose
    finally block has not run yet; it is never negative; it never exceeds
    the largest capacity configured so far; and it never exceeds the current
    capacity when no setMaxConcurrent lowered it. *)
Theorem C2_active_accounting :
  forall (Job T : Type) (max0 timeout0 : Z) (es : list (Event Job T)) (w : World Job T),
    0 <= max0 ->
    exec (constructor Job T max0 timeout0) es = Some w ->
    active (limiter w) = started w + scheduled w - (finished w - unreleased w)
    /\ 0 <= unreleased w <= finished w
    /\ 0 <= active (limiter w)
    /\ active (limiter w) <= peak max0 es
    /\ (never_lowered max0 es = true ->
        active (limiter w) <= maxConcurrent (limiter w)).
Proof.
  intros Job T max0 timeout0 es w Hmax He.
  assert (Hb : balanced w).
  { apply (exec_balanced Job T es (constructor Job T max0 timeout0) w); [|exact He].
    unfold balanced; simpl. repeat split; lia. }
  destruct Hb as (H1 & H2 & H3). unfold started, scheduled, finished, unreleased.
  split; [lia|]. split; [lia|]. split; [lia|]. split.
  - pose proof (exec_peak Job T es (constructor Job T max0 timeout0) w 0 He ltac:(simpl; lia)) as H.
    pose proof (peak_ge Job T es max0). simpl in H. lia.
  - intros Hn.
    apply (exec_never_lowered Job T es (constructor Job T max0 timeout0) w He);
      simpl; [lia|exact Hn].
Qed.

Lemma C2_active_accounting_witness :
  let w := bodyEnded 0 (Threw "boom")
             (startPromoted
                {| execute := tt; resolve := 1;
                   timeout := {| owner := 1; delay := 120000 |}; timestamp := 5 |} []
                (setMaxConcurrent 2
                   (run tt None 5 (run tt None 0 (constructor unit unit 1 120000))))) in
  active (limiter w) = started w + scheduled w - (finished w - unreleased w)
  /\ 0 <= unreleased w <= finished w
  /\ 0 <= active (limiter w)
  /\ active (limiter w) <= 2
  /\ (true = true -> active (limiter w) <= maxConcurrent (limiter w)).
Proof.
  apply (C2_active_accounting unit unit 1 120000
           [Run tt None 0; Run tt None 5; SetMaxConcurrent 2; Microtask;
            BodyEnds 0 (Threw "boom")]).
  - lia.
  - reflexivity.
Defined.



End LimiterFacts.

Module ChatFacts.
Import Js Permission Stream Chat ChatRules Samples StreamFacts.

Section HandlerFacts.

Variable JSON_parse : string -> option JValue.

Lemma forAwait_finishes (env : Environment) (fuel : nat) :
  forall (g : Generator) (i : nat),
    (calls_bound (point g) < fuel)%nat ->
    snd (fst (forAwait JSON_parse env fuel g i)) <> Unfinished.
Proof.
  induction fuel as [|fuel IH]; intros g i Hb; [lia|].
  simpl. pose proof (next_remaining JSON_parse g) as H.
  destruct (next JSON_parse g) as [[ev|] g']; [|simpl; discriminate].
  destruct H as (_ & _ & Hlt).
  destruct (writableEnded env i); [simpl; discriminate|].
  destruct (writeThrows env i); [simpl; discriminate|].
  specialize (IH g' (S i) ltac:(lia)).
  destruct (forAwait JSON_parse env fuel g' (S i)) as [[effects e] n].
  simpl in *. exact IH.
Qed.

Lemma forAwait_writes (env : Environment) (fuel : nat) :
  forall (g : Generator) (i : nat),
    forallb isWrite (fst (fst (forAwait JSON_parse env fuel g i))) = true.
Proof.
  induction fuel as [|fuel IH]; intros g i; [reflexivity|].
  simpl. destruct (next JSON_parse g) as [[ev|] g']; [|reflexivity].
  destruct (writableEnded env i); [reflexivity|].
  destruct (writeThrows env i); [reflexivity|].
  specialize (IH g' (S i)).
  destruct (forAwait JSON_parse env fuel g' (S i)) as [[effects e] n].
  simpl in *. exact IH.
Qed.


(** With enough fuel the loop over the generator is the loop over what
    the generator still has to yield. *)
Lemma forAwait_forward (env : Environment) (fuel : nat) :
  forall (g : Generator) (i : nat),
    (calls_bound (point g) < fuel)%nat ->
    forAwait JSON_parse env fuel g i
    = forward env (remaining JSON_parse (Stream.sessionId g) (point g)) i.
Proof.
  induction fuel as [|fuel IH]; intros g i Hb; [lia|].
  cbn [forAwait]. pose proof (next_remaining JSON_parse g) as H.
  destruct (next JSON_parse g) as [[ev|] g'].
  - destruct H as (H1 & H2 & H3). rewrite H1. cbn [forward].
    rewrite (IH g' (S i)) by lia. rewrite H2. reflexivity.
  - destruct H as [H1 _]. rewrite H1. reflexivity.
Qed.

Lemma forward_writes (env : Environment) (events : list SSEEvent) :
  forall i, forallb isWrite (fst (fst (forward env events i))) = true.
Proof.
  induction events as [|ev events IH]; intros i; cbn [forward]; [reflexivity|].
  destruct (writableEnded env i); [reflexivity|].
  destruct (writeThrows env i); [reflexivity|].
  specialize (IH (S i)). destruct (forward env events (S i)) as [[effects e] n].
  exact IH.
Qed.


(** The job of a valid request whose child is returned by the launcher. *)
Lemma chatJob_valid (b : ClaudePrompt) (env : Environment) :
  chatRequestSchema b = [] ->
  stdinError env = None ->
  chatJob JSON_parse {| body := b; environment := env |}
  = jobLaunch b env
    ++ (if headersAlreadySent env
        then onCatch true headersSentError ++ jobErrorEvent env
        else sseHeaders
             ++ deliver (errorEventAfter env) (jobErrorEvent env)
                  (jobRest JSON_parse b env)).
Proof.
  intros Hv Hs. unfold chatJob, spawnClaudeProcess. cbn [body environment].
  rewrite Hv, Hs. cbv beta iota zeta.
  assert (Hdir : (if option_truthy (option_map trim (workspace b))
                  then match option_map trim (workspace b) with
                       | Some w => w
                       | None => workingDir env
                       end
                  else workingDir env) = jobDirectory b env).
  { unfold jobDirectory, option_truthy.
    destruct (option_map trim (workspace b)) as [w|]; reflexivity. }
  rewrite Hdir. unfold setSSEResponseHeaders.
  destruct (headersAlreadySent env) eqn:Hh.
  - unfold jobLaunch, jobArgs, jobPrompt, jobErrorEvent, getClaudeArgs, getClaudeCommand.
    fold (jobSession b). cbn [app]. rewrite <- ?app_assoc. reflexivity.
  - rewrite forAwait_forward by apply Nat.lt_succ_diag_r.
    unfold jobRest, jobEvents. rewrite drain_closed_form.
    cbn [streamClaudeOutput Stream.sessionId point remaining stdout].
    fold (jobSession b). rewrite Hh.
    match goal with
    | |- context [forward env ?evs 0] => destruct (forward env evs 0) as [[writes e] n]
    end.
    unfold jobLaunch, jobArgs, jobPrompt, jobErrorEvent, jobKill,
      killClaudeProcess, getClaudeArgs, getClaudeCommand.
    cbn [killed].
    destruct e; cbn [app]; rewrite <- ?app_assoc, ?app_nil_r; reflexivity.
Qed.





End HandlerFacts.








Lemma called_absent (id : nat) (calls : list (nat * Request)) :
  ~ In id (map fst calls) -> called id calls = None.
Proof.
  induction calls as [|[id' r] calls IH]; simpl; intros H; [reflexivity|].
  destruct (Nat.eqb_spec id id') as [->|N]; [exfalso; apply H; left; reflexivity|].
  apply IH. intros F. apply H. right. exact F.
Qed.

(** C9 (counterexample).  With capacity 1 and one chat job running, a
    request with an empty prompt is not answered: its job, which holds the
    validation, is queued with a timer.  Nothing is sent while it waits,
    and when the timer expires its promise is rejected with the timeout
    error, still without any 400 response from the handler. *)
Lemma C9_invalid_request_waits_in_the_queue :
  let busy :=
    handleStreamChat {| body := hello; environment := quiet |} 0
      (Limiter.constructor Request unit 1 120000) in
  let w := handleStreamChat {| body := empty_prompt; environment := quiet |} 5 busy in
  chatRequestSchema empty_prompt = [PromptEmpty]
  /\ effects_of JSON_parse 1 w = []
  /\ Limiter.getQueueInfo 9 w = [(5, 4)]
  /\ Limiter.timers w = [{| Limiter.owner := 1; Limiter.delay := 120000 |}]
  /\ exists w',
       Limiter.step w (Limiter.TimerFires 1) = Some w'
       /\ Limiter.promise_state 1 (Limiter.settled w')
          = Some (Limiter.Rejected (Limiter.TimeoutError 120000))
       /\ effects_of JSON_parse 1 w' = [].
Proof.
  repeat split. eexists. repeat split.
Qed.

(** C9 (amended).  For every request whose body fails validation, the job
    of the request, when the limiter calls it, answers HTTP 400 with the
    validation issues (the headers not being sent yet) and returns: it
    spawns no child process.  The limiter calls the job at once when a slot
    is free, and the job occupies that slot while it runs; when no slot is
    free the request waits in the queue and nothing is sent while it waits. *)
Theorem C9_invalid_request_yields_400_without_spawn :
  forall (parse : string -> option JValue) (request : Request)
         (issue : Issue) (issues : list Issue)
         (max0 timeout0 : Z) (es : list (Limiter.Event Request unit))
         (w : Limiter.World Request unit) (now : Z),
    chatRequestSchema (body request) = issue :: issues ->
    headersAlreadySent (environment request) = false ->
    Limiter.exec (Limiter.constructor Request unit max0 timeout0) es = Some w ->
    let answer := [Send 400 (ValidationFailed (issue :: issues))] in
    let w' := handleStreamChat request now w in
    chatJob parse request = answer
    /\ existsb isSpawn (chatJob parse request) = false
    /\ if Limiter.active (Limiter.limiter w) <? Limiter.maxConcurrent (Limiter.limiter w)
       then effects_of parse (Limiter.fresh w) w' = answer
            /\ Limiter.active (Limiter.limiter w')
               = Limiter.active (Limiter.limiter w) + 1
            /\ Limiter.queue (Limiter.limiter w') = Limiter.queue (Limiter.limiter w)
       else effects_of parse (Limiter.fresh w) w' = []
            /\ Limiter.is_queued (Limiter.fresh w) w'.
Proof.
  intros parse request issue issues max0 timeout0 es w now Hv Hh He answer w'.
  assert (Hjob : chatJob parse request = answer).
  { unfold chatJob. rewrite Hv, Hh. reflexivity. }
  split; [exact Hjob|]. split; [rewrite Hjob; reflexivity|].
  unfold w', handleStreamChat, Limiter.run, effects_of.
  destruct (Limiter.active (Limiter.limiter w) <? Limiter.maxConcurrent (Limiter.limiter w)).
  - simpl. rewrite Nat.eqb_refl. repeat split. exact Hjob.
  - simpl. split.
    + rewrite called_absent; [reflexivity|].
      pose proof (LimiterFacts.exec_well_formed Request unit es _ w
                    (LimiterFacts.constructor_well_formed Request unit max0 timeout0) He)
        as [_ _ _ _ W5 _ _].
      intros H. assert (Limiter.fresh w < Limiter.fresh w)%nat; [|lia].
      apply W5. right. right. exact H.
    + unfold Limiter.is_queued. simpl. rewrite map_app, in_app_iff.
      right. left. reflexivity.
Qed.

Lemma C9_invalid_request_yields_400_without_spawn_witness :
  let request := {| body := empty_prompt; environment := quiet |} in
  let w := Limiter.constructor Request unit 1 120000 in
  let answer := [Send 400 (ValidationFailed [PromptEmpty])] in
  let w' := handleStreamChat request 0 w in
  chatJob JSON_parse request = answer
  /\ existsb isSpawn (chatJob JSON_parse request) = false
  /\ (effects_of JSON_parse 0 w' = answer
      /\ Limiter.active (Limiter.limiter w') = 0 + 1
      /\ Limiter.queue (Limiter.limiter w') = []).
Proof.
  apply (C9_invalid_request_yields_400_without_spawn JSON_parse
           {| body := empty_prompt; environment := quiet |} PromptEmpty []
           1 120000 [] (Limiter.constructor Request unit 1 120000) 0);
    reflexivity.
Defined.

End ChatFacts.

(* ================================================================== *)
(** * Further properties of the limiter *)
(* ================================================================== *)

Module LimiterOrderFacts.
Import Limiter LimiterOrder LimiterFacts.

Section Order.

Variables Job T : Type.

Implicit Types (w : World Job T) (e : Event Job T) (q : list (QueuedTask Job)).

Lemma processNext_loop_saturated q :
  forall w, queue (limiter w) = q -> saturated (processNext_loop q w).
Proof.
  induction q as [|task rest IH]; intros w Hq; simpl.
  - left. exact Hq.
  - destruct (Z.ltb_spec (active (limiter w)) (maxConcurrent (limiter w))) as [H|H].
    + apply IH. reflexivity.
    + right. exact H.
Qed.

Lemma step_saturated w e w' :
  saturated w -> step w e = Some w' -> saturated w'.
Proof.
  intros Hw Hs. destruct e as [job to now| |id c|id|id|m|to|]; simpl in Hs.
  - injection Hs as <-. unfold run.
    destruct (Z.ltb_spec (active (limiter w)) (maxConcurrent (limiter w))) as [H|H].
    + destruct Hw as [Hq|Hq]; [left; exact Hq|lia].
    + right. exact H.
  - destruct (microtasks w); [discriminate|]. injection Hs as <-. exact Hw.
  - destruct (is_running id w); [|discriminate]. injection Hs as <-. exact Hw.
  - destruct (awaited id (finishing w)) as [c|]; [|discriminate].
    injection Hs as <-. apply processNext_loop_saturated. reflexivity.
  - destruct (armed id (timers w)); [|discriminate]. injection Hs as <-.
    destruct Hw as [Hq|Hq]; [left|right; exact Hq]. simpl. rewrite Hq. reflexivity.
  - injection Hs as <-. apply processNext_loop_saturated. reflexivity.
  - injection Hs as <-. exact Hw.
  - injection Hs as <-. left. unfold clear.
    destruct (clear_loop (queue (limiter w)) (timers w) (settled w)). reflexivity.
Qed.

Lemma exec_saturated (es : list (Event Job T)) :
  forall w w', saturated w -> exec w es = Some w' -> saturated w'.
Proof.
  induction es as [|e es IH]; intros w w' Hw He; simpl in He.
  - injection He as <-. exact Hw.
  - destruct (step w e) as [w1|] eqn:Hs; [|discriminate].
    exact (IH w1 w' (step_saturated w e w1 Hw Hs) He).
Qed.

(** *** First in, first out *)

Lemma sorted_snoc (l : list nat) (x : nat) :
  StronglySorted lt l -> (forall y, In y l -> (y < x)%nat) ->
  StronglySorted lt (l ++ [x]).
Proof.
  induction l as [|a l IH]; simpl; intros Hs Hx.
  - constructor; constructor.
  - inversion Hs as [|a' l' Hl Ha]; subst. constructor.
    + apply IH; [exact Hl|]. intros y Hy. apply Hx. right. exact Hy.
    + apply Forall_app. split; [exact Ha|]. constructor; [|constructor].
      apply Hx. left. reflexivity.
Qed.

Lemma sorted_splice (id : nat) q :
  StronglySorted lt (map resolve q) ->
  StronglySorted lt (map resolve (splice_found id q)).
Proof.
  induction q as [|a q IH]; simpl; intros Hs; [exact Hs|].
  inversion Hs as [|a' l' Hl Ha]; subst.
  destruct (Nat.eqb (resolve a) id); simpl; [exact Hl|].
  constructor; [exact (IH Hl)|].
  rewrite Forall_forall in *. intros x Hx. apply Ha.
  exact (splice_found_ids Job id x q Hx).
Qed.

Lemma promote_fifo w task rest :
  fifo w -> queue (limiter w) = task :: rest -> fifo (promote task rest w).
Proof.
  intros (F1 & F2 & F3) Hq. unfold fifo, is_queued, was_invoked in *.
  rewrite Hq in *. simpl in *.
  inversion F1 as [|a l Hl Ha]; subst. rewrite Forall_forall in Ha.
  split; [exact Hl|]. split.
  - rewrite map_app. simpl. apply sorted_snoc; [exact F2|].
    intros y Hy. apply (F3 (resolve task) y); [left; reflexivity|left; exact Hy].
  - intros a b Ha' Hb. rewrite map_app, in_app_iff in Hb. simpl in Hb.
    destruct Hb as [[Hb|[<-|[]]]|Hb].
    + apply (F3 a b); [right; exact Ha'|left; exact Hb].
    + apply Ha. exact Ha'.
    + apply (F3 a b); [right; exact Ha'|right; exact Hb].
Qed.

Lemma processNext_loop_fifo q :
  forall w, queue (limiter w) = q -> fifo w -> fifo (processNext_loop q w).
Proof.
  induction q as [|task rest IH]; intros w Hq Hw; simpl; [exact Hw|].
  destruct (active (limiter w) <? maxConcurrent (limiter w)); [|exact Hw].
  apply IH; [reflexivity|]. exact (promote_fifo w task rest Hw Hq).
Qed.

Lemma step_fifo w e w' :
  well_formed w -> saturated w -> fifo w -> step w e = Some w' -> fifo w'.
Proof.
  intros [W1 W2 W3 W4 W5 W6 W7] Hsat (F1 & F2 & F3) Hs.
  destruct e as [job to now| |id c|id|id|m|to|]; simpl in Hs.
  - injection Hs as <-. unfold run.
    destruct (Z.ltb_spec (active (limiter w)) (maxConcurrent (limiter w))) as [H|H].
    + destruct Hsat as [Hq|Hq]; [|lia].
      unfold fifo, is_queued, was_invoked in *. simpl. rewrite Hq in *. simpl.
      split; [constructor|]. split; [exact F2|]. intros a b [].
    + unfold fifo, is_queued, was_invoked in *. simpl.
      split; [|split; [exact F2|]].
      * rewrite map_app. simpl. apply sorted_snoc; [exact F1|].
        intros y Hy. exact (proj1 (W4 y Hy)).
      * intros a b Ha Hb. rewrite map_app, in_app_iff in Ha. simpl in Ha.
        destruct Ha as [Ha|[<-|[]]]; [exact (F3 a b Ha Hb)|].
        apply W5. right. exact Hb.
  - destruct (microtasks w) as [|task rest] eqn:E; [discriminate|].
    injection Hs as <-. unfold fifo, is_queued, was_invoked in *. simpl in *.
    inversion F2 as [|a l Hl Ha]; subst.
    split; [exact F1|]. split; [exact Hl|].
    intros a b Ha' [Hb|[<-|Hb]].
    + apply (F3 a b Ha'). left. right. exact Hb.
    + apply (F3 a (resolve task) Ha'). left. left. reflexivity.
    + apply (F3 a b Ha'). right. exact Hb.
  - destruct (is_running id w); [|discriminate]. injection Hs as <-.
    unfold fifo, is_queued, was_invoked in *. simpl. repeat split; assumption.
  - destruct (awaited id (finishing w)) as [c|]; [|discriminate].
    injection Hs as <-.
    unfold afterAwait. apply processNext_loop_fifo; [reflexivity|].
    unfold fifo, is_queued, was_invoked in *. simpl. repeat split; assumption.
  - destruct (armed id (timers w)) as [t|]; [|discriminate]. injection Hs as <-.
    unfold fifo, is_queued, was_invoked in *. simpl.
    split; [exact (sorted_splice (owner t) _ F1)|]. split; [exact F2|].
    intros a b Ha Hb. apply (F3 a b); [|exact Hb].
    exact (splice_found_ids Job _ a _ Ha).
  - injection Hs as <-. unfold setMaxConcurrent.
    apply processNext_loop_fifo; [reflexivity|].
    unfold fifo, is_queued, was_invoked in *. simpl. repeat split; assumption.
  - injection Hs as <-. unfold fifo, is_queued, was_invoked in *. simpl.
    repeat split; assumption.
  - injection Hs as <-. unfold clear.
    destruct (clear_loop (queue (limiter w)) (timers w) (settled w)).
    unfold fifo, is_queued, was_invoked in *. simpl.
    split; [constructor|]. split; [exact F2|]. intros a b [].
Qed.

Lemma exec_fifo (es : list (Event Job T)) :
  forall w w',
    well_formed w -> saturated w -> fifo w -> exec w es = Some w' -> fifo w'.
Proof.
  induction es as [|e es IH]; intros w w' Hw Hsat Hf He; simpl in He.
  - injection He as <-. exact Hf.
  - destruct (step w e) as [w1|] eqn:Hs; [|discriminate].
    exact (IH w1 w' (step_well_formed Job T w e w1 Hw Hs)
             (step_saturated w e w1 Hsat Hs)
             (step_fifo w e w1 Hw Hsat Hf Hs) He).
Qed.

(** *** Waiting times *)

Lemma timed_later (t t' : Z) w : t <= t' -> timed t w -> timed t' w.
Proof.
  intros Ht [A B]. split; [exact A|].
  rewrite Forall_forall in *. intros x Hx. specialize (B x Hx). lia.
Qed.

Lemma timed_splice (t : Z) (id : nat) q :
  StronglySorted Z.le (map timestamp q) /\ Forall (fun ts => ts <= t) (map timestamp q) ->
  StronglySorted Z.le (map timestamp (splice_found id q))
  /\ Forall (fun ts => ts <= t) (map timestamp (splice_found id q)).
Proof.
  induction q as [|a q IH]; simpl; intros [A B]; [split; assumption|].
  inversion A as [|a' l' Hl Ha]; subst. inversion B as [|b' l'' Hb Hbs]; subst.
  destruct (Nat.eqb (resolve a) id); [split; assumption|].
  destruct (IH (conj Hl Hbs)) as [C D]. simpl. split.
  - constructor; [exact C|]. rewrite Forall_forall in *. intros x Hx.
    apply Ha. apply in_map_iff in Hx as (task & <- & Hin).
    apply in_map. exact (splice_found_subset Job id q task Hin).
  - constructor; assumption.
Qed.

Lemma sorted_le_snoc (l : list Z) (x : Z) :
  StronglySorted Z.le l -> Forall (fun y => y <= x) l ->
  StronglySorted Z.le (l ++ [x]).
Proof.
  induction l as [|a l IH]; simpl; intros Hs Hx.
  - constructor; constructor.
  - inversion Hs as [|a' l' Hl Ha]; subst. inversion Hx as [|b l'' Hb Hbs]; subst.
    constructor; [exact (IH Hl Hbs)|].
    apply Forall_app. split; [exact Ha|]. constructor; [exact Hb|constructor].
Qed.

Lemma processNext_loop_timed (t : Z) q :
  forall w, queue (limiter w) = q -> timed t w -> timed t (processNext_loop q w).
Proof.
  induction q as [|task rest IH]; intros w Hq Hw; simpl; [exact Hw|].
  destruct (active (limiter w) <? maxConcurrent (limiter w)); [|exact Hw].
  apply IH; [reflexivity|]. destruct Hw as [A B]. unfold timed in *.
  rewrite Hq in A, B. simpl in *.
  inversion A; subst. inversion B; subst. split; assumption.
Qed.

Lemma step_timed (t : Z) w e w' :
  timed t w -> step w e = Some w' ->
  clock_monotone t [e] = true ->
  timed (last_clock t [e]) w'.
Proof.
  intros Hw Hs Hc. destruct e as [job to now| |id c|id|id|m|to|]; simpl in Hs, Hc |- *.
  - injection Hs as <-. apply andb_true_iff in Hc as [Hc _]. apply Z.leb_le in Hc.
    apply (timed_later t now) in Hw; [|exact Hc]. unfold run.
    destruct (active (limiter w) <? maxConcurrent (limiter w)); [exact Hw|].
    destruct Hw as [A B]. unfold timed. simpl. rewrite map_app. simpl. split.
    + exact (sorted_le_snoc _ now A B).
    + apply Forall_app. split; [exact B|]. constructor; [lia|constructor].
  - destruct (microtasks w); [discriminate|]. injection Hs as <-. exact Hw.
  - destruct (is_running id w); [|discriminate]. injection Hs as <-. exact Hw.
  - destruct (awaited id (finishing w)) as [c|]; [|discriminate].
    injection Hs as <-. apply processNext_loop_timed; [reflexivity|exact Hw].
  - destruct (armed id (timers w)) as [tm|]; [|discriminate]. injection Hs as <-.
    exact (timed_splice t (owner tm) _ Hw).
  - injection Hs as <-. apply processNext_loop_timed; [reflexivity|exact Hw].
  - injection Hs as <-. exact Hw.
  - injection Hs as <-. unfold clear.
    destruct (clear_loop (queue (limiter w)) (timers w) (settled w)).
    split; simpl; constructor.
Qed.

Lemma exec_timed (es : list (Event Job T)) :
  forall (t : Z) w w',
    timed t w -> exec w es = Some w' -> clock_monotone t es = true ->
    timed (last_clock t es) w'.
Proof.
  induction es as [|e es IH]; intros t w w' Hw He Hc; simpl in He.
  - injection He as <-. exact Hw.
  - destruct (step w e) as [w1|] eqn:Hs; [|discriminate].
    assert (H1 : clock_monotone t [e] = true /\
                 clock_monotone (last_clock t [e]) es = true
                 /\ last_clock t (e :: es) = last_clock (last_clock t [e]) es).
    { destruct e; simpl in *; try (repeat split; assumption).
      apply andb_true_iff in Hc as [A B]. rewrite A. repeat split. exact B. }
    destruct H1 as (A & B & C). rewrite C.
    exact (IH _ w1 w' (step_timed t w e w1 Hw Hs A) He B).
Qed.

Lemma runs_admitted (jobs : list Job) (now : Z) :
  forall w,
    active (limiter w) + Z.of_nat (length jobs) <= maxConcurrent (limiter w) ->
    exists w',
      exec w (runs jobs now) = Some w'
      /\ active (limiter w') = active (limiter w) + Z.of_nat (length jobs)
      /\ maxConcurrent (limiter w') = maxConcurrent (limiter w)
      /\ defaultTimeout (limiter w') = defaultTimeout (limiter w)
      /\ queue (limiter w') = queue (limiter w)
      /\ timers w' = timers w
      /\ microtasks w' = microtasks w
      /\ fresh w' = (fresh w + length jobs)%nat
      /\ running w' = rev (seq (fresh w) (length jobs)) ++ running w
      /\ map fst (invoked w') = rev (seq (fresh w) (length jobs)) ++ map fst (invoked w)
      /\ finishing w' = finishing w.
Proof.
  induction jobs as [|job jobs IH]; intros w Hcap.
  - exists w. cbn -[Z.of_nat Z.add]. rewrite Nat.add_0_r, Z.add_0_r.
    repeat split; reflexivity.
  - cbn -[Z.of_nat Z.add] in Hcap |- *.
    assert (Hlt : (active (limiter w) <? maxConcurrent (limiter w)) = true).
    { apply Z.ltb_lt. lia. }
    unfold run. rewrite Hlt.
    destruct (IH (executeDirect job w)) as (w' & E & A & B & C & D & F & G & H & I & J & K).
    { cbn -[Z.of_nat Z.add]. lia. }
    exists w'. cbn -[Z.of_nat Z.add] in A, B, C, D, F, G, H, I, J, K.
    split; [exact E|].
    rewrite A, B, C, D, F, G, H, I, J, K.
    repeat split; try lia; rewrite <- app_assoc; reflexivity.
Qed.

End Order.

(** X1.  In every state the limiter reaches from its construction,
    whatever the capacity and the events, a task waits in the queue only
    when no slot is free: when the queue is not empty the active counter is
    at least the capacity.  So getStatus() never reports a free slot
    together with a queued task. *)
Theorem queue_waits_only_when_full :
  forall (Job T : Type) (max0 timeout0 : Z) (es : list (Event Job T)) (w : World Job T),
    exec (constructor Job T max0 timeout0) es = Some w ->
    (queue (limiter w) <> [] -> maxConcurrent (limiter w) <= active (limiter w))
    /\ (0 < status_available (getStatus w) -> status_queued (getStatus w) = 0).
Proof.
  intros Job T max0 timeout0 es w He.
  assert (Hs : saturated w).
  { apply (exec_saturated Job T es (constructor Job T max0 timeout0) w); [|exact He].
    left. reflexivity. }
  split.
  - intros Hq. destruct Hs as [Hs|Hs]; [contradiction|exact Hs].
  - unfold getStatus. simpl. intros Ha.
    destruct Hs as [Hs|Hs]; [rewrite Hs; reflexivity|lia].
Qed.

Lemma queue_waits_only_when_full_witness :
  let w := run tt None 5 (run tt None 0 (constructor unit unit 1 120000)) in
  (queue (limiter w) <> [] -> maxConcurrent (limiter w) <= active (limiter w))
  /\ (0 < status_available (getStatus w) -> status_queued (getStatus w) = 0).
Proof.
  intros w.
  apply (queue_waits_only_when_full unit unit 1 120000 [Run tt None 0; Run tt None 5]).
  reflexivity.
Defined.

(** X2.  The queue is first in, first out.  Promise identities are handed
    out in the order of the run() calls.  In every state the limiter
    reaches, the queued tasks are in the order of their submission, the
    promoted tasks whose body has not started are in the order of their
    submission, and every job that was promoted or started was submitted
    before every job that still waits: no job overtakes a waiting one. *)
Theorem queue_is_first_in_first_out :
  forall (Job T : Type) (max0 timeout0 : Z) (es : list (Event Job T)) (w : World Job T),
    exec (constructor Job T max0 timeout0) es = Some w ->
    StronglySorted lt (map resolve (queue (limiter w)))
    /\ StronglySorted lt (map resolve (microtasks w))
    /\ (forall a b,
          is_queued a w ->
          In b (map resolve (microtasks w)) \/ was_invoked b w ->
          (b < a)%nat).
Proof.
  intros Job T max0 timeout0 es w He.
  apply (exec_fifo Job T es (constructor Job T max0 timeout0) w);
    [apply constructor_well_formed|left; reflexivity| |exact He].
  unfold fifo, is_queued, was_invoked. simpl.
  split; [constructor|]. split; [constructor|]. intros a b [].
Qed.

Lemma queue_is_first_in_first_out_witness :
  let w := afterAwait 0 (Returned tt)
             (bodyEnded 0 (Returned tt)
                (run tt None 9 (run tt None 5
                   (run tt None 0 (constructor unit unit 1 120000))))) in
  StronglySorted lt (map resolve (queue (limiter w)))
  /\ StronglySorted lt (map resolve (microtasks w))
  /\ (forall a b,
        is_queued a w ->
        In b (map resolve (microtasks w)) \/ was_invoked b w ->
        (b < a)%nat).
Proof.
  intros w.
  apply (queue_is_first_in_first_out unit unit 1 120000
           [Run tt None 0; Run tt None 5; Run tt None 9;
            BodyEnds 0 (Returned tt); Resumes 0]).
  reflexivity.
Defined.

(** X3.  clear() in any state the limiter reaches: the queue is emptied
    and no timer stays armed; every promise that was queued is rejected with
    the shutdown error; the active counter, the running jobs and the
    promoted tasks are left alone; and whatever the limiter does afterwards,
    a promise rejected by clear() stays rejected with that error, never
    re-enters the queue and its job is never called. *)
Theorem clear_rejects_every_queued_job :
  forall (Job T : Type) (max0 timeout0 : Z) (es : list (Event Job T))
         (w : World Job T) (id : nat),
    exec (constructor Job T max0 timeout0) es = Some w ->
    is_queued id w ->
    let w' := clear w in
    queue (limiter w') = []
    /\ timers w' = []
    /\ active (limiter w') = active (limiter w)
    /\ running w' = running w
    /\ microtasks w' = microtasks w
    /\ promise_state id (settled w') = Some (Rejected ShutdownError)
    /\ forall es' w'',
         exec w' es' = Some w'' ->
         promise_state id (settled w'') = Some (Rejected ShutdownError)
         /\ ~ is_queued id w''
         /\ ~ was_invoked id w''.
Proof.
  intros Job T max0 timeout0 es w id He Hq w'.
  pose proof (exec_well_formed Job T es _ w
                (constructor_well_formed Job T max0 timeout0) He) as [W1 W2 W3 W4 W5 W6 W7].
  destruct (W4 id Hq) as (A & B & C & D).
  assert (Hts : timers w' = []).
  { pose proof (clear_loop_timers Job T (queue (limiter w)) (timers w) (settled w) W2) as H.
    unfold w', clear.
    destruct (clear_loop (queue (limiter w)) (timers w) (settled w)) as [ts s].
    simpl in *. apply H. intros t Ht. rewrite W1 in Ht.
    apply in_map_iff in Ht as (task & <- & Hin). rewrite (W2 task Hin).
    apply in_map. exact Hin. }
  assert (Hp : promise_state id (settled w') = Some (Rejected ShutdownError)).
  { pose proof (clear_loop_settled Job T (queue (limiter w)) (timers w) (settled w) id) as H.
    unfold w', clear.
    destruct (clear_loop (queue (limiter w)) (timers w) (settled w)) as [ts s].
    simpl in *. rewrite H, B.
    replace (existsb (Nat.eqb id) (map resolve (queue (limiter w)))) with true;
      [reflexivity|].
    symmetry. apply existsb_exists. exists id. split; [exact Hq|apply Nat.eqb_refl]. }
  assert (Hg : gone id w').
  { unfold w', clear.
    destruct (clear_loop (queue (limiter w)) (timers w) (settled w)) as [ts s].
    unfold gone, is_queued, was_invoked in *. simpl. repeat split; try assumption.
    intros []. }
  assert (Hrest : queue (limiter w') = [] /\ active (limiter w') = active (limiter w)
                  /\ running w' = running w /\ microtasks w' = microtasks w).
  { unfold w', clear.
    destruct (clear_loop (queue (limiter w)) (timers w) (settled w)) as [ts s].
    simpl. repeat split; reflexivity. }
  destruct Hrest as (R1 & R2 & R3 & R4).
  repeat (split; [assumption|]).
  intros es' w'' He'.
  pose proof (exec_gone Job T id es' w' w'' Hg He') as (_ & G1 & _ & G2).
  split; [|split; assumption].
  exact (exec_settled_kept Job T id _ es' w' w'' Hp He').
Qed.

Lemma clear_rejects_every_queued_job_witness :
  let w := run tt None 5 (run tt None 0 (constructor unit unit 1 120000)) in
  let w' := clear w in
  queue (limiter w') = []
  /\ timers w' = []
  /\ active (limiter w') = active (limiter w)
  /\ running w' = running w
  /\ microtasks w' = microtasks w
  /\ promise_state 1 (settled w') = Some (Rejected ShutdownError)
  /\ forall es' w'',
       exec w' es' = Some w'' ->
       promise_state 1 (settled w'') = Some (Rejected ShutdownError)
       /\ ~ is_queued 1 w''
       /\ ~ was_invoked 1 w''.
Proof.
  intros w.
  apply (clear_rejects_every_queued_job unit unit 1 120000
           [Run tt None 0; Run tt None 5] w 1%nat).
  - reflexivity.
  - simpl. left. reflexivity.
Defined.

(** X4.  No timer leaks and none is missing.  In every state the limiter
    reaches, the armed timers are exactly the timers of the queued tasks, in
    queue order, each owned by the promise of its task; a timer can fire for
    a promise exactly when the task of that promise is queued; and a queued
    promise is pending and its job has not been called. *)
Theorem armed_timers_are_those_of_the_queue :
  forall (Job T : Type) (max0 timeout0 : Z) (es : list (Event Job T)) (w : World Job T),
    exec (constructor Job T max0 timeout0) es = Some w ->
    timers w = map timeout (queue (limiter w))
    /\ (forall task,
          In task (queue (limiter w)) -> owner (timeout task) = resolve task)
    /\ (forall id, is_queued id w <-> armed id (timers w) <> None)
    /\ (forall id,
          is_queued id w ->
          promise_state id (settled w) = None /\ ~ was_invoked id w).
Proof.
  intros Job T max0 timeout0 es w He.
  pose proof (exec_well_formed Job T es _ w
                (constructor_well_formed Job T max0 timeout0) He) as [W1 W2 W3 W4 W5 W6 W7].
  split; [exact W1|]. split; [exact W2|]. split.
  - intros id. split.
    + intros Hq. unfold is_queued in Hq. apply in_map_iff in Hq as (task & <- & Hin).
      rewrite W1, (armed_queued Job _ task W2 W3 Hin). discriminate.
    + intros Ha. destruct (armed id (timers w)) as [t|] eqn:E; [|congruence].
      apply armed_owner in E as [Hin <-]. rewrite W1 in Hin.
      apply in_map_iff in Hin as (task & <- & Hin). rewrite (W2 task Hin).
      unfold is_queued. apply in_map. exact Hin.
  - intros id Hq. destruct (W4 id Hq) as (A & B & C & D). split; assumption.
Qed.

Lemma armed_timers_are_those_of_the_queue_witness :
  let w := setMaxConcurrent 2
             (run tt (Some 3000) 9 (run tt None 5
                (run tt None 0 (constructor unit unit 1 120000)))) in
  timers w = map timeout (queue (limiter w))
  /\ (forall task,
        In task (queue (limiter w)) -> owner (timeout task) = resolve task)
  /\ (forall id, is_queued id w <-> armed id (timers w) <> None)
  /\ (forall id,
        is_queued id w ->
        promise_state id (settled w) = None /\ ~ was_invoked id w).
Proof.
  intros w.
  apply (armed_timers_are_those_of_the_queue unit unit 1 120000
           [Run tt None 0; Run tt None 5; Run tt (Some 3000) 9; SetMaxConcurrent 2]).
  reflexivity.
Defined.

(** X5.  A limiter of capacity m admits m jobs and queues the next one.
    After m calls of run() on a new limiter of capacity m, the m job bodies
    have all started, the counter is m and nobody waits.  One more call of
    run() starts nothing: its task is queued with the default timeout armed,
    under the next promise identity.  When the body of any of the m running
    jobs then ends, by resolution or rejection, nothing changes until the
    code awaiting it resumes: the task still waits and the counter is m.
    When that code resumes, the waiting task is promoted in the place of the
    job, its timer is cleared and the counter is m again; the next microtask
    calls its job. *)
Theorem capacity_admits_then_queues :
  forall (Job T : Type) (jobs : list Job) (extra : Job) (now timeout0 : Z),
    let m := length jobs in
    exists w : World Job T,
      exec (constructor Job T (Z.of_nat m) timeout0) (runs jobs now) = Some w
      /\ active (limiter w) = Z.of_nat m
      /\ queue (limiter w) = []
      /\ running w = rev (seq 0 m)
      /\ map fst (invoked w) = rev (seq 0 m)
      /\ let w1 := run extra None now w in
         queue (limiter w1)
         = [{| execute := extra; resolve := m;
               timeout := {| owner := m; delay := timeout0 |}; timestamp := now |}]
         /\ timers w1 = [{| owner := m; delay := timeout0 |}]
         /\ invoked w1 = invoked w
         /\ active (limiter w1) = Z.of_nat m
         /\ forall i c,
              (i < m)%nat ->
              exists w1',
                step w1 (BodyEnds i c) = Some w1'
                /\ queue (limiter w1') = queue (limiter w1)
                /\ timers w1' = timers w1
                /\ active (limiter w1') = Z.of_nat m
                /\ exists w2,
                     step w1' (Resumes i) = Some w2
                     /\ queue (limiter w2) = []
                     /\ timers w2 = []
                     /\ map resolve (microtasks w2) = [m]
                     /\ active (limiter w2) = Z.of_nat m
                     /\ invoked w2 = invoked w
                     /\ exists w3,
                          step w2 Microtask = Some w3
                          /\ invoked w3 = (m, extra) :: invoked w.
Proof.
  intros Job T jobs extra now timeout0 m.
  destruct (runs_admitted Job T jobs now (constructor Job T (Z.of_nat m) timeout0))
    as (w & E & A & B & C & D & F & G & H & I & J & K).
  { cbn -[Z.of_nat Z.add]. fold m. lia. }
  cbn -[Z.of_nat Z.add] in A, B, C, D, F, G, H, I, J, K. fold m in A, H, I, J.
  rewrite app_nil_r in I, J. rewrite Z.add_0_l in A.
  exists w. repeat (split; [assumption|]).
  assert (Hfull : (active (limiter w) <? maxConcurrent (limiter w)) = false).
  { apply Z.ltb_ge. lia. }
  unfold run. rewrite Hfull. cbn -[Z.of_nat Z.add].
  rewrite C, D, F, H.
  repeat (split; [first [reflexivity|assumption]|]).
  intros i c Hi.
  assert (Hrun : existsb (Nat.eqb i) (running w) = true).
  { apply existsb_exists. exists i. split; [|apply Nat.eqb_refl].
    rewrite I, <- in_rev. apply in_seq. lia. }
  unfold is_running. cbn -[Z.of_nat Z.add Z.sub]. rewrite Hrun.
  eexists. split; [reflexivity|]. cbn -[Z.of_nat Z.add Z.sub].
  rewrite ?A, ?B, ?C, ?D, ?F, ?H, ?K. cbn -[Z.of_nat Z.add Z.sub].
  repeat (split; [reflexivity|]).
  rewrite Nat.eqb_refl.
  unfold afterAwait, processNext. cbn -[Z.of_nat Z.add Z.sub].
  rewrite ?A, ?B, ?C, ?D, ?F, ?H, ?K.
  assert (Hfree : (Z.of_nat m - 1 <? Z.of_nat m) = true) by (apply Z.ltb_lt; lia).
  cbn -[Z.of_nat Z.add Z.sub]. rewrite Hfree. cbn -[Z.of_nat Z.add Z.sub].
  eexists. split; [reflexivity|].
  unfold promote, clearTimeout. cbn -[Z.of_nat Z.add Z.sub].
  rewrite G, Nat.eqb_refl. cbn -[Z.of_nat Z.add Z.sub].
  repeat (split; [first [reflexivity|lia]|]).
  eexists. split; reflexivity.
Qed.

(** X27.  The head of the queue has waited the longest.  When the clock
    read by the run() calls never goes back, in every state the limiter
    reaches getQueueInfo(), called at a time not before the last run(),
    lists one entry per queued task, with timestamps that do not decrease
    and waiting times that are not negative and do not increase from the
    head of the queue to its tail. *)
Theorem queue_info_lists_the_longest_wait_first :
  forall (Job T : Type) (max0 timeout0 t0 : Z) (es : list (Event Job T))
         (w : World Job T) (now : Z),
    exec (constructor Job T max0 timeout0) es = Some w ->
    clock_monotone t0 es = true ->
    last_clock t0 es <= now ->
    length (getQueueInfo now w) = length (queue (limiter w))
    /\ StronglySorted Z.le (map fst (getQueueInfo now w))
    /\ StronglySorted Z.ge (map snd (getQueueInfo now w))
    /\ Forall (fun waitingMs => 0 <= waitingMs) (map snd (getQueueInfo now w)).
Proof.
  intros Job T max0 timeout0 t0 es w now He Hc Hnow.
  assert (Ht : timed (last_clock t0 es) w).
  { apply (exec_timed Job T es t0 (constructor Job T max0 timeout0) w);
      [split; simpl; constructor|exact He|exact Hc]. }
  destruct Ht as [A B]. unfold getQueueInfo.
  rewrite length_map, !map_map. cbn [fst snd].
  split; [reflexivity|]. split; [exact A|].
  induction (queue (limiter w)) as [|task q IH]; simpl in *.
  - split; constructor.
  - inversion A as [|a l Hl Ha]; subst. inversion B as [|b l' Hb Hbs]; subst.
    destruct (IH Hl Hbs) as [C D]. split.
    + constructor; [exact C|]. rewrite Forall_forall in *.
      intros x Hx. apply in_map_iff in Hx as (task' & <- & Hin).
      specialize (Ha (timestamp task') (in_map timestamp q task' Hin)). lia.
    + constructor; [lia|exact D].
Qed.

Lemma queue_info_lists_the_longest_wait_first_witness :
  let w := run tt None 9 (run tt None 5 (run tt None 0 (constructor unit unit 1 120000))) in
  length (getQueueInfo 12 w) = length (queue (limiter w))
  /\ StronglySorted Z.le (map fst (getQueueInfo 12 w))
  /\ StronglySorted Z.ge (map snd (getQueueInfo 12 w))
  /\ Forall (fun waitingMs => 0 <= waitingMs) (map snd (getQueueInfo 12 w)).
Proof.
  intros w.
  apply (queue_info_lists_the_longest_wait_first unit unit 1 120000 0
           [Run tt None 0; Run tt None 5; Run tt None 9]).
  - reflexivity.
  - reflexivity.
  - simpl. lia.
Defined.

End LimiterOrderFacts.

(* ================================================================== *)
(** * Further properties of the transcoder *)
(* ================================================================== *)

Module StreamRulesFacts.
Import Js Stream StreamRules Samples StreamFacts.

(** X6.  The whole output of the transcoder for a consumer that never
    stops, whatever JSON.parse is: the start event, then one data event for
    every piece of every chunk that parseLine does not skip, in the order of
    the pieces, then the error event if reading standard output failed, then
    the end event.  The sequence is well ordered: start first, end last, and
    an error event only immediately before the end. *)
Theorem transcoder_output_in_closed_form :
  forall (parse : string -> option JValue) (child : ChildProcess) (sid : string),
    drain parse (streamClaudeOutput child sid)
    = Start sid
      :: map Data (contents parse (flat_map (split "010") (chunks (stdout child))))
      ++ match ending (stdout child) with
         | Ended => [End sid]
         | Failed message => [Error message; End sid]
         end
    /\ well_ordered sid (drain parse (streamClaudeOutput child sid)).
Proof.
  intros parse child sid. split.
  - rewrite drain_closed_form. reflexivity.
  - apply drain_well_ordered.
Qed.

(** X7.  When every chunk but the last ends with a line feed, the
    transcoder emits exactly what it emits when the same bytes arrive as one
    single chunk: chunk boundaries that fall on line boundaries do not
    change the output. *)
Theorem chunks_split_at_line_ends_agree :
  forall (parse : string -> option JValue) (bodies : list string) (last : string)
         (e : Ending) (sid : string),
    drain parse
      (streamClaudeOutput
         (child_of (map (fun a => (a ++ nl)%string) bodies ++ [last]) e) sid)
    = drain parse
        (streamClaudeOutput
           (child_of
              [String.concat EmptyString
                 (map (fun a => (a ++ nl)%string) bodies ++ [last])] e) sid).
Proof.
  intros parse bodies last e sid.
  exact (aligned_chunks_agree parse bodies last e sid).
Qed.

(** X8.  A consumer that stops on receiving its k-th event, for k at
    least 2, has the generator closed inside its try statement: the finally
    block runs and the emitted sequence is well ordered, ending with the end
    event. *)
Theorem stop_after_second_event_is_well_ordered :
  forall (parse : string -> option JValue) (child : ChildProcess) (sid : string)
         (k : nat),
    (2 <= k)%nat ->
    well_ordered sid (stopped_after parse k (streamClaudeOutput child sid)).
Proof.
  intros parse child sid k Hk.
  exact (stopped_after_well_ordered parse child sid k Hk).
Qed.

Lemma stop_after_second_event_is_well_ordered_witness :
  well_ordered "new"
    (stopped_after JSON_parse 2
       (streamClaudeOutput
          (child_of [("one" ++ nl ++ "two" ++ nl ++ "three" ++ nl)%string] Ended) "new")).
Proof.
  apply (stop_after_second_event_is_well_ordered JSON_parse
           (child_of [("one" ++ nl ++ "two" ++ nl ++ "three" ++ nl)%string] Ended)
           "new" 2).
  lia.
Defined.

(** *** Assistant messages *)

Lemma get_not_nullish (item : JValue) (k : string) :
  nullish item = false ->
  get item k
  = Ok match item with
       | JObject props =>
           match lookup k props with
           | Some x => x
           | None => JUndefined
           end
       | _ => JUndefined
       end.
Proof.
  destruct item as [| | | | | | |props]; simpl; try discriminate; try reflexivity.
  destruct (lookup k props); reflexivity.
Qed.

Lemma isToolUse_not_nullish (item : JValue) :
  nullish item = false -> isToolUse item = Ok (isToolUseBlock item).
Proof.
  intros H. unfold isToolUse. rewrite (get_not_nullish item "type" H). simpl.
  destruct item as [| | | | | | |props]; try reflexivity.
  unfold isToolUseBlock. destruct (lookup "type" props); reflexivity.
Qed.

Lemma isText_not_nullish (item : JValue) :
  nullish item = false -> isText item = Ok (carriesText item).
Proof.
  intros H. unfold isText.
  rewrite (get_not_nullish item "type" H), (get_not_nullish item "text" H). simpl.
  destruct item as [| | | | | | |props]; try reflexivity.
  unfold carriesText, isTextBlock.
  destruct (lookup "type" props) as [ty|]; [|reflexivity].
  destruct (lookup "text" props); [reflexivity|].
  simpl. rewrite andb_false_r. reflexivity.
Qed.

Lemma some_isToolUse_not_nullish (items : list JValue) :
  forallb (fun v => negb (nullish v)) items = true ->
  some isToolUse items = Ok (existsb isToolUseBlock items).
Proof.
  induction items as [|item rest IH]; simpl; [reflexivity|].
  intros H. apply andb_true_iff in H as [H1 H2]. apply negb_true_iff in H1.
  rewrite (isToolUse_not_nullish item H1). simpl.
  destruct (isToolUseBlock item); [reflexivity|exact (IH H2)].
Qed.

Lemma some_isText_not_nullish (items : list JValue) :
  forallb (fun v => negb (nullish v)) items = true ->
  some isText items = Ok (existsb carriesText items).
Proof.
  induction items as [|item rest IH]; simpl; [reflexivity|].
  intros H. apply andb_true_iff in H as [H1 H2]. apply negb_true_iff in H1.
  rewrite (isText_not_nullish item H1). simpl.
  destruct (carriesText item); [reflexivity|exact (IH H2)].
Qed.

(** The scan for a tool invocation throws at a null block that no
    tool_use block precedes. *)
Lemma some_isToolUse_throws (before after : list JValue) :
  forallb (fun v => negb (nullish v)) before = true ->
  existsb isToolUseBlock before = false ->
  some isToolUse (before ++ JNull :: after) = Throw "TypeError".
Proof.
  induction before as [|item rest IH]; simpl; [reflexivity|].
  intros H He. apply andb_true_iff in H as [H1 H2]. apply negb_true_iff in H1.
  apply orb_false_iff in He as [E1 E2].
  rewrite (isToolUse_not_nullish item H1), E1. simpl. exact (IH H2 E2).
Qed.

(** Reading an assistant message: the branch extractTextContent takes. *)
Lemma extract_assistant (data : JValue) (items : list JValue) :
  assistantBlocks data = Some items ->
  extractTextContent data
  = bind (some isToolUse items) (fun hasToolUse =>
    bind (some isText items) (fun hasText =>
    if negb hasToolUse && hasText then Ok None else Ok (Some (ExData data)))).
Proof.
  intros Hb. destruct data as [| | | | | | |props]; try discriminate.
  unfold assistantBlocks in Hb.
  destruct (lookup "type" props) as [ty|] eqn:Ety; [|discriminate].
  destruct (lookup "message" props) as [m|] eqn:Em; [|discriminate].
  destruct m as [| | | | | | |mprops]; try discriminate.
  destruct (is_string ty "assistant") eqn:Eas; [|discriminate].
  destruct (lookup "content" mprops) as [c|] eqn:Ec; [|discriminate].
  destruct c as [| | | | | |its|]; try discriminate.
  injection Hb as ->.
  assert (Hse : is_string ty "stream_event" = false).
  { destruct ty; simpl in *; try discriminate.
    apply String.eqb_eq in Eas. subst s. reflexivity. }
  unfold extractTextContent. simpl. rewrite Ety. simpl.
  destruct (lookup "event" props); simpl; rewrite Hse; simpl;
    rewrite Em; simpl; rewrite Eas; simpl; rewrite Ec; reflexivity.
Qed.

(** X9.  The rule for assistant messages.  For every line that parses to
    an assistant message none of whose content blocks is null, parseLine
    skips the line exactly when no block is a tool_use block and some block
    is a text block with truthy text; in every other case the data event
    carries the whole parsed object.  In particular an assistant message
    with a tool_use block is always emitted whole. *)
Theorem assistant_message_rule :
  forall (parse : string -> option JValue) (line : string) (data : JValue)
         (blocks : list JValue),
    nonempty (trim line) = true ->
    parse (trim line) = Some data ->
    assistantBlocks data = Some blocks ->
    forallb (fun v => negb (nullish v)) blocks = true ->
    parseLine parse line
    = (if negb (existsb isToolUseBlock blocks) && existsb carriesText blocks
       then JNull else data)
    /\ (existsb isToolUseBlock blocks = true -> parseLine parse line = data).
Proof.
  intros parse line data blocks Hne Hp Hb Hnn.
  assert (E : parseLine parse line
              = if negb (existsb isToolUseBlock blocks) && existsb carriesText blocks
                then JNull else data).
  { unfold parseLine. rewrite Hne, Hp. simpl.
    rewrite (extract_assistant data blocks Hb),
      (some_isToolUse_not_nullish blocks Hnn), (some_isText_not_nullish blocks Hnn).
    simpl.
    destruct (negb (existsb isToolUseBlock blocks) && existsb carriesText blocks);
      reflexivity. }
  split; [exact E|]. intros Ht. rewrite E, Ht. reflexivity.
Qed.

Lemma assistant_message_rule_witness :
  let tool := JObject [("type", JString "tool_use"); ("name", JString "Read")] in
  let text := JObject [("type", JString "text"); ("text", JString "hi")] in
  let data := JObject [("type", JString "assistant");
                       ("message", JObject [("content", JArray [text; tool])])] in
  let line := ("{" ++ dq ++ "type" ++ dq ++ ":" ++ dq ++ "assistant" ++ dq ++ ","
               ++ dq ++ "message" ++ dq ++ ":{" ++ dq ++ "content" ++ dq ++ ":[{"
               ++ dq ++ "type" ++ dq ++ ":" ++ dq ++ "text" ++ dq ++ ","
               ++ dq ++ "text" ++ dq ++ ":" ++ dq ++ "hi" ++ dq ++ "},{"
               ++ dq ++ "type" ++ dq ++ ":" ++ dq ++ "tool_use" ++ dq ++ ","
               ++ dq ++ "name" ++ dq ++ ":" ++ dq ++ "Read" ++ dq ++ "}]}}")%string in
  parseLine JSON_parse line
  = (if negb (existsb isToolUseBlock [text; tool]) && existsb carriesText [text; tool]
     then JNull else data)
  /\ (existsb isToolUseBlock [text; tool] = true -> parseLine JSON_parse line = data).
Proof.
  intros tool text data line.
  apply (assistant_message_rule JSON_parse line data [text; tool]);
    vm_compute; reflexivity.
Defined.

(** *** Result lines *)

Lemma lookup_obj_delete (k k' : string) (props : list (string * JValue)) :
  lookup k' (obj_delete k props)
  = if String.eqb k k' then None else lookup k' props.
Proof.
  unfold obj_delete. induction props as [|[key v] rest IH]; simpl.
  - destruct (String.eqb k k'); reflexivity.
  - destruct (String.eqb_spec k key) as [->|Hk]; simpl.
    + rewrite IH. destruct (String.eqb_spec key k') as [->|Hk'].
      * reflexivity.
      * destruct (String.eqb_spec k' key) as [->|]; [contradiction|reflexivity].
    + rewrite IH. destruct (String.eqb_spec k' key) as [->|Hk'].
      * destruct (String.eqb_spec k key) as [->|]; [contradiction|reflexivity].
      * reflexivity.
Qed.

(** X10.  The rule for result lines.  For every line that parses to an
    object whose [type] is 'result', the data event carries a copy of the
    object without its [result] property: the copy has no [result], and
    every other property is kept with its value and in its place. *)
Theorem result_line_loses_only_its_result :
  forall (parse : string -> option JValue) (line : string)
         (props : list (string * JValue)),
    nonempty (trim line) = true ->
    parse (trim line) = Some (JObject props) ->
    lookup "type" props = Some (JString "result") ->
    exists kept,
      parseLine parse line = JObject kept
      /\ kept = filter (fun kv => negb (String.eqb "result" (fst kv))) props
      /\ lookup "result" kept = None
      /\ forall k, k <> "result" -> lookup k kept = lookup k props.
Proof.
  intros parse line props Hne Hp Hty.
  exists (obj_delete "result" props).
  split; [|split; [reflexivity|split]].
  - unfold parseLine. rewrite Hne, Hp. simpl.
    unfold extractTextContent. simpl. rewrite Hty. simpl.
    destruct (lookup "event" props); simpl;
      destruct (lookup "message" props); reflexivity.
  - rewrite lookup_obj_delete. reflexivity.
  - intros k Hk. rewrite lookup_obj_delete.
    destruct (String.eqb_spec "result" k) as [<-|]; [contradiction|reflexivity].
Qed.

Lemma result_line_loses_only_its_result_witness :
  let line := ("{" ++ dq ++ "type" ++ dq ++ ":" ++ dq ++ "result" ++ dq ++ ","
               ++ dq ++ "result" ++ dq ++ ":" ++ dq ++ "done" ++ dq ++ ","
               ++ dq ++ "cost" ++ dq ++ ":3}")%string in
  let props := [("type", JString "result"); ("result", JString "done");
                ("cost", JNumber 3 0)] in
  exists kept,
    parseLine JSON_parse line = JObject kept
    /\ kept = filter (fun kv => negb (String.eqb "result" (fst kv))) props
    /\ lookup "result" kept = None
    /\ forall k, k <> "result" -> lookup k kept = lookup k props.
Proof.
  intros line props.
  apply (result_line_loses_only_its_result JSON_parse line props);
    vm_compute; reflexivity.
Defined.

(** *** Lines emitted as plain text *)

(** X11.  The fallback to plain text.  A line that is not blank is
    emitted as a data event carrying its trimmed text, not skipped, in each
    of these cases: JSON.parse throws on it; it parses to null, on which the
    first property read throws; it parses to an assistant message with a
    null content block that no tool_use block precedes, on which the scan
    for a tool invocation throws. *)
Theorem unreadable_line_is_emitted_as_text :
  forall (parse : string -> option JValue) (line : string),
    nonempty (trim line) = true ->
    (parse (trim line) = None
     \/ parse (trim line) = Some JNull
     \/ exists data before after,
          parse (trim line) = Some data
          /\ assistantBlocks data = Some (before ++ JNull :: after)
          /\ forallb (fun v => negb (nullish v)) before = true
          /\ existsb isToolUseBlock before = false) ->
    parseLine parse line = JString (trim line)
    /\ parseLine parse line <> JNull.
Proof.
  intros parse line Hne H.
  assert (E : parseLine parse line = JString (trim line)).
  { unfold parseLine. rewrite Hne. simpl.
    destruct H as [H|[H|(data & before & after & H & Hb & Hnn & Hnt)]]; rewrite H.
    - reflexivity.
    - reflexivity.
    - rewrite (extract_assistant data _ Hb),
        (some_isToolUse_throws before after Hnn Hnt). reflexivity. }
  split; [exact E|]. rewrite E. discriminate.
Qed.

Lemma unreadable_line_is_emitted_as_text_witness :
  parseLine JSON_parse "  null " = JString "null"
  /\ parseLine JSON_parse "  null " <> JNull.
Proof.
  apply (unreadable_line_is_emitted_as_text JSON_parse "  null ").
  - reflexivity.
  - right. left. reflexivity.
Defined.

(** *** Stream events *)

(** X12.  The rule for stream events.  For every line that parses to an
    object whose [type] is 'stream_event' and whose [event] is truthy, the
    line is never skipped: the data event carries the text of the delta when
    the event is a content_block_delta whose delta is a text_delta with a
    string as text (also when that string is empty), and the whole parsed
    object otherwise. *)
Theorem stream_event_rule :
  forall (parse : string -> option JValue) (line : string)
         (props : list (string * JValue)) (event : JValue),
    nonempty (trim line) = true ->
    parse (trim line) = Some (JObject props) ->
    lookup "type" props = Some (JString "stream_event") ->
    lookup "event" props = Some event ->
    truthy event = true ->
    parseLine parse line
    = match textDelta (JObject props) with
      | Some text => JString text
      | None => JObject props
      end.
Proof.
  intros parse line props event Hne Hp Hty Hev Htr.
  unfold parseLine. rewrite Hne, Hp. simpl.
  unfold extractTextContent, textDelta. simpl. rewrite Hty, Hev. simpl.
  rewrite Htr. simpl.
  destruct event as [| | | | | | |eprops]; simpl in *; try discriminate; try reflexivity.
  destruct (lookup "type" eprops) as [ety|]; simpl.
  - destruct (lookup "delta" eprops) as [delta|]; simpl.
    + destruct (is_string ety "content_block_delta"); simpl.
      * destruct delta as [| |b|m e|neg|s|items|dprops]; simpl; try reflexivity.
        -- destruct b; reflexivity.
        -- destruct (number_is_zero m e); reflexivity.
        -- destruct s; reflexivity.
        -- destruct (lookup "type" dprops) as [dty|]; simpl.
           ++ destruct (lookup "text" dprops) as [x|]; simpl; [|reflexivity].
              destruct x; try reflexivity.
              destruct (is_string dty "text_delta"); reflexivity.
           ++ destruct (lookup "text" dprops) as [x|]; simpl; [|reflexivity].
              destruct x; reflexivity.
      * destruct delta; reflexivity.
    + rewrite andb_false_r. reflexivity.
  - destruct (lookup "delta" eprops) as [delta|]; simpl; [|reflexivity].
    destruct delta; reflexivity.
Qed.

Lemma stream_event_rule_witness :
  let line := ("{" ++ dq ++ "type" ++ dq ++ ":" ++ dq ++ "stream_event" ++ dq ++ ","
               ++ dq ++ "event" ++ dq ++ ":{"
               ++ dq ++ "type" ++ dq ++ ":" ++ dq ++ "content_block_delta" ++ dq ++ ","
               ++ dq ++ "delta" ++ dq ++ ":{"
               ++ dq ++ "type" ++ dq ++ ":" ++ dq ++ "text_delta" ++ dq ++ ","
               ++ dq ++ "text" ++ dq ++ ":" ++ dq ++ "He" ++ dq ++ "}}}")%string in
  let delta := JObject [("type", JString "text_delta"); ("text", JString "He")] in
  let event := JObject [("type", JString "content_block_delta"); ("delta", delta)] in
  let props := [("type", JString "stream_event"); ("event", event)] in
  parseLine JSON_parse line
  = match textDelta (JObject props) with
    | Some text => JString text
    | None => JObject props
    end.
Proof.
  intros line delta event props.
  apply (stream_event_rule JSON_parse line props event); vm_compute; reflexivity.
Defined.

(** *** Frames *)

Lemma split_single_line (a b : string) :
  single_line a = true ->
  split "010" (a ++ String "010" b) = a :: split "010" b.
Proof.
  induction a as [|c a IH]; simpl; [reflexivity|].
  intros H. apply andb_true_iff in H as [H1 H2]. apply negb_true_iff in H1.
  rewrite H1, (IH H2). reflexivity.
Qed.

Lemma split_frame (stringify : SSEEvent -> string) (event : SSEEvent) (rest : string) :
  single_line (stringify event) = true ->
  split "010" (toSSEFormat stringify event ++ rest)
  = frame_lines stringify event ++ split "010" rest.
Proof.
  intros H. unfold toSSEFormat, frame_lines.
  replace (("data: " ++ stringify event ++ String "010" (String "010" EmptyString))
           ++ rest)%string
    with (("data: " ++ stringify event) ++ String "010" (String "010" rest))%string
    by (rewrite !append_assoc; reflexivity).
  rewrite split_single_line; [reflexivity|]. exact H.
Qed.

Lemma concat_cons (x : string) (l : list string) :
  String.concat EmptyString (x :: l) = (x ++ String.concat EmptyString l)%string.
Proof.
  destruct l as [|y l]; [|reflexivity].
  simpl. induction x as [|c x IH]; simpl; congruence.
Qed.

(** X13.  Frames are self-delimiting.  When JSON.stringify puts no line
    feed in its output, the frames of any sequence of events, written one
    after the other, split at line feeds into exactly the data line and the
    empty line of each event in order, followed by one empty piece: a client
    recovers every event, and no frame runs into the next. *)
Theorem frames_are_self_delimiting :
  forall (stringify : SSEEvent -> string) (events : list SSEEvent),
    (forall event, single_line (stringify event) = true) ->
    split "010" (String.concat EmptyString (frames stringify events))
    = flat_map (frame_lines stringify) events ++ [EmptyString].
Proof.
  intros stringify events Hs.
  induction events as [|ev events IH]; [reflexivity|].
  cbn [frames map flat_map]. fold (frames stringify events).
  rewrite concat_cons, split_frame by apply Hs.
  rewrite IH. reflexivity.
Qed.

Lemma frames_are_self_delimiting_witness :
  let stringify := fun event : SSEEvent =>
                     match event with
                     | Start _ => "start"
                     | Data _ => "data"
                     | Error _ => "error"
                     | End _ => "end"
                     end in
  split "010" (String.concat EmptyString (frames stringify [Start "new"; End "new"]))
  = flat_map (frame_lines stringify) [Start "new"; End "new"] ++ [EmptyString].
Proof.
  intros stringify.
  apply (frames_are_self_delimiting stringify [Start "new"; End "new"]).
  intros []; reflexivity.
Defined.

End StreamRulesFacts.

(* ================================================================== *)
(** * Further properties of the chat handler *)
(* ================================================================== *)

Module ChatRulesFacts.
Import Js Permission Stream Chat ChatRules Samples StreamFacts ChatFacts.

Section Forwarding.

Variable JSON_parse : string -> option JValue.





Lemma filter_writes (p : Effect -> bool) (l : list Effect) :
  (forall frame, p (Write frame) = false) ->
  forallb isWrite l = true -> filter p l = [].
Proof.
  intros Hp. induction l as [|e l IH]; simpl; [reflexivity|].
  intros H. apply andb_true_iff in H as [H1 H2].
  destruct e; try discriminate. rewrite Hp. exact (IH H2).
Qed.

(** What is left of the trace of a job that streams when only the
    effects [p] selects are kept, for a selection that keeps no write, no
    header, no log line, no end of response, no kill and no reply. *)
Lemma chatJob_filter (p : Effect -> bool) (b : ClaudePrompt) (env : Environment) :
  (forall e, p e = true -> isSpawn e = true \/ isStdinWrite e = true) ->
  chatRequestSchema b = [] ->
  stdinError env = None ->
  filter p (chatJob JSON_parse {| body := b; environment := env |})
  = filter p (jobLaunch b env).
Proof.
  intros Hp Hv Hs. rewrite (chatJob_valid JSON_parse b env Hv Hs).
  assert (Hno : forall x, isSpawn x = false -> isStdinWrite x = false -> p x = false).
  { intros x H1 H2. destruct (p x) eqn:E; [|reflexivity].
    destruct (Hp x E) as [H|H]; congruence. }
  assert (Hnil : forall l, forallb (fun x => negb (isSpawn x) && negb (isStdinWrite x)) l = true ->
                           filter p l = []).
  { induction l as [|x l IH]; simpl; [reflexivity|].
    intros H. apply andb_true_iff in H as [H1 H2].
    apply andb_true_iff in H1 as [A B].
    apply negb_true_iff in A. apply negb_true_iff in B.
    rewrite (Hno x A B). exact (IH H2). }
  assert (Hlog : filter p (jobErrorEvent env) = []).
  { apply Hnil. unfold jobErrorEvent. destruct (spawnError env); reflexivity. }
  assert (Hrest : filter p (jobRest JSON_parse b env) = []).
  { unfold jobRest.
    pose proof (forward_writes env (jobEvents JSON_parse b env) 0) as Hw.
    destruct (forward env (jobEvents JSON_parse b env) 0) as [[writes e] n].
    cbn [fst] in Hw. rewrite filter_app.
    rewrite (filter_writes p writes (fun frame => Hno (Write frame) eq_refl eq_refl) Hw).
    apply Hnil. unfold onCatch.
    destruct e; try reflexivity;
      try (destruct (writableEnded env n); reflexivity).
    destruct (headersAlreadySent env || negb (Nat.eqb n 0)); reflexivity. }
  rewrite filter_app. destruct (headersAlreadySent env).
  - rewrite filter_app, Hlog, (Hnil (onCatch true headersSentError) eq_refl), !app_nil_r.
    reflexivity.
  - unfold deliver. rewrite !filter_app, Hlog, (Hnil sseHeaders eq_refl).
    cbn [app]. rewrite <- filter_app, firstn_skipn, Hrest, app_nil_r. reflexivity.
Qed.

Lemma spawns_of_chatJob (b : ClaudePrompt) (env : Environment) :
  chatRequestSchema b = [] ->
  filter isSpawn (chatJob JSON_parse {| body := b; environment := env |})
  = [Spawn "claude" (jobArgs b env) (jobDirectory b env)].
Proof.
  intros Hv. destruct (stdinError env) as [message|] eqn:Hs.
  - unfold chatJob, spawnClaudeProcess. cbn [body environment].
    rewrite Hv, Hs. cbv beta iota zeta. unfold onCatch.
    assert (Hdir : (if option_truthy (option_map trim (workspace b))
                    then match option_map trim (workspace b) with
                         | Some w => w
                         | None => workingDir env
                         end
                    else workingDir env) = jobDirectory b env).
    { unfold jobDirectory, option_truthy.
      destruct (option_map trim (workspace b)) as [w|]; reflexivity. }
    rewrite Hdir. destruct (headersAlreadySent env); reflexivity.
  - rewrite (chatJob_filter isSpawn b env); [reflexivity| |exact Hv|exact Hs].
    intros e He. left. exact He.
Qed.

End Forwarding.







(** X17.  One child per valid request.  Whatever the environment does
    (the write to standard input failing, the response ending early, a
    write throwing), the job of a request starts exactly one process when
    the request passes validation, the command claude with the arguments and
    the directory computed from the request, and none when it does not. *)
Theorem job_spawns_once_if_valid :
  forall (parse : string -> option JValue) (b : ClaudePrompt) (env : Environment),
    filter isSpawn (chatJob parse {| body := b; environment := env |})
    = match chatRequestSchema b with
      | [] => [Spawn "claude" (jobArgs b env) (jobDirectory b env)]
      | _ :: _ => []
      end.
Proof.
  intros parse b env. destruct (chatRequestSchema b) as [|issue issues] eqn:Hv.
  - exact (spawns_of_chatJob parse b env Hv).
  - unfold chatJob. cbn [body environment]. rewrite Hv.
    destruct (headersAlreadySent env); reflexivity.
Qed.

(** X18.  The prompt reaches the child only through its standard input.
    Two valid requests that differ only in their prompt and their vision
    field start the child with the same command line in the same directory;
    and when the write to standard input succeeds, the only thing written
    there is the prompt, extended by the restriction clause when vision
    applies, followed by a line feed. *)
Theorem prompt_reaches_the_child_only_on_stdin :
  forall (parse : string -> option JValue) (b b' : ClaudePrompt) (env : Environment),
    chatRequestSchema b = [] ->
    chatRequestSchema b' = [] ->
    Chat.sessionId b = Chat.sessionId b' ->
    workspace b = workspace b' ->
    externaldirs b = externaldirs b' ->
    allowedmode b = allowedmode b' ->
    filter isSpawn (chatJob parse {| body := b; environment := env |})
    = filter isSpawn (chatJob parse {| body := b'; environment := env |})
    /\ (stdinError env = None ->
        filter isStdinWrite (chatJob parse {| body := b; environment := env |})
        = [StdinWrite
             (applyVisionRestriction (prompt b) (option_map trim (vision b))
              ++ String "010" EmptyString)%string]).
Proof.
  intros parse b b' env Hv Hv' H1 H2 H3 H4. split.
  - rewrite (spawns_of_chatJob parse b env Hv), (spawns_of_chatJob parse b' env Hv').
    unfold jobArgs, jobDirectory, jobSession. rewrite H1, H2, H3, H4. reflexivity.
  - intros Hs. rewrite (chatJob_filter parse isStdinWrite b env); [reflexivity| |exact Hv|exact Hs].
    intros e He. right. exact He.
Qed.

Lemma prompt_reaches_the_child_only_on_stdin_witness :
  let other := {| prompt := "rm -rf / ; echo"; sessionId := None; workspace := None;
                  externaldirs := None; allowedmode := None; vision := Some "strict" |} in
  filter isSpawn (chatJob JSON_parse {| body := hello; environment := quiet |})
  = filter isSpawn (chatJob JSON_parse {| body := other; environment := quiet |})
  /\ (stdinError quiet = None ->
      filter isStdinWrite (chatJob JSON_parse {| body := hello; environment := quiet |})
      = [StdinWrite
           (applyVisionRestriction (prompt hello) (option_map trim (vision hello))
            ++ String "010" EmptyString)%string]).
Proof.
  intros other.
  apply (prompt_reaches_the_child_only_on_stdin JSON_parse hello other quiet);
    reflexivity.
Defined.

(** X28.  A blank session identifier starts a new session.  The session
    of a request is its sessionId, untrimmed, when that holds anything
    besides white space, and none otherwise.  With a session, the command
    line of the child is the one of a new session followed by --resume and
    the identifier, and the transcoder opens with the start event of that
    identifier; without one, nothing is resumed and the start event carries
    the identifier 'new'. *)
Theorem blank_session_starts_a_new_one :
  forall (parse : string -> option JValue) (b : ClaudePrompt) (env : Environment),
    let fresh_args :=
      buildClaudeArgs None true (mcpConfigPath env)
        (Some (buildPermissionArgs
                 (buildPermissionConfig (option_map trim (allowedmode b))
                    (option_map trim (workspace b))
                    (option_map trim (externaldirs b))))) in
    match Chat.sessionId b with
    | Some id =>
        if nonempty (trim id)
        then jobSession b = Some id
             /\ jobArgs b env = fresh_args ++ ["--resume"; id]
             /\ hd_error (jobEvents parse b env) = Some (Start id)
        else jobSession b = None
             /\ jobArgs b env = fresh_args
             /\ hd_error (jobEvents parse b env) = Some (Start "new")
    | None =>
        jobSession b = None
        /\ jobArgs b env = fresh_args
        /\ hd_error (jobEvents parse b env) = Some (Start "new")
    end.
Proof.
  intros parse b env fresh_args.
  assert (Hnew : jobSession b = None ->
                 jobArgs b env = fresh_args
                 /\ hd_error (jobEvents parse b env) = Some (Start "new")).
  { intros H. unfold jobArgs, jobEvents. rewrite H, drain_closed_form.
    split; reflexivity. }
  assert (Hold : forall id,
             jobSession b = Some id -> nonempty id = true ->
             jobArgs b env = fresh_args ++ ["--resume"; id]
             /\ hd_error (jobEvents parse b env) = Some (Start id)).
  { intros id H Hne. unfold jobArgs, jobEvents. rewrite H, drain_closed_form.
    split; [|reflexivity]. unfold fresh_args, buildClaudeArgs. rewrite Hne.
    cbn [app]. rewrite app_nil_r, <- app_assoc. reflexivity. }
  destruct (Chat.sessionId b) as [id|] eqn:E.
  - assert (Hs : jobSession b
                 = if nonempty id && nonempty (trim id) then Some id else None).
    { unfold jobSession. rewrite E. reflexivity. }
    destruct id as [|c id].
    + change (nonempty (trim EmptyString)) with false.
      cbn [nonempty andb] in Hs. split; [exact Hs|exact (Hnew Hs)].
    + cbn [nonempty andb] in Hs.
      destruct (nonempty (trim (String c id))).
      * split; [exact Hs|exact (Hold _ Hs eq_refl)].
      * split; [exact Hs|exact (Hnew Hs)].
  - assert (Hs : jobSession b = None) by (unfold jobSession; rewrite E; reflexivity).
    split; [exact Hs|exact (Hnew Hs)].
Qed.

End ChatRulesFacts.

(* ================================================================== *)
(** * Properties of the permission arguments and of the utilities *)
(* ================================================================== *)

Module TextFacts.
Import Js Text.

Lemma split_free (sep : ascii) (s : string) :
  free_of sep s = true -> split sep s = [s].
Proof.
  induction s as [|c s IH]; simpl; [reflexivity|].
  intros H. apply andb_true_iff in H as [H1 H2]. apply negb_true_iff in H1.
  rewrite H1, (IH H2). reflexivity.
Qed.

Lemma split_app (sep : ascii) (a b : string) :
  free_of sep a = true ->
  split sep (a ++ String sep b) = a :: split sep b.
Proof.
  induction a as [|c a IH]; simpl.
  - intros _. rewrite Ascii.eqb_refl. reflexivity.
  - intros H. apply andb_true_iff in H as [H1 H2]. apply negb_true_iff in H1.
    rewrite H1, (IH H2). reflexivity.
Qed.

Lemma split_not_nil (sep : ascii) (s : string) : split sep s <> [].
Proof.
  induction s as [|c s IH]; simpl; [discriminate|].
  destruct (Ascii.eqb c sep); [discriminate|].
  destruct (split sep s); discriminate.
Qed.

Lemma split_pieces_free (sep : ascii) (s : string) :
  Forall (fun piece => free_of sep piece = true) (split sep s).
Proof.
  induction s as [|c s IH]; simpl.
  - constructor; [reflexivity|constructor].
  - destruct (Ascii.eqb c sep) eqn:E.
    + constructor; [reflexivity|exact IH].
    + destruct (split sep s) as [|w ws].
      * constructor; [simpl; rewrite E; reflexivity|constructor].
      * inversion IH as [|x l Hx Hl]; subst.
        constructor; [simpl; rewrite E, Hx; reflexivity|exact Hl].
Qed.

Lemma split_concat (sep : ascii) (pieces : list string) :
  pieces <> [] ->
  Forall (fun piece => free_of sep piece = true) pieces ->
  split sep (String.concat (String sep EmptyString) pieces) = pieces.
Proof.
  induction pieces as [|a pieces IH]; [contradiction|].
  intros _ H. inversion H as [|x l Ha Hl]; subst.
  destruct pieces as [|b pieces].
  - simpl. exact (split_free sep a Ha).
  - change (String.concat (String sep EmptyString) (a :: b :: pieces))
      with (a ++ String sep (String.concat (String sep EmptyString) (b :: pieces)))%string.
    rewrite (split_app sep a _ Ha), IH; [reflexivity|discriminate|exact Hl].
Qed.

Lemma last_in (A : Type) (l : list A) (d : A) : l <> [] -> In (last l d) l.
Proof.
  induction l as [|a l IH]; [contradiction|]. intros _.
  destruct l as [|b l]; [left; reflexivity|].
  right. apply IH. discriminate.
Qed.

End TextFacts.

Module PermissionRulesFacts.
Import Js Text Permission Chat TextFacts.

(** X19.  The external directories.  For pieces that contain no comma,
    joined by commas into a non-empty externaldirs text, the configuration
    lists exactly the pieces, trimmed, without those that are blank, in
    their order; every listed directory becomes one --add-dir argument pair,
    in the same order, after the other permission arguments; and whatever
    externaldirs is, no listed directory is empty. *)
Theorem externaldirs_are_trimmed_and_kept_in_order :
  forall (mode workspace : option string) (pieces : list string),
    Forall (fun piece => free_of "," piece = true) pieces ->
    nonempty (String.concat "," pieces) = true ->
    let config := buildPermissionConfig mode workspace (Some (String.concat "," pieces)) in
    addDirs config = Some (filter nonempty (map trim pieces))
    /\ buildPermissionArgs config
       = buildPermissionArgs (buildPermissionConfig mode workspace None)
         ++ flat_map (fun d => ["--add-dir"; d]) (filter nonempty (map trim pieces))
    /\ forall (externaldirs : option string) (dirs : list string) (d : string),
         addDirs (buildPermissionConfig mode workspace externaldirs) = Some dirs ->
         In d dirs -> nonempty d = true.
Proof.
  intros mode workspace pieces Hfree Hne config.
  assert (Hp : pieces <> []) by (intros ->; discriminate).
  assert (E : addDirs config = Some (filter nonempty (map trim pieces))).
  { unfold config, buildPermissionConfig. cbn [addDirs]. rewrite Hne.
    rewrite (split_concat "," pieces Hp Hfree). reflexivity. }
  split; [exact E|]. split.
  - unfold buildPermissionArgs. rewrite E. unfold config, buildPermissionConfig.
    cbn [allowedTools noIndexing addDirs]. rewrite app_nil_r, <- app_assoc.
    reflexivity.
  - intros externaldirs dirs d Hd Hin. unfold buildPermissionConfig in Hd.
    cbn [addDirs] in Hd. destruct externaldirs as [e|]; [|discriminate].
    destruct (nonempty e); [|discriminate]. injection Hd as <-.
    apply filter_In in Hin as [_ H]. exact H.
Qed.

Lemma externaldirs_are_trimmed_and_kept_in_order_witness :
  let pieces := ["D:\Res"; "  "; " C:\Logs "] in
  let config := buildPermissionConfig None None (Some (String.concat "," pieces)) in
  addDirs config = Some (filter nonempty (map trim pieces))
  /\ buildPermissionArgs config
     = buildPermissionArgs (buildPermissionConfig None None None)
       ++ flat_map (fun d => ["--add-dir"; d]) (filter nonempty (map trim pieces))
  /\ forall (externaldirs : option string) (dirs : list string) (d : string),
       addDirs (buildPermissionConfig None None externaldirs) = Some dirs ->
       In d dirs -> nonempty d = true.
Proof.
  intros pieces.
  apply (externaldirs_are_trimmed_and_kept_in_order None None pieces).
  - repeat constructor.
  - reflexivity.
Defined.

(** X20.  The permission modes.  For every non-empty mode, the permission
    arguments start with --allowedTools and the allow list of the mode,
    followed by --no-indexing exactly for the modes pure and simple.  The
    allow list is not empty for each of the four modes the request schema
    accepts, and it is the empty string for every other mode.  A mode the
    schema accepts is not changed by the trimming the handler applies. *)
Theorem allow_list_is_empty_exactly_for_unknown_modes :
  forall (mode : string) (workspace : option string),
    nonempty mode = true ->
    buildPermissionArgs (buildPermissionConfig (Some mode) workspace None)
    = ["--allowedTools"; buildAllowedToolsArg mode workspace]
      ++ (if String.eqb mode "pure" || String.eqb mode "simple"
          then ["--no-indexing"] else [])
    /\ (isPermissionMode mode = true ->
        nonempty (buildAllowedToolsArg mode workspace) = true /\ trim mode = mode)
    /\ (isPermissionMode mode = false ->
        buildAllowedToolsArg mode workspace = EmptyString).
Proof.
  intros mode workspace Hne. split; [|split].
  - unfold buildPermissionArgs, buildPermissionConfig.
    cbn [allowedTools noIndexing addDirs]. rewrite Hne.
    destruct (String.eqb mode "pure" || String.eqb mode "simple"); reflexivity.
  - unfold isPermissionMode, buildAllowedToolsArg. intros H.
    destruct (String.eqb_spec mode "pure") as [->|_]; [split; reflexivity|].
    destruct (String.eqb_spec mode "simple") as [->|_]; [split; reflexivity|].
    destruct (String.eqb_spec mode "readonly") as [->|_]; [split; reflexivity|].
    destruct (String.eqb_spec mode "projectwrite") as [->|_]; [|discriminate].
    split; [|reflexivity].
    destruct workspace as [w|]; [|reflexivity]. destruct (nonempty w); reflexivity.
  - unfold isPermissionMode, buildAllowedToolsArg. intros H.
    destruct (String.eqb mode "pure"); [discriminate|].
    destruct (String.eqb mode "simple"); [discriminate|].
    destruct (String.eqb mode "readonly"); [discriminate|].
    destruct (String.eqb mode "projectwrite"); [discriminate|reflexivity].
Qed.

Lemma allow_list_is_empty_exactly_for_unknown_modes_witness :
  buildPermissionArgs (buildPermissionConfig (Some "simple") (Some "D:/Proj") None)
  = ["--allowedTools"; buildAllowedToolsArg "simple" (Some "D:/Proj")]
    ++ (if String.eqb "simple" "pure" || String.eqb "simple" "simple"
        then ["--no-indexing"] else [])
  /\ (isPermissionMode "simple" = true ->
      nonempty (buildAllowedToolsArg "simple" (Some "D:/Proj")) = true
      /\ trim "simple" = "simple")
  /\ (isPermissionMode "simple" = false ->
      buildAllowedToolsArg "simple" (Some "D:/Proj") = EmptyString).
Proof.
  apply (allow_list_is_empty_exactly_for_unknown_modes "simple" (Some "D:/Proj")).
  reflexivity.
Defined.

End PermissionRulesFacts.

Module GitFacts.
Import Js Text Git TextFacts.

Lemma length_append (a b : string) :
  String.length (a ++ b) = (String.length a + String.length b)%nat.
Proof. induction a as [|c a IH]; simpl; [reflexivity|]. rewrite IH. reflexivity. Qed.

Lemma withoutGit_suffix (x : string) : withoutGit (x ++ ".git") = x.
Proof.
  induction x as [|c x IH]; [reflexivity|].
  cbn [append withoutGit].
  destruct (String.eqb_spec (String c (x ++ ".git")) ".git") as [E|_].
  - apply (f_equal String.length) in E. simpl in E.
    rewrite length_append in E. simpl in E. lia.
  - rewrite IH. reflexivity.
Qed.

Lemma split_last (sep : ascii) (a b : string) :
  free_of sep b = true ->
  last (split sep (a ++ String sep b)) EmptyString = b.
Proof.
  intros Hb. induction a as [|c a IH]; cbn [append split].
  - rewrite Ascii.eqb_refl, (split_free sep b Hb). reflexivity.
  - pose proof (split_not_nil sep (a ++ String sep b)) as Hn.
    destruct (Ascii.eqb c sep).
    + destruct (split sep (a ++ String sep b)) as [|w ws]; [contradiction|exact IH].
    + destruct (split sep (a ++ String sep b)) as [|w ws] eqn:E; [contradiction|].
      destruct ws as [|w' ws]; [|exact IH].
      exfalso. clear IH Hn.
      assert (Hlen : (2 <= length (split sep (a ++ String sep b)))%nat).
      { clear E. induction a as [|d a IHa]; cbn [append split].
        - rewrite Ascii.eqb_refl. pose proof (split_not_nil sep b) as H.
          destruct (split sep b); [contradiction|simpl; lia].
        - destruct (Ascii.eqb d sep); [simpl; lia|].
          destruct (split sep (a ++ String sep b)); simpl in *; lia. }
      rewrite E in Hlen. simpl in Hlen. lia.
Qed.

(** X21.  The directory name taken from a repository URL.  Whatever the
    URL, extractRepoName returns a non-empty name that contains no slash.
    For a URL that ends with a slash, a non-empty name without slash, and
    '.git', it returns that name. *)
Theorem extractRepoName_is_a_single_path_segment :
  forall repo : string,
    nonempty (extractRepoName repo) = true
    /\ free_of "/" (extractRepoName repo) = true
    /\ forall base name : string,
         free_of "/" name = true ->
         nonempty name = true ->
         extractRepoName (base ++ "/" ++ name ++ ".git") = name.
Proof.
  intros repo. split; [|split].
  - unfold extractRepoName.
    destruct (nonempty (last (split "/" (withoutGit repo)) EmptyString)) eqn:E;
      [exact E|reflexivity].
  - unfold extractRepoName.
    destruct (nonempty (last (split "/" (withoutGit repo)) EmptyString));
      [|reflexivity].
    pose proof (split_pieces_free "/" (withoutGit repo)) as H.
    rewrite Forall_forall in H. apply H.
    apply last_in. apply split_not_nil.
  - intros base name Hf Hn. unfold extractRepoName.
    replace (base ++ "/" ++ name ++ ".git")%string
      with ((base ++ String "/" name) ++ ".git")%string.
    + rewrite withoutGit_suffix, (split_last "/" base name Hf), Hn. reflexivity.
    + clear. induction base as [|c base IH]; simpl; [reflexivity|].
      rewrite IH. reflexivity.
Qed.

(** X22.  getTargetDirectory never clones for a resumed session or
    without a repository: it returns the working directory and touches
    nothing, which is what the chat handler, which passes no repository,
    relies on.  With a repository and no session it looks once for the
    directory of the repository under the working directory, clones at most
    once and only when that directory is missing, and returns that directory
    unless the clone fails, in which case it throws. *)
Theorem getTargetDirectory_clones_only_a_missing_repository :
  forall (disk : Disk) (session repo : option string) (workingDir : string),
    let result := getTargetDirectory disk session repo workingDir in
    let resumed := match session with Some x => nonempty x | None => false end in
    let wanted := match repo with Some x => nonempty x | None => false end in
    (resumed || negb wanted = true -> result = ([], inl workingDir))
    /\ (resumed || negb wanted = false ->
        forall url, repo = Some url ->
          let repoPath := join disk workingDir (extractRepoName url) in
          filter isClone (fst result)
          = (if existsSync disk repoPath then [] else [Clone url workingDir])
          /\ (snd result = inl repoPath
              \/ (existsSync disk repoPath = false
                  /\ cloneStatus disk url <> Some 0
                  /\ exists message stderr, snd result = inr (CloneFailed message stderr)))).
Proof.
  intros disk session repo workingDir result resumed wanted. split.
  - intros H. unfold result, getTargetDirectory. fold resumed.
    destruct resumed; [reflexivity|]. simpl in H. apply negb_true_iff in H.
    unfold wanted in H. destruct repo as [url|]; [|reflexivity].
    rewrite H. reflexivity.
  - intros H url ->. apply orb_false_iff in H as [H1 H2].
    apply negb_false_iff in H2. unfold wanted in H2.
    intros repoPath. unfold result, getTargetDirectory. fold resumed.
    rewrite H1, H2. cbn [negb]. fold repoPath.
    destruct (existsSync disk repoPath) eqn:E; cbn [negb].
    + split; [reflexivity|left; reflexivity].
    + unfold cloneRepo.
      destruct (cloneStatus disk url) as [[|p|p]|] eqn:S; cbn [fst snd];
        (split; [reflexivity|]);
        try (left; reflexivity);
        right; (split; [reflexivity|]); (split; [discriminate|]);
        eexists _, _; reflexivity.
Qed.

Lemma getTargetDirectory_clones_only_a_missing_repository_witness :
  let disk := {| join := fun a b => (a ++ "/" ++ b)%string;
                 existsSync := fun _ => false;
                 cloneStatus := fun _ => Some 0;
                 cloneStderr := fun _ => None |} in
  let result := getTargetDirectory disk None (Some "https://github.com/user/repo.git")
                  "/srv/work" in
  (false || negb true = true -> result = ([], inl "/srv/work"))
  /\ (false || negb true = false ->
      forall url, Some "https://github.com/user/repo.git" = Some url ->
        let repoPath := join disk "/srv/work" (extractRepoName url) in
        filter isClone (fst result)
        = (if existsSync disk repoPath then [] else [Clone url "/srv/work"])
        /\ (snd result = inl repoPath
            \/ (existsSync disk repoPath = false
                /\ cloneStatus disk url <> Some 0
                /\ exists message stderr, snd result = inr (CloneFailed message stderr)))).
Proof.
  intros disk.
  exact (getTargetDirectory_clones_only_a_missing_repository disk None
           (Some "https://github.com/user/repo.git") "/srv/work").
Defined.

End GitFacts.

Module EnvFacts.
Import Js Env.



End EnvFacts.

(* ================================================================== *)
(** * Properties of the Fibonacci and counting utilities *)
(* ================================================================== *)

Module FibonacciFacts.
Import Js Fibonacci.

Lemma recursive_step (n : nat) :
  recursive (S (S n)) = recursive (S n) + recursive n.
Proof. reflexivity. Qed.

Lemma iterate_recursive (turns : nat) :
  forall j : nat,
    iterate turns (recursive j) (recursive (S j)) = recursive (S j + turns).
Proof.
  induction turns as [|turns IH]; intros j.
  - rewrite Nat.add_0_r. reflexivity.
  - cbn [iterate]. rewrite (Z.add_comm (recursive j)), <- recursive_step, (IH (S j)).
    f_equal. lia.
Qed.

Lemma fibonacciIterative_recursive (n : Z) :
  0 <= n -> fibonacciIterative n = Ok (recursive (Z.to_nat n)).
Proof.
  intros Hn. unfold fibonacciIterative.
  destruct (Z.ltb_spec n 0) as [H|_]; [lia|].
  destruct (Z.eqb_spec n 0) as [->|H0]; [reflexivity|].
  destruct (Z.eqb_spec n 1) as [->|H1]; [reflexivity|].
  change 0 with (recursive 0) at 1. change 1 with (recursive 1) at 2.
  rewrite iterate_recursive. f_equal. f_equal. lia.
Qed.

(** The addition law of the recursive definition. *)
Lemma recursive_add (m : nat) :
  forall n : nat,
    recursive (m + n + 1)
    = recursive (m + 1) * recursive (n + 1) + recursive m * recursive n.
Proof.
  assert (H : forall n,
             recursive (m + n + 1)
             = recursive (m + 1) * recursive (n + 1) + recursive m * recursive n
             /\ recursive (S m + n + 1)
                = recursive (S m + 1) * recursive (n + 1) + recursive (S m) * recursive n).
  { induction m as [|m IH]; intros n.
    - split.
      + cbn [Nat.add]. change (recursive 1) with 1. change (recursive 0) with 0. lia.
      + cbn [Nat.add]. replace (n + 1)%nat with (S n) by lia.
        rewrite recursive_step. change (recursive 2) with 1.
        change (recursive 1) with 1. lia.
    - destruct (IH n) as [A B]. split; [exact B|].
      replace (S (S m) + n + 1)%nat with (S (S (m + n + 1))) by lia.
      replace (S (S m) + 1)%nat with (S (S (m + 1))) by lia.
      rewrite !recursive_step.
      replace (S (m + n + 1)) with (S m + n + 1)%nat by lia.
      replace (S (m + 1)) with (S m + 1)%nat by lia.
      rewrite B, A.
      replace (S m + 1)%nat with (S (S m)) by lia. rewrite recursive_step.
      replace (m + 1)%nat with (S m) by lia. ring. }
  intros n. exact (proj1 (H n)).
Qed.

Lemma square_recursive (j : nat) :
  multiplyMatrix
    (recursive (S (S j)), recursive (S j), recursive (S j), recursive j)
    (recursive (S (S j)), recursive (S j), recursive (S j), recursive j)
  = (recursive (S (S (2 * j + 1))), recursive (S (2 * j + 1)),
     recursive (S (2 * j + 1)), recursive (2 * j + 1)).
Proof.
  assert (A : recursive (S (S (2 * j + 1)))
              = recursive (S (S j)) * recursive (S (S j))
                + recursive (S j) * recursive (S j)).
  { replace (S (S (2 * j + 1))) with (S j + S j + 1)%nat by lia.
    rewrite recursive_add. replace (S j + 1)%nat with (S (S j)) by lia.
    reflexivity. }
  assert (B : recursive (S (2 * j + 1))
              = recursive (S j) * recursive (S (S j))
                + recursive j * recursive (S j)).
  { replace (S (2 * j + 1)) with (j + S j + 1)%nat by lia.
    rewrite recursive_add. replace (S j + 1)%nat with (S (S j)) by lia.
    replace (j + 1)%nat with (S j) by lia. reflexivity. }
  assert (C : recursive (2 * j + 1)
              = recursive (S j) * recursive (S j) + recursive j * recursive j).
  { replace (2 * j + 1)%nat with (j + j + 1)%nat by lia.
    rewrite recursive_add. replace (j + 1)%nat with (S j) by lia. reflexivity. }
  unfold multiplyMatrix. rewrite A, B, C.
  repeat match goal with |- (_, _) = (_, _) => apply f_equal2 end; ring.
Qed.

Lemma matrixPower_recursive (p : positive) :
  exists j : nat,
    Pos.to_nat p = S j
    /\ matrixPower baseMatrix p
       = (recursive (S (S j)), recursive (S j), recursive (S j), recursive j).
Proof.
  induction p as [p (j & Hj & IH)|p (j & Hj & IH)|].
  - exists (S (2 * j + 1)). split; [rewrite Pos2Nat.inj_xI; lia|].
    cbn [matrixPower]. rewrite IH, square_recursive.
    unfold baseMatrix, multiplyMatrix.
    rewrite (recursive_step (S (2 * j + 1))), (recursive_step (2 * j + 1)).
    repeat match goal with |- (_, _) = (_, _) => apply f_equal2 end; ring.
  - exists (2 * j + 1)%nat. split; [rewrite Pos2Nat.inj_xO; lia|].
    cbn [matrixPower]. rewrite IH. apply square_recursive.
  - exists 0%nat. split; reflexivity.
Qed.

Lemma fibonacciMatrix_recursive (n : Z) :
  0 <= n -> fibonacciMatrix n = Ok (recursive (Z.to_nat n)).
Proof.
  intros Hn. destruct n as [|p|p]; [reflexivity| |lia].
  unfold fibonacciMatrix.
  destruct (matrixPower_recursive p) as (j & Hj & E).
  rewrite E. rewrite Z2Nat.inj_pos, Hj. reflexivity.
Qed.

Lemma memoized_step (n : nat) (memoCache : Cache) :
  memoized (S (S n)) memoCache
  = match cache_get (Z.of_nat (S (S n))) memoCache with
    | Some v => (v, memoCache)
    | None =>
        let (a, cache1) := memoized (S n) memoCache in
        let (b, cache2) := memoized n cache1 in
        (a + b, cache_set (Z.of_nat (S (S n))) (a + b) cache2)
    end.
Proof. reflexivity. Qed.

Lemma memoized_recursive (n : nat) :
  forall memoCache : Cache,
    consistent memoCache ->
    (fst (memoized n memoCache) = recursive n
     /\ consistent (snd (memoized n memoCache)))
    /\ (fst (memoized (S n) memoCache) = recursive (S n)
        /\ consistent (snd (memoized (S n) memoCache))).
Proof.
  induction n as [|n IH]; intros memoCache Hc.
  - split; split; try reflexivity; exact Hc.
  - destruct (IH memoCache Hc) as [[A1 A2] [B1 B2]].
    split; [split; assumption|].
    rewrite memoized_step.
    destruct (cache_get (Z.of_nat (S (S n))) memoCache) as [v|] eqn:E.
    + split; [|exact Hc]. cbn [fst].
      destruct (Hc _ _ E) as [_ ->]. rewrite Nat2Z.id. reflexivity.
    + destruct (memoized (S n) memoCache) as [a cache1] eqn:E1.
      cbn [fst snd] in B1, B2.
      destruct (IH cache1 B2) as [[C1 C2] _].
      destruct (memoized n cache1) as [b cache2] eqn:E2.
      cbn [fst snd] in C1, C2 |- *. subst a b.
      split; [reflexivity|].
      intros k v. unfold cache_set. cbn [cache_get].
      destruct (Z.eqb_spec k (Z.of_nat (S (S n)))) as [->|_].
      * intros H. injection H as <-. split; [lia|].
        rewrite Nat2Z.id. reflexivity.
      * apply C2.
Qed.

Lemma fibonacciMemoized_recursive (n : Z) (memoCache : Cache) :
  0 <= n -> consistent memoCache ->
  fst (fibonacciMemoized n memoCache) = Ok (recursive (Z.to_nat n))
  /\ consistent (snd (fibonacciMemoized n memoCache)).
Proof.
  intros Hn Hc. unfold fibonacciMemoized.
  destruct (Z.ltb_spec n 0) as [H|_]; [lia|].
  destruct (memoized_recursive (Z.to_nat n) memoCache Hc) as [[A B] _].
  destruct (memoized (Z.to_nat n) memoCache) as [v c]. cbn [fst snd] in *.
  subst v. split; [reflexivity|exact B].
Qed.

Lemma calculator_recursive (method : FibonacciMethod) (n : Z) (memoCache : Cache) :
  0 <= n -> consistent memoCache ->
  fst (calculator method n memoCache) = Ok (recursive (Z.to_nat n))
  /\ consistent (snd (calculator method n memoCache)).
Proof.
  intros Hn Hc. destruct method; cbn [calculator fst snd].
  - split; [exact (fibonacciIterative_recursive n Hn)|exact Hc].
  - split; [|exact Hc]. unfold fibonacciRecursive.
    destruct (Z.ltb_spec n 0); [lia|reflexivity].
  - exact (fibonacciMemoized_recursive n memoCache Hn Hc).
  - split; [exact (fibonacciMatrix_recursive n Hn)|exact Hc].
Qed.

Lemma sequence_loop_recursive (method : FibonacciMethod) (turns : nat) :
  forall (i : nat) (memoCache : Cache),
    consistent memoCache ->
    fst (sequence_loop method turns (Z.of_nat i) memoCache)
    = Ok (map recursive (seq i turns))
    /\ consistent (snd (sequence_loop method turns (Z.of_nat i) memoCache)).
Proof.
  induction turns as [|turns IH]; intros i memoCache Hc.
  - split; [reflexivity|exact Hc].
  - cbn [sequence_loop seq map].
    destruct (calculator_recursive method (Z.of_nat i) memoCache
                (Nat2Z.is_nonneg i) Hc) as [A B].
    destruct (calculator method (Z.of_nat i) memoCache) as [r c].
    cbn [fst snd] in A, B. subst r. rewrite Nat2Z.id.
    replace (Z.of_nat i + 1) with (Z.of_nat (S i)) by lia.
    destruct (IH (S i) c B) as [C D].
    destruct (sequence_loop method turns (Z.of_nat (S i)) c) as [r c'].
    cbn [fst snd] in C, D |- *. subst r. split; [reflexivity|exact D].
Qed.

(** X24.  The four ways of computing a Fibonacci number agree.  For
    every integer n that is not negative, the iterative loop and the matrix
    power by repeated squaring return what the recursive definition
    returns, and so does the memoized version whatever earlier calls have
    left in its cache; the cache, empty at first and after clearMemoCache,
    never holds a wrong value.  For a negative n the four functions throw. *)
Theorem fibonacci_methods_agree :
  forall (n : Z) (method : option FibonacciMethod) (memoCache : Cache),
    consistent [] /\ consistent (clearMemoCache memoCache)
    /\ (n < 0 ->
        fst (fibonacci n method memoCache) = Throw negative
        /\ snd (fibonacci n method memoCache) = memoCache)
    /\ (0 <= n ->
        consistent memoCache ->
        fst (fibonacci n method memoCache) = fibonacciRecursive n
        /\ fibonacciRecursive n = Ok (recursive (Z.to_nat n))
        /\ consistent (snd (fibonacci n method memoCache))).
Proof.
  intros n method memoCache.
  split; [intros k v H; discriminate|].
  split; [intros k v H; discriminate|]. split.
  - intros Hn. unfold fibonacci.
    destruct method as [[| | |]|]; cbn [calculator fst snd];
      unfold fibonacciIterative, fibonacciRecursive, fibonacciMemoized, fibonacciMatrix;
      try (destruct (Z.ltb_spec n 0); [split; reflexivity|lia]);
      destruct n; try lia; split; reflexivity.
  - intros Hn Hc.
    assert (E : fibonacciRecursive n = Ok (recursive (Z.to_nat n))).
    { unfold fibonacciRecursive. destruct (Z.ltb_spec n 0); [lia|reflexivity]. }
    rewrite E. unfold fibonacci.
    destruct (calculator_recursive
                (match method with Some m => m | None => iterative end)
                n memoCache Hn Hc) as [A B].
    split; [exact A|]. split; [reflexivity|exact B].
Qed.

(** X25.  fibonacciSequence(n, method) for an integer n that is not
    negative returns the n + 1 values of the recursive definition at the
    indices 0 to n, in order, whichever method is chosen and whatever
    earlier calls have left in the cache of the memoized one. *)
Theorem fibonacciSequence_lists_the_first_terms :
  forall (n : Z) (method : option FibonacciMethod) (memoCache : Cache),
    0 <= n ->
    consistent memoCache ->
    fst (fibonacciSequence n method memoCache)
    = Ok (map recursive (seq 0 (S (Z.to_nat n))))
    /\ consistent (snd (fibonacciSequence n method memoCache)).
Proof.
  intros n method memoCache Hn Hc. unfold fibonacciSequence.
  destruct (Z.ltb_spec n 0) as [H|_]; [lia|].
  replace (Z.to_nat (n + 1)) with (S (Z.to_nat n)) by lia.
  exact (sequence_loop_recursive _ (S (Z.to_nat n)) 0 memoCache Hc).
Qed.

Lemma fibonacciSequence_lists_the_first_terms_witness :
  fst (fibonacciSequence 10 (Some memoized_) [(7, 13)])
  = Ok (map recursive (seq 0 (S (Z.to_nat 10))))
  /\ consistent (snd (fibonacciSequence 10 (Some memoized_) [(7, 13)])).
Proof.
  apply (fibonacciSequence_lists_the_first_terms 10 (Some memoized_) [(7, 13)]).
  - lia.
  - intros k v. cbn [cache_get].
    destruct (Z.eqb_spec k 7) as [->|_]; [|discriminate].
    intros H. injection H as <-. split; [lia|reflexivity].
Defined.

End FibonacciFacts.

Module CountFacts.
Import Count.











End CountFacts.
